(** * opencl_serv.c: the OpenCL intermediation server of PG-Strom

    A shallow embedding of [src/opencl_serv.c] and the properties of its
    scheduler, start-up, worker loop, shutdown and log writer.

    Conventions.
    - C integers are [Z] with the wrap-around of their width written out
      ([wrap_int] for [int], [wrap_size_t] for [size_t]).
    - Calls that leave the file (OpenCL, libc, pthread, the PostgreSQL
      back end, the message queue of PG-Strom) are events of a trace; what
      they answer is read from an [environment] or from the label of the
      step.
    - The main routine, the worker threads and the signal handlers run
      interleaved: [sys_step] is one step of one of them. *)

From Stdlib Require Import ZArith List String Ascii Bool Lia DecimalString.
From Equations Require Import Equations.
From stdpp Require Import base tactics option list numbers.
Import ListNotations.
Local Open Scope string_scope.
Local Open Scope list_scope.
Local Open Scope Z_scope.

(* ================================================================== *)
(** * Part I: the embedding *)
(* ================================================================== *)

(** ** C integer types *)

Module CInt.

Definition INT_MAX : Z := 2 ^ 31 - 1.
Definition INT_MIN : Z := - 2 ^ 31.
(** [LONG_MAX] of <limits.h> on an LP64 platform. *)
Definition LONG_MAX : Z := 2 ^ 63 - 1.

(** Conversion to [int]: two's complement wrap-around on 32 bits.  Signed
    overflow of [index++] is undefined in ISO C; the usual compilers wrap. *)
Definition wrap_int (z : Z) : Z := (z + 2 ^ 31) mod 2 ^ 32 - 2 ^ 31.

(** Conversion to [unsigned int] ([cl_uint]). *)
Definition wrap_uint (z : Z) : Z := z mod 2 ^ 32.

(** Conversion to [size_t] ([Size]), 64 bits. *)
Definition wrap_size_t (z : Z) : Z := z mod 2 ^ 64.

Definition in_int (z : Z) : Prop := INT_MIN <= z <= INT_MAX.

End CInt.
Import CInt.

(** ** The device scheduler (lines 92-98) *)

Module Scheduler.

(** [opencl_num_devices] is declared in pg_strom.h, which is not part of
    the file: its type is either [cl_int] or [cl_uint], and [%] depends
    on it.  Both readings are modelled. *)
Inductive count_type := CountSigned | CountUnsigned.

(** [index % opencl_num_devices] with [index] an [int].  With a signed
    count it is C's remainder, which truncates towards zero ([Z.rem]);
    with an unsigned count [index] is first converted to [unsigned int],
    and the result is converted back to the [int] the function returns. *)
Definition c_mod (ty : count_type) (index num_devices : Z) : Z :=
  match ty with
  | CountSigned => Z.rem index num_devices
  | CountUnsigned => wrap_int (wrap_uint index mod num_devices)
  end.

(** The static local [index] is the state: the function returns the
    device index and the value [index] holds afterwards.
<<
    static int index = 0;
    return index++ % opencl_num_devices;
>> *)
Definition pgstrom_opencl_device_schedule
    (ty : count_type) (opencl_num_devices : Z) (index : Z) : Z * Z :=
  (c_mod ty index opencl_num_devices, wrap_int (index + 1)).

(** The counter after [k] calls, from its initial value 0. *)
Definition index_after (ty : count_type) (C : Z) (k : N) : Z :=
  N.iter k (fun index => snd (pgstrom_opencl_device_schedule ty C index)) 0.

(** What call number [k] returns (calls are numbered from 0). *)
Definition nth_call (ty : count_type) (C : Z) (k : N) : Z :=
  fst (pgstrom_opencl_device_schedule ty C (index_after ty C k)).

(** The first [k] results, by running the calls one after the other. *)
Fixpoint schedule_run (ty : count_type) (C : Z) (k : nat) (index : Z) : list Z :=
  match k with
  | O => []
  | S k' =>
      let '(dev, index') := pgstrom_opencl_device_schedule ty C index in
      dev :: schedule_run ty C k' index'
  end.

End Scheduler.
Import Scheduler.

(** ** Events: the calls and the shared-variable accesses of the file *)

Inductive signal := SIGHUP | SIGTERM.

Inductive elevel := LOG | ERROR.

(** A message as the worker loop sees it: its address and the function
    pointer in its [cb_process] field. *)
Record pgstrom_message := { msg_ptr : Z; cb_process : Z }.

(** [pgstrom_device_info]: the one field this file reads (a [cl_ulong]). *)
Record pgstrom_device_info := { dev_max_mem_alloc_size : Z }.

Inductive event :=
| EvSetIAmClserv                                 (* pgstrom_i_am_clserv = true *)
| EvPqsignal (sig : signal)                      (* pqsignal(sig, handler) *)
| EvSetImmediateInterruptOK                      (* ImmediateInterruptOK = false *)
| EvUnblockSignals                               (* BackgroundWorkerUnblockSignals() *)
| EvCreateContext (num_devices : Z) (ok : bool)  (* clCreateContext *)
| EvCreateCommandQueue (i : Z) (ok : bool)       (* opencl_cmdq[i] = clCreateCommandQueue *)
| EvSetupShmem (zone_length : Z)                 (* pgstrom_setup_shmem(zone_length, cb) *)
| EvCreateBuffer (address length : Z) (ok : bool)(* clCreateBuffer in the zone callback *)
| EvElog (lvl : elevel) (fmt : string)           (* elog(lvl, fmt, ...) *)
| EvSysconf (ret : Z)                            (* sysconf(_SC_NPROCESSORS_ONLN) *)
| EvAssertFailed                                 (* a failed Assert() traps *)
| EvMalloc (size : Z) (ok : bool)                (* malloc(size) *)
| EvPthreadCreate (i : Z) (ok : bool)            (* pthread_create(&threads[i], ...) *)
| EvPthreadJoin (i : Z)                          (* pthread_join(threads[i], NULL) returned *)
| EvWriteExitPending (v : bool)                  (* pgstrom_clserv_exit_pending = v *)
| EvReadExitPending (v : bool)                   (* the loop condition read v *)
| EvCancelServerLoop                             (* pgstrom_cancel_server_loop() *)
| EvCloseServerQueue                             (* pgstrom_close_server_queue() *)
| EvClservLog (fmt : string)                     (* clserv_log(fmt) *)
| EvCheckForInterrupts                           (* CHECK_FOR_INTERRUPTS() *)
| EvDequeue (msg : option pgstrom_message)       (* pgstrom_dequeue_server_message() *)
| EvCallback (fn : Z) (arg : pgstrom_message).   (* msg->cb_process(msg) *)

(** What the world outside the file answers.  [assert_checking] is
    PostgreSQL's USE_ASSERT_CHECKING: without it [Assert] expands to
    nothing. *)
Record environment := {
  opencl_device_info : list pgstrom_device_info;  (* the registry, opencl_num_devices long *)
  configured_num_threads : Z;                     (* pgstrom.opencl_num_threads *)
  assert_checking : bool;
  clCreateContext_ok : bool;
  clCreateCommandQueue_ok : Z -> bool;
  shmem_zones : Z -> list (Z * Z);                (* the zones pgstrom_setup_shmem cuts *)
  clCreateBuffer_ok : Z -> bool;                  (* by zone address *)
  sysconf_nprocessors_onln : Z;
  malloc_ok : Z -> bool;                          (* by requested size *)
  pthread_create_ok : Z -> bool                   (* by thread index *)
}.

Definition opencl_num_devices (env : environment) : Z :=
  Z.of_nat (length (opencl_device_info env)).

(** ** A trace-and-error monad for the start-up code

    [elog(ERROR, ...)] does not return: the rest of the routine is
    skipped and the background worker exits. *)

Inductive result (A : Type) :=
| Ok (a : A)
| Raised (fmt : string).
Arguments Ok {A} a.
Arguments Raised {A} fmt.

Definition M (A : Type) : Type := list event * result A.

#[export] Instance M_ret : MRet M := fun A a => ([], Ok a).

#[export] Instance M_bind : MBind M := fun A B f m =>
  match m with
  | (t, Ok a) => let '(t', r) := f a in (t ++ t', r)
  | (t, Raised e) => (t, Raised e)
  end.

Definition emit (e : event) : M unit := ([e], Ok tt).

Definition elog (lvl : elevel) (fmt : string) : M unit :=
  match lvl with
  | LOG => ([EvElog LOG fmt], Ok tt)
  | ERROR => ([EvElog ERROR fmt], Raised fmt)
  end.

(** ** init_opencl_context_and_shmem (lines 107-186) *)

Section Init.
Variable env : environment.

(** [on_shmem_zone_callback] (lines 107-125). *)
Definition on_shmem_zone_callback (address length : Z) : M unit :=
  let rc := clCreateBuffer_ok env address in
  emit (EvCreateBuffer address length rc) ;;
  (if negb rc
   then elog ERROR "clCreateBuffer failed on host memory (%p-%p): %s"
   else mret tt) ;;
  elog LOG "PG-Strom: zone %p-%p was mapped (len: %luMB)".

(** [pgstrom_setup_shmem] is PG-Strom's shared-memory module: it cuts
    the segment into zones and calls the callback on each. *)
Fixpoint setup_zones (zones : list (Z * Z)) : M unit :=
  match zones with
  | [] => mret tt
  | (address, length) :: rest =>
      on_shmem_zone_callback address length ;; setup_zones rest
  end.

Definition pgstrom_setup_shmem (zone_length : Z) : M unit :=
  emit (EvSetupShmem zone_length) ;;
  setup_zones (shmem_zones env zone_length).

(** The loop of lines 165-181, on the devices from index [i] on.
    [zone_length] is a [Size] and [dev_max_mem_alloc_size] a [cl_ulong]:
    the comparison is unsigned, on 64 bits, and the assignment keeps the
    value. *)
Fixpoint create_command_queues
    (i : Z) (devs : list pgstrom_device_info) (zone_length : Z) : M Z :=
  match devs with
  | [] => mret zone_length
  | dev_info :: rest =>
      let rc := clCreateCommandQueue_ok env i in
      emit (EvCreateCommandQueue i rc) ;;
      (if negb rc
       then elog ERROR "clCreateCommandQueue failed: %s"
       else mret tt) ;;
      let zone_length :=
        if zone_length >? dev_max_mem_alloc_size dev_info
        then dev_max_mem_alloc_size dev_info
        else zone_length in
      create_command_queues (i + 1) rest zone_length
  end.

Definition init_opencl_context_and_shmem : M unit :=
  let zone_length := wrap_size_t LONG_MAX in
  let rc := clCreateContext_ok env in
  emit (EvCreateContext (opencl_num_devices env) rc) ;;
  (if negb rc then elog ERROR "clCreateContext failed: %s" else mret tt) ;;
  zone_length ← create_command_queues 0 (opencl_device_info env) zone_length ;
  elog LOG "PG-Strom: setting up shared memory (zone length=%zu)" ;;
  pgstrom_setup_shmem zone_length.

End Init.

(** ** The worker loop: pgstrom_opencl_event_loop (lines 68-82)

    A worker is at one of the program points of the loop; a step takes
    it to the next and emits the access or call made on the way.
<<
    while (!pgstrom_clserv_exit_pending)      W_test
    {
        CHECK_FOR_INTERRUPTS();               W_check
        msg = pgstrom_dequeue_server_message();   W_dequeue
        if (!msg)
            continue;
        msg->cb_process(msg);                 W_call msg
    }
    return NULL;                              W_exited
>> *)
Inductive worker_pc :=
| W_test
| W_check
| W_dequeue
| W_call (msg : pgstrom_message)
| W_exited.

(** [exit_pending] is the value of the volatile flag when the condition
    reads it; [deq] is what the queue hands out when the call returns
    ([None] is the NULL pointer). *)
Definition pgstrom_opencl_event_loop
    (exit_pending : bool) (deq : option pgstrom_message) (w : worker_pc)
    : option (worker_pc * event) :=
  match w with
  | W_test =>
      Some (if exit_pending then W_exited else W_check,
            EvReadExitPending exit_pending)
  | W_check => Some (W_dequeue, EvCheckForInterrupts)
  | W_dequeue =>
      Some (match deq with
            | None => W_test
            | Some msg => W_call msg
            end, EvDequeue deq)
  | W_call msg => Some (W_test, EvCallback (cb_process msg) msg)
  | W_exited => None
  end.


(** ** The signal handlers (lines 46-60) *)

Inductive handler_pc := H_flag | H_cancel | H_log | H_done.

Definition pgstrom_opencl_sigterm (h : handler_pc) : option (handler_pc * event) :=
  match h with
  | H_flag => Some (H_cancel, EvWriteExitPending true)
  | H_cancel => Some (H_log, EvCancelServerLoop)
  | H_log => Some (H_done, EvClservLog "Got SIGTERM")
  | H_done => None
  end.

Definition pgstrom_opencl_sighup (h : handler_pc) : option (handler_pc * event) :=
  match h with
  | H_flag => Some (H_cancel, EvWriteExitPending true)
  | H_cancel => Some (H_log, EvCancelServerLoop)
  | H_log => Some (H_done, EvClservLog "Got SIGHUP")
  | H_done => None
  end.

(** The handler [pqsignal] installed for each signal (lines 205-206). *)
Definition handler_of (sig : signal) : handler_pc -> option (handler_pc * event) :=
  match sig with
  | SIGHUP => pgstrom_opencl_sighup
  | SIGTERM => pgstrom_opencl_sigterm
  end.

(** A handler run from its entry to its return. *)
Fixpoint handler_run (fuel : nat) (sig : signal) (h : handler_pc) : list event :=
  match fuel with
  | O => []
  | S fuel' =>
      match handler_of sig h with
      | None => []
      | Some (h', ev) => ev :: handler_run fuel' sig h'
      end
  end.

(** ** The main routine: pgstrom_opencl_main (lines 195-270) *)

(** [sizeof(pthread_t)] with glibc on a 64-bit platform. *)
Definition sizeof_pthread_t : Z := 8.

(** The custom variable of lines 373-382: boot value 0 ("auto
    selection"), minimum 0, maximum INT_MAX.  The configuration machinery
    of PostgreSQL refuses a value outside the range. *)
Record guc_int := { guc_boot : Z; guc_min : Z; guc_max : Z }.

Definition pgstrom_init_opencl_server : guc_int :=
  {| guc_boot := 0; guc_min := 0; guc_max := INT_MAX |}.

Definition guc_accepts (g : guc_int) (v : Z) : Prop :=
  guc_min g <= v <= guc_max g.

(** Program points of the main routine, with the local [i] where it is
    live. *)
Inductive main_pc :=
| PC_start                (* lines 202-210 *)
| PC_init                 (* line 213-214 *)
| PC_resolve              (* lines 223-225 *)
| PC_malloc               (* lines 227-232 *)
| PC_spawn (i : Z)        (* line 234: the test of the for loop *)
| PC_spawned (i : Z)      (* line 247 *)
| PC_fail_flag (i : Z)    (* line 250 *)
| PC_fail_cancel (i : Z)  (* line 251 *)
| PC_join (i : Z)         (* line 256: --i >= 0 *)
| PC_joining (i : Z)      (* line 257: inside pthread_join(threads[i]) *)
| PC_stopping             (* line 260 *)
| PC_close                (* line 269 *)
| PC_returned             (* the routine returned *)
| PC_aborted.             (* elog(ERROR) or a failed Assert: the process exits *)

Inductive actor :=
| Main
| Worker (k : nat)
| Handler (h : nat).

Record system := {
  pgstrom_clserv_exit_pending : bool;         (* line 42 *)
  pgstrom_i_am_clserv : bool;                 (* line 44 *)
  opencl_num_threads : Z;                     (* line 35 *)
  pc : main_pc;
  threads : list worker_pc;                   (* the thread behind threads[k] *)
  handlers : list (signal * handler_pc);      (* handler activations *)
  history : list (actor * event)              (* newest first *)
}.

Definition initial (env : environment) : system :=
  {| pgstrom_clserv_exit_pending := false;
     pgstrom_i_am_clserv := false;
     opencl_num_threads := configured_num_threads env;
     pc := PC_start;
     threads := [];
     handlers := [];
     history := [] |}.

Definition with_pc (p : main_pc) (s : system) : system :=
  {| pgstrom_clserv_exit_pending := pgstrom_clserv_exit_pending s;
     pgstrom_i_am_clserv := pgstrom_i_am_clserv s;
     opencl_num_threads := opencl_num_threads s;
     pc := p;
     threads := threads s;
     handlers := handlers s;
     history := history s |}.

Definition with_num_threads (n : Z) (s : system) : system :=
  {| pgstrom_clserv_exit_pending := pgstrom_clserv_exit_pending s;
     pgstrom_i_am_clserv := pgstrom_i_am_clserv s;
     opencl_num_threads := n;
     pc := pc s;
     threads := threads s;
     handlers := handlers s;
     history := history s |}.

Definition with_threads (ts : list worker_pc) (s : system) : system :=
  {| pgstrom_clserv_exit_pending := pgstrom_clserv_exit_pending s;
     pgstrom_i_am_clserv := pgstrom_i_am_clserv s;
     opencl_num_threads := opencl_num_threads s;
     pc := pc s;
     threads := ts;
     handlers := handlers s;
     history := history s |}.

Definition with_handlers (hs : list (signal * handler_pc)) (s : system) : system :=
  {| pgstrom_clserv_exit_pending := pgstrom_clserv_exit_pending s;
     pgstrom_i_am_clserv := pgstrom_i_am_clserv s;
     opencl_num_threads := opencl_num_threads s;
     pc := pc s;
     threads := threads s;
     handlers := hs;
     history := history s |}.

(** An event enters the history, and a write to a shared variable takes
    effect. *)
Definition record_event (a : actor) (s : system) (e : event) : system :=
  {| pgstrom_clserv_exit_pending :=
       match e with
       | EvWriteExitPending v => v
       | _ => pgstrom_clserv_exit_pending s
       end;
     pgstrom_i_am_clserv :=
       match e with
       | EvSetIAmClserv => true
       | _ => pgstrom_i_am_clserv s
       end;
     opencl_num_threads := opencl_num_threads s;
     pc := pc s;
     threads := threads s;
     handlers := handlers s;
     history := (a, e) :: history s |}.

Definition record_events (a : actor) (evs : list event) (s : system) : system :=
  fold_left (record_event a) evs s.

(** One step of the main routine: the program point reached, the value
    of [opencl_num_threads], the thread started if any, and the events. *)
Record main_move := {
  mv_pc : main_pc;
  mv_num_threads : Z;
  mv_started : bool;
  mv_events : list event
}.

Definition move (p : main_pc) (s : system) (evs : list event) : option main_move :=
  Some {| mv_pc := p; mv_num_threads := opencl_num_threads s;
          mv_started := false; mv_events := evs |}.

Definition pgstrom_opencl_main (env : environment) (s : system) : option main_move :=
  match pc s with
  | PC_start =>
      move PC_init s
        [EvSetIAmClserv; EvPqsignal SIGHUP; EvPqsignal SIGTERM;
         EvSetImmediateInterruptOK; EvUnblockSignals]
  | PC_init =>
      match init_opencl_context_and_shmem env with
      | (evs, Ok _) =>
          move PC_resolve s (evs ++ [EvElog LOG "Starting PG-Strom OpenCL Server"])
      | (evs, Raised _) => move PC_aborted s evs
      end
  | PC_resolve =>
      let '(n, evs) :=
        if opencl_num_threads s =? 0
        then (wrap_int (sysconf_nprocessors_onln env),
              [EvSysconf (sysconf_nprocessors_onln env)])
        else (opencl_num_threads s, []) in
      if assert_checking env && negb (n >? 0)
      then Some {| mv_pc := PC_aborted; mv_num_threads := n;
                   mv_started := false; mv_events := evs ++ [EvAssertFailed] |}
      else Some {| mv_pc := PC_malloc; mv_num_threads := n;
                   mv_started := false; mv_events := evs |}
  | PC_malloc =>
      let size := wrap_size_t (sizeof_pthread_t * wrap_size_t (opencl_num_threads s)) in
      if malloc_ok env size
      then move (PC_spawn 0) s [EvMalloc size true]
      else move PC_returned s [EvMalloc size false; EvElog LOG "out of memory"]
  | PC_spawn i =>
      if i <? opencl_num_threads s
      then
        if pthread_create_ok env i
        then Some {| mv_pc := PC_spawn (wrap_int (i + 1));
                     mv_num_threads := opencl_num_threads s;
                     mv_started := true;
                     mv_events := [EvPthreadCreate i true] |}
        else move (PC_spawned i) s [EvPthreadCreate i false]
      else move (PC_spawned i) s []
  | PC_spawned i =>
      if i <? opencl_num_threads s
      then move (PC_fail_flag i) s [EvElog LOG "failed to create server threads"]
      else move (PC_join i) s [EvElog LOG "PG-Strom: %d of server threads are up"]
  | PC_fail_flag i => move (PC_fail_cancel i) s [EvWriteExitPending true]
  | PC_fail_cancel i => move (PC_join i) s [EvCancelServerLoop]
  | PC_join i =>
      let i := wrap_int (i - 1) in
      if i >=? 0 then move (PC_joining i) s [] else move PC_stopping s []
  | PC_joining i =>
      (* pthread_join returns once the thread has returned *)
      match threads s !! Z.to_nat i with
      | Some W_exited => move (PC_join i) s [EvPthreadJoin i]
      | _ => None
      end
  | PC_stopping => move PC_close s [EvElog LOG "Stopping PG-Strom OpenCL Server"]
  | PC_close => move PC_returned s [EvCloseServerQueue]
  | PC_returned => None
  | PC_aborted => None
  end.

(** ** The process: main routine, workers and handlers interleaved *)

Inductive action :=
| ActMain                                            (* the main routine moves *)
| ActWorker (k : nat) (deq : option pgstrom_message) (* worker k moves *)
| ActSignal (sig : signal)                           (* a signal is delivered *)
| ActHandler (h : nat).                              (* handler activation h moves *)

(** The process runs until the main routine returns or aborts. *)
Definition alive (s : system) : bool :=
  match pc s with
  | PC_returned | PC_aborted => false
  | _ => true
  end.

(** Signals are blocked until BackgroundWorkerUnblockSignals (line 210). *)
Definition signals_unblocked (s : system) : bool :=
  match pc s with
  | PC_start => false
  | _ => true
  end.

Definition sys_step (env : environment) (s : system) (a : action) : option system :=
  if negb (alive s) then None else
  match a with
  | ActMain =>
      mv ← pgstrom_opencl_main env s;
      let s := with_num_threads (mv_num_threads mv) (with_pc (mv_pc mv) s) in
      let s := if mv_started mv
               then with_threads (threads s ++ [W_test]) s else s in
      Some (record_events Main (mv_events mv) s)
  | ActWorker k deq =>
      w ← threads s !! k;
      '(w', ev) ← pgstrom_opencl_event_loop (pgstrom_clserv_exit_pending s) deq w;
      Some (record_event (Worker k) (with_threads (<[k := w']> (threads s)) s) ev)
  | ActSignal sig =>
      if signals_unblocked s
      then Some (with_handlers (handlers s ++ [(sig, H_flag)]) s)
      else None
  | ActHandler h =>
      '(sig, hp) ← handlers s !! h;
      '(hp', ev) ← handler_of sig hp;
      Some (record_event (Handler h)
              (with_handlers (<[h := (sig, hp')]> (handlers s)) s) ev)
  end.

(** A schedule is run from left to right; [None] when a step of it is
    not enabled. *)
Fixpoint sys_run (env : environment) (s : system) (sched : list action) : option system :=
  match sched with
  | [] => Some s
  | a :: rest =>
      match sys_step env s a with
      | Some s' => sys_run env s' rest
      | None => None
      end
  end.

Definition reachable (env : environment) (s : system) : Prop :=
  exists sched, sys_run env (initial env) sched = Some s.

(** The events in the order they happened, and those of one actor. *)
Definition trace (s : system) : list (actor * event) := reverse (history s).

Definition is_main (a : actor) : bool :=
  match a with Main => true | _ => false end.

Definition is_worker (a : actor) : bool :=
  match a with Worker _ => true | _ => false end.

Definition is_worker_k (k : nat) (a : actor) : bool :=
  match a with Worker k' => Nat.eqb k k' | _ => false end.

Fixpoint events_of (p : actor -> bool) (t : list (actor * event)) : list event :=
  match t with
  | [] => []
  | (a, e) :: t' => if p a then e :: events_of p t' else events_of p t'
  end.

Definition main_trace (s : system) : list event := events_of is_main (trace s).

Definition worker_trace (k : nat) (s : system) : list event :=
  events_of (is_worker_k k) (trace s).

(** ** The log writer: __clserv_log (lines 279-346) *)

Module LogWriter.

(** [sizeof(buf)] of [char buf[8192]]. *)
Definition BUFSIZE : Z := 8192.

(** The local array and what lies around it on the stack.  [cells] are
    the 8192 bytes of [buf]; a store through [buf + ofs] with [ofs]
    outside [0, 8192) does not touch them and is kept in [overrun]. *)
Record stack_buf := {
  cells : list ascii;
  overrun : list (Z * ascii)
}.

Definition store (b : stack_buf) (ofs : Z) (c : ascii) : stack_buf :=
  if (0 <=? ofs) && (ofs <? BUFSIZE)
  then {| cells := <[Z.to_nat ofs := c]> (cells b); overrun := overrun b |}
  else {| cells := cells b; overrun := overrun b ++ [(ofs, c)] |}.

Fixpoint store_all (b : stack_buf) (ofs : Z) (text : list ascii) : stack_buf :=
  match text with
  | [] => b
  | c :: rest => store_all (store b ofs c) (ofs + 1) rest
  end.

(** [snprintf(buf + ofs, size, ...)] and [vsnprintf] of C99, where [text]
    is what the format expands to: with [size > 0] at most [size - 1]
    characters of it are stored, then a NUL; nothing is stored with
    [size = 0].  The value returned is an [int]: the length of [text],
    also when it was cut, as long as that is at most INT_MAX.  A longer
    text has no length to return: the call fails (EOVERFLOW) with a
    negative value, -1 in the C library. *)
Definition c_snprintf (b : stack_buf) (ofs size : Z) (text : list ascii)
    : stack_buf * Z :=
  let n := Z.of_nat (length text) in
  let ret := if n <=? INT_MAX then n else -1 in
  if size =? 0 then (b, ret)
  else (store_all b ofs (take (Z.to_nat (Z.min (size - 1) n)) text ++ [zero]), ret).

Definition decimal (z : Z) : string := NilZero.string_of_int (Z.to_int z).

(** What the format of lines 289-294 expands to. *)
Definition log_prefix (verbose : bool) (funcname filename : string) (lineno : Z) : string :=
  if verbose
  then ("LOG: (" ++ filename ++ ":" ++ decimal lineno ++ ", " ++ funcname ++ ") ")%string
  else ("LOG: (" ++ filename ++ ":" ++ decimal lineno ++ ") ")%string.

(** Lines 285-298.  [ofs] is a [size_t]: [sizeof(buf) - ofs] and
    [ofs += ...] are computed modulo 2^64, the [int] returned being
    converted to [size_t] first (a negative one moves [ofs] back).
    [body] is what [fmt] expands to with the arguments given. *)
Definition compose_message (verbose : bool) (funcname filename : string)
    (lineno : Z) (body : string) (buf : stack_buf) : stack_buf :=
  let ofs := 0 in
  let '(buf, n) :=
    c_snprintf buf ofs (wrap_size_t (BUFSIZE - ofs))
      (list_ascii_of_string (log_prefix verbose funcname filename lineno)) in
  let ofs := wrap_size_t (ofs + n) in
  let '(buf, n) :=
    c_snprintf buf ofs (wrap_size_t (BUFSIZE - ofs)) (list_ascii_of_string body) in
  let ofs := wrap_size_t (ofs + n) in
  let '(buf, n) :=
    c_snprintf buf ofs (wrap_size_t (BUFSIZE - ofs)) [ascii_of_nat 10] in
  buf.

(** [strlen(buf)]: the offset of the first NUL in the array. *)
Fixpoint strlen (cs : list ascii) : option Z :=
  match cs with
  | [] => None
  | c :: rest =>
      if Ascii.eqb c zero then Some 0 else option_map Z.succ (strlen rest)
  end.

(** A frame of the pipe protocol of the syslogger: [proto_len] is a
    [uint16]; [proto_data] are the payload bytes handed to [write]. *)
Record PipeProtoChunk := {
  proto_pid : Z;
  proto_is_last : ascii;
  proto_len : Z;
  proto_data : list ascii
}.

Definition wrap_uint16 (z : Z) : Z := z mod 2 ^ 16.

(** Lines 322-339.  PIPE_MAX_PAYLOAD comes from syslogger.h; it is a
    positive constant (503 for the usual 512-byte chunk). *)
Equations? write_pipe_chunks (PIPE_MAX_PAYLOAD : positive) (pid : Z)
    (data : list ascii) (len : Z) : list PipeProtoChunk
  by wf (Z.to_nat len) lt :=
  write_pipe_chunks PIPE_MAX_PAYLOAD pid data len
    with Z_gt_dec len (Z.pos PIPE_MAX_PAYLOAD) := {
    | left _ =>
        {| proto_pid := pid; proto_is_last := "f"%char;
           proto_len := wrap_uint16 (Z.pos PIPE_MAX_PAYLOAD);
           proto_data := take (Pos.to_nat PIPE_MAX_PAYLOAD) data |}
        :: write_pipe_chunks PIPE_MAX_PAYLOAD pid
             (drop (Pos.to_nat PIPE_MAX_PAYLOAD) data)
             (len - Z.pos PIPE_MAX_PAYLOAD)
    | right _ =>
        [ {| proto_pid := pid; proto_is_last := "f"%char;
             proto_len := wrap_uint16 len;
             proto_data := take (Z.to_nat len) data |} ] }.
Proof. lia. Qed.

Record log_settings := {
  verbose : bool;           (* Log_error_verbosity == PGERROR_VERBOSE *)
  to_stderr : bool;         (* (Log_destination & LOG_DESTINATION_STDERR) ||
                               whereToSendOutput == DestDebug *)
  redirection_done : bool;
  am_syslogger : bool;
  MyProcPid : Z
}.

Inductive write_call :=
| WriteChunk (p : PipeProtoChunk)     (* write(fd, &p, PIPE_HEADER_SIZE + len) *)
| WriteBuf (data : list ascii).       (* write(fd, buf, len) *)

(** The routine: the array as it leaves it, and the calls of [write].
    [garbage] is what the uninitialised array holds on entry. *)
Definition __clserv_log (PIPE_MAX_PAYLOAD : positive) (cfg : log_settings)
    (garbage : list ascii) (funcname filename : string) (lineno : Z)
    (body : string) : stack_buf * list write_call :=
  let buf :=
    compose_message (verbose cfg) funcname filename lineno body
      {| cells := garbage; overrun := [] |} in
  if to_stderr cfg
  then
    match strlen (cells buf) with
    | Some len =>
        if redirection_done cfg && negb (am_syslogger cfg)
        then (buf, map WriteChunk
                     (write_pipe_chunks PIPE_MAX_PAYLOAD (MyProcPid cfg) (cells buf) len))
        else (buf, [WriteBuf (take (Z.to_nat len) (cells buf))])
    | None => (buf, [])
    end
  else (buf, []).

End LogWriter.
Import LogWriter.


(** ** Registration with the postmaster (lines 349-399)

    [pgstrom_init_opencl_server] runs in the postmaster when the library
    is loaded; [pgstrom_startup_opencl_server] is the hook it installs,
    which the postmaster calls once the shared memory segment exists.
    The calls into PostgreSQL are the events. *)

Module Postmaster.

(** MAXALIGN of c.h: rounds up to a multiple of MAXIMUM_ALIGNOF, which
    is 8 on a 64-bit platform, in [uintptr_t] arithmetic.
<<
    #define TYPEALIGN(ALIGNVAL,LEN) \
      (((uintptr_t) (LEN) + ((ALIGNVAL) - 1)) & ~((uintptr_t) ((ALIGNVAL) - 1)))
>> *)
Definition MAXIMUM_ALIGNOF : Z := 8.

Definition TYPEALIGN (alignval len : Z) : Z :=
  Z.land (wrap_size_t (wrap_size_t len + (alignval - 1)))
         (wrap_size_t (Z.lnot (wrap_size_t (alignval - 1)))).

Definition MAXALIGN (len : Z) : Z := TYPEALIGN MAXIMUM_ALIGNOF len.

(** A hook is a function pointer: this file's own function, or one that
    another module has installed. *)
Inductive hook :=
| Hook_other (id : Z)
| Hook_pgstrom_startup_opencl_server.

Inductive BgWorkerStartTime :=
| BgWorkerStart_PostmasterStart
| BgWorkerStart_ConsistentState
| BgWorkerStart_RecoveryFinished.

(** The entry points a worker of this file can be given. *)
Inductive bgworker_main := Main_pgstrom_opencl_main.

Record BackgroundWorker := {
  bgw_name : string;
  bgw_flags : Z;
  bgw_start_time : BgWorkerStartTime;
  bgw_restart_time : Z;
  bgw_main : option bgworker_main;        (* None is the NULL pointer *)
  bgw_main_arg : Z
}.

Definition BGWORKER_SHMEM_ACCESS : Z := 1.
Definition BGW_NEVER_RESTART : Z := -1.

Inductive call :=
| DefineCustomIntVariable (name : string) (variable : guc_int)
| RegisterBackgroundWorker (worker : BackgroundWorker)
| RequestAddinShmemSpace (size : Z)
| CallHook (h : hook)
| ShmemInitStruct (name : string) (size : Z) (found : bool)
| AssertFailed
| Memset (address byte size : Z)
| SpinLockInit (address : Z).

(** The variables of the postmaster the two functions read and write:
    PostgreSQL's [shmem_startup_hook], and the statics of lines 36-39. *)
Record postmaster := {
  shmem_startup_hook : option hook;
  shmem_startup_hook_next : option hook;
  opencl_serv_shm_values : option Z
}.

(** The size of the structure [opencl_serv_shm_values] points to: a
    struct of one [slock_t], which is an [unsigned char] with gcc on
    x86-64. *)
Definition sizeof_shm_values : Z := 1.

(** Lines 349-365.  [shmem] is what [ShmemInitStruct] answers when it
    returns: the address of the structure, and whether it existed
    already (it raises an error itself when the segment is full).  The
    result tells whether the function returned ([false]: an [Assert]
    stopped it). *)
Definition pgstrom_startup_opencl_server (assert_checking : bool)
    (shmem : Z * bool) (st : postmaster) : postmaster * list call * bool :=
  let chained :=
    match shmem_startup_hook_next st with
    | Some next => [CallHook next]
    | None => []
    end in
  let '(address, found) := shmem in
  let st := {| shmem_startup_hook := shmem_startup_hook st;
               shmem_startup_hook_next := shmem_startup_hook_next st;
               opencl_serv_shm_values := Some address |} in
  let init :=
    [ShmemInitStruct "opencl_serv_shm_values" (MAXALIGN sizeof_shm_values) found] in
  if assert_checking && found
  then (st, chained ++ init ++ [AssertFailed], false)
  else (st, chained ++ init ++
            [Memset address 0 sizeof_shm_values; SpinLockInit address], true).

(** Lines 367-399.  The custom variable is the one of lines 373-382. *)
Definition opencl_num_threads_variable : guc_int := pgstrom_init_opencl_server.

Definition pgstrom_init_opencl_server (st : postmaster) : postmaster * list call :=
  let worker :=
    {| bgw_name := "PG-Strom OpenCL Server";
       bgw_flags := BGWORKER_SHMEM_ACCESS;
       bgw_start_time := BgWorkerStart_PostmasterStart;
       bgw_restart_time := BGW_NEVER_RESTART;
       bgw_main := Some Main_pgstrom_opencl_main;
       bgw_main_arg := 0 |} in
  ({| shmem_startup_hook := Some Hook_pgstrom_startup_opencl_server;
      shmem_startup_hook_next := shmem_startup_hook st;
      opencl_serv_shm_values := opencl_serv_shm_values st |},
   [DefineCustomIntVariable "pgstrom.opencl_num_threads" opencl_num_threads_variable;
    RegisterBackgroundWorker worker;
    RequestAddinShmemSpace (MAXALIGN sizeof_shm_values)]).

(** PostgreSQL calls the hook that is installed, once the segment is
    created ([if (shmem_startup_hook) shmem_startup_hook();]).  What a
    hook of another module does is not this file's business: its call
    is the event. *)
Definition call_shmem_startup_hook (assert_checking : bool) (shmem : Z * bool)
    (st : postmaster) : postmaster * list call * bool :=
  match shmem_startup_hook st with
  | Some Hook_pgstrom_startup_opencl_server =>
      pgstrom_startup_opencl_server assert_checking shmem st
  | Some (Hook_other id) => (st, [CallHook (Hook_other id)], true)
  | None => (st, [], true)
  end.

End Postmaster.

(** ** Vocabulary of the properties *)

(** What a trace holds of one kind of call. *)
Definition command_queues (t : list event) : list (Z * bool) :=
  omap (fun e => match e with
                 | EvCreateCommandQueue i ok => Some (i, ok)
                 | _ => None
                 end) t.

Definition creations (t : list event) : list (Z * bool) :=
  omap (fun e => match e with
                 | EvPthreadCreate i ok => Some (i, ok)
                 | _ => None
                 end) t.

Definition joins (t : list event) : list Z :=
  omap (fun e => match e with EvPthreadJoin i => Some i | _ => None end) t.

Definition flag_writes (t : list event) : list bool :=
  omap (fun e => match e with EvWriteExitPending v => Some v | _ => None end) t.

(** The events the start-up code of lines 107-186 can leave. *)
Definition is_init_event (e : event) : bool :=
  match e with
  | EvCreateContext _ _ | EvCreateCommandQueue _ _ | EvSetupShmem _
  | EvCreateBuffer _ _ _ | EvElog _ _ => true
  | _ => false
  end.

(** The format of the error of line 176. *)
Definition cmdq_failed : string := "clCreateCommandQueue failed: %s".


(** The creations of command queues (left) and of threads (right), in
    the order they were made. *)
Definition startup_order (t : list event) : list (Z * bool + Z * bool) :=
  omap (fun e => match e with
                 | EvCreateCommandQueue i ok => Some (inl (i, ok))
                 | EvPthreadCreate i ok => Some (inr (i, ok))
                 | _ => None
                 end) t.

(** How the routine reports the failures the design names: as log
    lines.  [WorkerStartupFailed] is the line of line 249,
    [DeviceInitError] the error of line 176. *)
Definition WorkerStartupFailed : event :=
  EvElog LOG "failed to create server threads".

Definition DeviceInitError : event := EvElog ERROR cmdq_failed.

(** The least [dev_max_mem_alloc_size] of the registry, capped by LONG_MAX. *)
Definition min_alloc_size (devs : list pgstrom_device_info) : Z :=
  fold_right Z.min LONG_MAX (map dev_max_mem_alloc_size devs).

Definition all_exited (ts : list worker_pc) : Prop :=
  forall k w, ts !! k = Some w -> w = W_exited.

(** The threads [threads[k]] with [i <= k] have returned. *)
Definition exited_from (i : Z) (ts : list worker_pc) : Prop :=
  forall k w, i <= Z.of_nat k -> ts !! k = Some w -> w = W_exited.

(** *** The loop of the worker as the design describes it

    Each iteration finds the shutdown flag unset, passes the interrupt
    check of the back end and dequeues; it ends there when no message
    came, and otherwise calls the callback of the message it got, on
    that message. *)
Inductive loop_iterations : list event -> Prop :=
| loop_not_entered : loop_iterations []
| loop_no_message its :
    loop_iterations its ->
    loop_iterations
      (its ++ [EvReadExitPending false; EvCheckForInterrupts; EvDequeue None])
| loop_message its msg :
    loop_iterations its ->
    loop_iterations
      (its ++ [EvReadExitPending false; EvCheckForInterrupts;
               EvDequeue (Some msg); EvCallback (cb_process msg) msg]).

(** What a worker at program point [w] has done of the iteration it is
    in; a worker that returned has read the flag set. *)
Definition pending (w : worker_pc) : list event :=
  match w with
  | W_test => []
  | W_check => [EvReadExitPending false]
  | W_dequeue => [EvReadExitPending false; EvCheckForInterrupts]
  | W_call msg =>
      [EvReadExitPending false; EvCheckForInterrupts; EvDequeue (Some msg)]
  | W_exited => [EvReadExitPending true]
  end.

(** What worker [k] has done so far: whole iterations of the loop, then
    the part of the current one its program point stands for.  A thread
    not yet created has done nothing. *)
Definition worker_inv (s : system) : Prop :=
  forall k,
    match threads s !! k with
    | Some w => exists its, loop_iterations its /\ worker_trace k s = its ++ pending w
    | None => worker_trace k s = []
    end.

(** *** The trace of the main routine, by program point *)

Section MainTrace.
Variable env : environment.

Definition init_ok : Prop := snd (init_opencl_context_and_shmem env) = Ok tt.

(** [opencl_num_threads] after lines 223-224. *)
Definition resolved_num_threads : Z :=
  if configured_num_threads env =? 0
  then wrap_int (sysconf_nprocessors_onln env)
  else configured_num_threads env.

Definition resolve_events : list event :=
  if configured_num_threads env =? 0
  then [EvSysconf (sysconf_nprocessors_onln env)]
  else [].

Definition malloc_size : Z :=
  wrap_size_t (sizeof_pthread_t * wrap_size_t resolved_num_threads).

Definition spawn_events (c : Z) : list event :=
  map (fun k => EvPthreadCreate k true) (seqZ 0 c).

(** The joins of threads [c - 1] down to [i]. *)
Definition join_events (c i : Z) : list event :=
  map EvPthreadJoin (reverse (seqZ i (c - i))).

Definition failed_events (c : Z) : list event :=
  if c <? resolved_num_threads then [EvPthreadCreate c false] else [].

Definition announce_events (c : Z) : list event :=
  if c <? resolved_num_threads
  then [EvElog LOG "failed to create server threads";
        EvWriteExitPending true; EvCancelServerLoop]
  else [EvElog LOG "PG-Strom: %d of server threads are up"].

Definition at_init : list event :=
  [EvSetIAmClserv; EvPqsignal SIGHUP; EvPqsignal SIGTERM;
   EvSetImmediateInterruptOK; EvUnblockSignals].

Definition at_init_error : list event :=
  at_init ++ fst (init_opencl_context_and_shmem env).

Definition at_resolve : list event :=
  at_init_error ++ [EvElog LOG "Starting PG-Strom OpenCL Server"].

Definition at_malloc : list event := at_resolve ++ resolve_events.

Definition at_assert_failure : list event := at_malloc ++ [EvAssertFailed].

Definition at_out_of_memory : list event :=
  at_malloc ++ [EvMalloc malloc_size false; EvElog LOG "out of memory"].

Definition at_spawn (c : Z) : list event :=
  (at_malloc ++ [EvMalloc malloc_size true]) ++ spawn_events c.

Definition at_spawned (c : Z) : list event := at_spawn c ++ failed_events c.

Definition at_join (c i : Z) : list event :=
  (at_spawned c ++ announce_events c) ++ join_events c i.

Definition at_close (c : Z) : list event :=
  at_join c 0 ++ [EvElog LOG "Stopping PG-Strom OpenCL Server"].

Definition at_return (c : Z) : list event := at_close c ++ [EvCloseServerQueue].

(** The trace of a start-up in which the creation of thread [i] fails,
    from the first event to the return of the routine. *)
Definition failed_startup_trace (i : Z) : list event :=
  at_spawn i ++
  [EvPthreadCreate i false;
   WorkerStartupFailed;
   EvWriteExitPending true;
   EvCancelServerLoop] ++
  join_events i 0 ++
  [EvElog LOG "Stopping PG-Strom OpenCL Server"; EvCloseServerQueue].

(** What holds of the process once the threads are being started:
    start-up went through, [c] threads were created, and creation
    stopped short of [opencl_num_threads] only on a failure. *)
Definition started (s : system) : Prop :=
  init_ok /\
  opencl_num_threads s = resolved_num_threads /\
  (assert_checking env = true -> 0 < resolved_num_threads) /\
  malloc_ok env malloc_size = true /\
  let c := Z.of_nat (length (threads s)) in
  (forall k, 0 <= k < c -> pthread_create_ok env k = true) /\
  (c <= resolved_num_threads \/ c = 0).

Definition spawn_over (s : system) : Prop :=
  started s /\
  let c := Z.of_nat (length (threads s)) in
  (c < resolved_num_threads -> pthread_create_ok env c = false).

Definition shutdown_requested (s : system) : Prop :=
  Z.of_nat (length (threads s)) < resolved_num_threads ->
  pgstrom_clserv_exit_pending s = true.

(** The invariant of the main routine: at each program point, the
    trace it has left and the state of its threads. *)
Definition main_inv (s : system) : Prop :=
  let c := Z.of_nat (length (threads s)) in
  match pc s with
  | PC_start =>
      threads s = [] /\ opencl_num_threads s = configured_num_threads env /\
      main_trace s = []
  | PC_init =>
      threads s = [] /\ opencl_num_threads s = configured_num_threads env /\
      main_trace s = at_init
  | PC_resolve =>
      threads s = [] /\ opencl_num_threads s = configured_num_threads env /\
      init_ok /\ main_trace s = at_resolve
  | PC_malloc =>
      threads s = [] /\ opencl_num_threads s = resolved_num_threads /\
      (assert_checking env = true -> 0 < resolved_num_threads) /\
      init_ok /\ main_trace s = at_malloc
  | PC_spawn i =>
      i = c /\ started s /\ main_trace s = at_spawn c
  | PC_spawned i =>
      i = c /\ spawn_over s /\ main_trace s = at_spawned c
  | PC_fail_flag i =>
      i = c /\ spawn_over s /\ c < resolved_num_threads /\
      main_trace s =
        at_spawned c ++ [EvElog LOG "failed to create server threads"]
  | PC_fail_cancel i =>
      i = c /\ spawn_over s /\ c < resolved_num_threads /\
      pgstrom_clserv_exit_pending s = true /\
      main_trace s =
        at_spawned c ++ [EvElog LOG "failed to create server threads";
                         EvWriteExitPending true]
  | PC_join i =>
      0 <= i <= c /\ spawn_over s /\ shutdown_requested s /\
      exited_from i (threads s) /\ main_trace s = at_join c i
  | PC_joining i =>
      0 <= i < c /\ spawn_over s /\ shutdown_requested s /\
      exited_from (i + 1) (threads s) /\ main_trace s = at_join c (i + 1)
  | PC_stopping =>
      spawn_over s /\ shutdown_requested s /\
      exited_from 0 (threads s) /\ main_trace s = at_join c 0
  | PC_close =>
      spawn_over s /\ shutdown_requested s /\
      exited_from 0 (threads s) /\ main_trace s = at_close c
  | PC_returned =>
      (spawn_over s /\ shutdown_requested s /\
       exited_from 0 (threads s) /\ main_trace s = at_return c) \/
      (threads s = [] /\ opencl_num_threads s = resolved_num_threads /\
       init_ok /\ (assert_checking env = true -> 0 < resolved_num_threads) /\
       malloc_ok env malloc_size = false /\
       main_trace s = at_out_of_memory)
  | PC_aborted =>
      threads s = [] /\
      ((~ init_ok /\ main_trace s = at_init_error) \/
       (init_ok /\ assert_checking env = true /\ resolved_num_threads <= 0 /\
        main_trace s = at_assert_failure))
  end.

End MainTrace.

(** ** Sample runs

    Two devices and two configured threads; every call succeeds unless
    the run says otherwise. *)

Definition sample_env : environment :=
  {| opencl_device_info :=
       [ {| dev_max_mem_alloc_size := 1073741824 |};
         {| dev_max_mem_alloc_size := 536870912 |} ];
     configured_num_threads := 2;
     assert_checking := true;
     clCreateContext_ok := true;
     clCreateCommandQueue_ok := fun _ => true;
     shmem_zones := fun z => [(4096, z)];
     clCreateBuffer_ok := fun _ => true;
     sysconf_nprocessors_onln := 4;
     malloc_ok := fun _ => true;
     pthread_create_ok := fun _ => true |}.

Definition sample_message : pgstrom_message := {| msg_ptr := 4660; cb_process := 22136 |}.

(** Start-up, some work, a SIGTERM, and the shutdown to the end. *)
Definition sample_schedule : list action :=
  [ActMain; ActMain; ActMain; ActMain; ActMain;
   ActWorker 0 None; ActMain; ActMain; ActMain; ActMain;
   ActWorker 0 None; ActWorker 0 (Some sample_message); ActWorker 0 None;
   ActWorker 1 None; ActWorker 1 None; ActWorker 1 None;
   ActSignal SIGTERM; ActHandler 0; ActHandler 0;
   ActWorker 1 None; ActMain; ActWorker 0 None; ActMain; ActMain;
   ActHandler 0; ActMain; ActMain; ActMain].

(** The creation of the second of three threads fails. *)
Definition sample_env_thread_failure : environment :=
  {| opencl_device_info := opencl_device_info sample_env;
     configured_num_threads := 3;
     assert_checking := true;
     clCreateContext_ok := true;
     clCreateCommandQueue_ok := fun _ => true;
     shmem_zones := shmem_zones sample_env;
     clCreateBuffer_ok := fun _ => true;
     sysconf_nprocessors_onln := 4;
     malloc_ok := fun _ => true;
     pthread_create_ok := fun i => i <? 1 |}.

Definition sample_schedule_thread_failure : list action :=
  [ActMain; ActMain; ActMain; ActMain; ActMain;
   ActWorker 0 None; ActWorker 0 None; ActWorker 0 (Some sample_message);
   ActMain; ActMain; ActMain; ActMain; ActMain;
   ActWorker 0 None; ActWorker 0 None;
   ActMain; ActMain; ActMain; ActMain].

(** The allocation of the thread handles fails. *)
Definition sample_env_out_of_memory : environment :=
  {| opencl_device_info := opencl_device_info sample_env;
     configured_num_threads := 2;
     assert_checking := true;
     clCreateContext_ok := true;
     clCreateCommandQueue_ok := fun _ => true;
     shmem_zones := shmem_zones sample_env;
     clCreateBuffer_ok := fun _ => true;
     sysconf_nprocessors_onln := 4;
     malloc_ok := fun _ => false;
     pthread_create_ok := fun _ => true |}.

(** No thread count is configured, [sysconf] fails with -1, and the
    build is one without assertion checking. *)
Definition sample_env_no_processors : environment :=
  {| opencl_device_info := opencl_device_info sample_env;
     configured_num_threads := 0;
     assert_checking := false;
     clCreateContext_ok := true;
     clCreateCommandQueue_ok := fun _ => true;
     shmem_zones := shmem_zones sample_env;
     clCreateBuffer_ok := fun _ => true;
     sysconf_nprocessors_onln := -1;
     malloc_ok := fun size => size <? 2 ^ 47;
     pthread_create_ok := fun _ => true |}.

(** The second command queue cannot be created. *)
Definition sample_env_queue_failure : environment :=
  {| opencl_device_info := opencl_device_info sample_env;
     configured_num_threads := 2;
     assert_checking := true;
     clCreateContext_ok := true;
     clCreateCommandQueue_ok := fun i => i <? 1;
     shmem_zones := shmem_zones sample_env;
     clCreateBuffer_ok := fun _ => true;
     sysconf_nprocessors_onln := 4;
     malloc_ok := fun _ => true;
     pthread_create_ok := fun _ => true |}.

(** The states the sample runs end in. *)
Definition run_to_end (env : environment) (sched : list action) : system :=
  default (initial env) (sys_run env (initial env) sched).

Definition sample_final : system :=
  Eval vm_compute in run_to_end sample_env sample_schedule.

Definition sample_final_thread_failure : system :=
  Eval vm_compute in
    run_to_end sample_env_thread_failure sample_schedule_thread_failure.

Definition sample_final_out_of_memory : system :=
  Eval vm_compute in
    run_to_end sample_env_out_of_memory [ActMain; ActMain; ActMain; ActMain].

Definition sample_final_queue_failure : system :=
  Eval vm_compute in run_to_end sample_env_queue_failure [ActMain; ActMain].

Definition sample_final_no_processors : system :=
  Eval vm_compute in
    run_to_end sample_env_no_processors [ActMain; ActMain; ActMain; ActMain].

(** A call of the log writer with output redirected to the syslogger
    pipe, an array full of question marks on entry, and a message of
    8192 characters. *)
Definition sample_log_settings : log_settings :=
  {| verbose := false; to_stderr := true; redirection_done := true;
     am_syslogger := false; MyProcPid := 4242 |}.

Definition sample_garbage : list ascii := repeat "?"%char (Z.to_nat 8192).

Definition sample_long_body : string :=
  string_of_list_ascii (repeat "x"%char (Z.to_nat 8192)).

(** ** Vocabulary of the start-up code *)

(** The buffers the zone callback asked OpenCL for, in order. *)
Definition buffers (t : list event) : list (Z * Z * bool) :=
  omap (fun e => match e with
                 | EvCreateBuffer address length ok => Some (address, length, ok)
                 | _ => None
                 end) t.

(** The formats of the errors of lines 160 and 120. *)
Definition context_failed : string := "clCreateContext failed: %s".

Definition buffer_failed : string :=
  "clCreateBuffer failed on host memory (%p-%p): %s".

(** What [on_shmem_zone_callback] leaves for a zone it has mapped. *)
Definition zone_mapped (zone : Z * Z) : list event :=
  [EvCreateBuffer (fst zone) (snd zone) true;
   EvElog LOG "PG-Strom: zone %p-%p was mapped (len: %luMB)"].

Definition zone_ok (env : environment) (zone : Z * Z) : Prop :=
  clCreateBuffer_ok env (fst zone) = true.

(** The shared memory segment is cut into two zones, and OpenCL
    refuses to map the second. *)
Definition sample_env_zone_failure : environment :=
  {| opencl_device_info := opencl_device_info sample_env;
     configured_num_threads := 2;
     assert_checking := true;
     clCreateContext_ok := true;
     clCreateCommandQueue_ok := fun _ => true;
     shmem_zones := fun z => [(4096, z); (4096 + z, z)];
     clCreateBuffer_ok := fun address => address <? 8192;
     sysconf_nprocessors_onln := 4;
     malloc_ok := fun _ => true;
     pthread_create_ok := fun _ => true |}.

(** ** Vocabulary of the log writer *)

(** What the array holds once [written] has been printed into it from
    its start: the first 8191 characters, a NUL, and behind the NUL what
    was there before. *)
Definition printed (garbage written : list ascii) : list ascii :=
  let kept := take (Z.to_nat (BUFSIZE - 1)) written in
  kept ++ zero :: drop (S (length kept)) garbage.

(** The whole line: prefix, body and newline. *)
Definition log_line (verbose : bool) (funcname filename : string)
    (lineno : Z) (body : string) : list ascii :=
  list_ascii_of_string (log_prefix verbose funcname filename lineno) ++
  list_ascii_of_string body ++ [ascii_of_nat 10].

(** The sizes of the payloads of a list of frames. *)
Definition payload_sizes (chunks : list PipeProtoChunk) : list Z :=
  map (fun c => Z.of_nat (length (proto_data c))) chunks.

(** A call as the SIGHUP handler makes it, with the log going to the
    terminal. *)
Definition sample_terminal_settings : log_settings :=
  {| verbose := true; to_stderr := true; redirection_done := false;
     am_syslogger := false; MyProcPid := 4242 |}.

(** A C string holds no NUL before its end. *)
Definition no_nul (l : list ascii) : bool :=
  forallb (fun c => negb (Ascii.eqb c zero)) l.

(** ** Vocabulary of the worker loop *)

(** The messages a worker got from its calls of the queue, and the
    callbacks it called, as its trace has them. *)
Definition dequeued (t : list event) : list pgstrom_message :=
  omap (fun e => match e with EvDequeue (Some msg) => Some msg | _ => None end) t.

Definition processed (t : list event) : list (Z * pgstrom_message) :=
  omap (fun e => match e with EvCallback fn msg => Some (fn, msg) | _ => None end) t.

(** The calls of [pgstrom_dequeue_server_message]. *)
Definition dequeue_calls (t : list event) : list (option pgstrom_message) :=
  omap (fun e => match e with EvDequeue deq => Some deq | _ => None end) t.

(** What the queue gives worker [k] in one step of the process: the
    answer [deq] of the step, when the step is one of worker [k] and the
    worker is at its call of [pgstrom_dequeue_server_message].  At the
    other program points the worker asks the queue nothing. *)
Definition answer_to (k : nat) (s : system) (a : action)
    : list (option pgstrom_message) :=
  match a with
  | ActWorker k' deq =>
      match threads s !! k with
      | Some W_dequeue => if Nat.eqb k' k then [deq] else []
      | _ => []
      end
  | _ => []
  end.

(** What the queue has handed to worker [k] along a schedule run from
    [s], in order; [None] is a call that returned no message. *)
Fixpoint handed_out (env : environment) (k : nat) (s : system)
    (sched : list action) : list (option pgstrom_message) :=
  match sched with
  | [] => []
  | a :: rest =>
      match sys_step env s a with
      | Some s' => answer_to k s a ++ handed_out env k s' rest
      | None => []
      end
  end.

(** The messages among the answers of the queue. *)
Definition messages (answers : list (option pgstrom_message))
    : list pgstrom_message :=
  omap id answers.

(** What a worker can still do once the flag is set: the steps it can
    take, the calls of the queue it can make and the callbacks it can
    call before it returns.  [None] is a thread not yet created. *)
Definition steps_left (w : option worker_pc) : nat :=
  match w with
  | Some W_check => 4
  | Some W_dequeue => 3
  | Some (W_call _) => 2
  | Some W_test => 1
  | Some W_exited => 0
  | None => 1
  end.

Definition dequeues_left (w : option worker_pc) : nat :=
  match w with
  | Some W_check | Some W_dequeue => 1
  | _ => 0
  end.

Definition callbacks_left (w : option worker_pc) : nat :=
  match w with
  | Some W_check | Some W_dequeue | Some (W_call _) => 1
  | _ => 0
  end.

(** The sample run at the point where the handler of SIGTERM has set
    the flag. *)
Definition sample_flag_set : system :=
  Eval vm_compute in run_to_end sample_env (take 18 sample_schedule).

(** The sample run while the server is up and no signal has come. *)
Definition sample_running : system :=
  Eval vm_compute in run_to_end sample_env (take 16 sample_schedule).

(** The line of line 254, and the occurrences of a log line in a trace. *)
Definition ThreadsUp : event :=
  EvElog LOG "PG-Strom: %d of server threads are up".

Definition is_log (fmt : string) (e : event) : option unit :=
  match e with
  | EvElog LOG f => if String.eqb f fmt then Some tt else None
  | _ => None
  end.

(** ** A bound on what is left of the main routine

    The steps the main routine can still take from a program point,
    when [N] threads are to be created. *)
Definition main_steps_left (N : Z) (p : main_pc) : Z :=
  match p with
  | PC_start => 3 * N + 11
  | PC_init => 3 * N + 10
  | PC_resolve => 3 * N + 9
  | PC_malloc => 3 * N + 8
  | PC_spawn i => 3 * N + 7 - Z.max 0 i
  | PC_spawned i => 2 * Z.max 0 i + 6
  | PC_fail_flag i => 2 * Z.max 0 i + 5
  | PC_fail_cancel i => 2 * Z.max 0 i + 4
  | PC_join i => 2 * Z.max 0 i + 3
  | PC_joining i => 2 * Z.max 0 i + 4
  | PC_stopping => 2
  | PC_close => 1
  | PC_returned => 0
  | PC_aborted => 0
  end.

(** The steps of the main routine in a schedule. *)
Fixpoint main_steps (sched : list action) : nat :=
  match sched with
  | [] => 0
  | ActMain :: rest => S (main_steps rest)
  | _ :: rest => main_steps rest
  end.

(** A step the process takes by itself: one of the main routine, or one
    of a worker to which the queue, if asked, hands nothing.  No signal
    is delivered and no handler runs. *)
Definition own_step (a : action) : bool :=
  match a with
  | ActMain | ActWorker _ None => true
  | _ => false
  end.

(** No thread count is configured and [sysconf] reports no processor,
    in a build with assertion checking. *)
Definition sample_env_assert : environment :=
  {| opencl_device_info := opencl_device_info sample_env;
     configured_num_threads := 0;
     assert_checking := true;
     clCreateContext_ok := true;
     clCreateCommandQueue_ok := fun _ => true;
     shmem_zones := shmem_zones sample_env;
     clCreateBuffer_ok := fun _ => true;
     sysconf_nprocessors_onln := 0;
     malloc_ok := fun _ => true;
     pthread_create_ok := fun _ => true |}.

Definition sample_final_assert : system :=
  Eval vm_compute in run_to_end sample_env_assert [ActMain; ActMain; ActMain].
(* ================================================================== *)
(** * Part II: properties *)
(* ================================================================== *)

(** ** C integers *)

Lemma wrap_int_range z : in_int (wrap_int z).
Proof.
  unfold in_int, wrap_int, INT_MIN, INT_MAX.
  pose proof (Z.mod_pos_bound (z + 2 ^ 31) (2 ^ 32)). lia.
Qed.

Lemma wrap_int_id z : in_int z -> wrap_int z = z.
Proof.
  unfold in_int, wrap_int, INT_MIN, INT_MAX. intros H.
  rewrite Z.mod_small; lia.
Qed.

Lemma wrap_int_succ z : wrap_int (wrap_int z + 1) = wrap_int (z + 1).
Proof.
  unfold wrap_int.
  replace ((z + 2 ^ 31) mod 2 ^ 32 - 2 ^ 31 + 1 + 2 ^ 31)
    with ((z + 2 ^ 31) mod 2 ^ 32 + 1) by lia.
  replace (z + 1 + 2 ^ 31) with ((z + 2 ^ 31) + 1) by lia.
  rewrite Zplus_mod_idemp_l. reflexivity.
Qed.

(** ** The device scheduler *)

Lemma index_after_closed ty C k : index_after ty C k = wrap_int (Z.of_N k).
Proof.
  unfold index_after. induction k as [|k IH] using N.peano_ind.
  - reflexivity.
  - rewrite N.iter_succ, IH. cbn [pgstrom_opencl_device_schedule snd].
    rewrite wrap_int_succ. f_equal. lia.
Qed.

Lemma nth_call_closed ty C k :
  nth_call ty C k = c_mod ty (wrap_int (Z.of_N k)) C.
Proof. unfold nth_call. rewrite index_after_closed. reflexivity. Qed.

Lemma c_mod_small ty C z :
  1 <= C <= INT_MAX -> 0 <= z <= INT_MAX -> c_mod ty z C = z mod C.
Proof.
  unfold INT_MAX. intros HC Hz. destruct ty; cbn [c_mod].
  - apply Z.rem_mod_nonneg; lia.
  - unfold wrap_uint. rewrite (Z.mod_small z) by lia.
    apply wrap_int_id. unfold in_int, INT_MIN, INT_MAX.
    pose proof (Z.mod_pos_bound z C). lia.
Qed.

(** Until the counter reaches INT_MAX the policy is round robin: call
    number [k] returns [k mod C], an index of a device. *)
Lemma nth_call_round_robin ty C k :
  1 <= C <= INT_MAX -> Z.of_N k <= INT_MAX ->
  nth_call ty C k = Z.of_N k mod C /\ 0 <= nth_call ty C k < C.
Proof.
  intros HC Hk. rewrite nth_call_closed.
  rewrite wrap_int_id by (unfold in_int, INT_MIN, INT_MAX in *; lia).
  rewrite c_mod_small by (unfold INT_MAX in *; lia).
  split; [reflexivity | apply Z.mod_pos_bound; lia].
Qed.

(** With an unsigned device count every call returns an index of a
    device, whatever the counter holds. *)
Lemma nth_call_unsigned_in_range C k :
  1 <= C <= INT_MAX -> 0 <= nth_call CountUnsigned C k < C.
Proof.
  intros HC. rewrite nth_call_closed. cbn [c_mod].
  pose proof (Z.mod_pos_bound (wrap_uint (wrap_int (Z.of_N k))) C).
  rewrite wrap_int_id; [lia|]. unfold in_int, INT_MIN, INT_MAX in *. lia.
Qed.

(** Running the calls one by one gives the same results as [nth_call]. *)
Lemma schedule_run_nth_error ty C k index j :
  (j < k)%nat ->
  nth_error (schedule_run ty C k index) j =
  Some (fst (pgstrom_opencl_device_schedule ty C
    (Nat.iter j (fun i => snd (pgstrom_opencl_device_schedule ty C i)) index))).
Proof.
  revert index j. induction k as [|k IH]; intros index j Hj; [lia|].
  cbn [schedule_run pgstrom_opencl_device_schedule].
  destruct j as [|j]; [reflexivity|].
  cbn [nth_error]. rewrite IH by lia. rewrite Nat.iter_succ_r. reflexivity.
Qed.

Lemma schedule_run_nth_call ty C k j :
  (j < k)%nat ->
  nth_error (schedule_run ty C k 0) j = Some (nth_call ty C (N.of_nat j)).
Proof.
  intros Hj. rewrite schedule_run_nth_error by exact Hj.
  unfold nth_call, index_after. do 2 f_equal.
  rewrite Nnat.N2Nat.inj_iter, Nnat.Nat2N.id. reflexivity.
Qed.

Example schedule_run_3_devices ty :
  schedule_run ty 3 7 0 = [0; 1; 2; 0; 1; 2; 0].
Proof. destruct ty; reflexivity. Qed.

(** C2 (code defect): the counter is a signed [int] and wraps after
    2^31 calls.  With three devices and a signed device count, call
    number 2^31 returns -2, which is not an index of a device; with an
    unsigned count the calls numbered 2^32 - 1 and 2^32 both return 0, so
    the rotation 0, 1, 2, 0, ... is broken there. *)
Theorem device_schedule_after_wrap :
  nth_call CountSigned 3 (2 ^ 31) = -2 /\
  nth_call CountSigned 3 (2 ^ 31 - 1) = 1 /\
  nth_call CountUnsigned 3 (2 ^ 32 - 1) = 0 /\
  nth_call CountUnsigned 3 (2 ^ 32) = 0.
Proof. rewrite !nth_call_closed. vm_compute. repeat split. Qed.

(** ** Lists of events *)

Section Projections.
Context {A B C : Type}.

Lemma omap_map (f : B -> option C) (g : A -> B) l :
  omap f (map g l) = omap (fun x => f (g x)) l.
Proof. induction l as [|x l IH]; cbn; [done|]. by rewrite IH. Qed.

Lemma omap_all_Some (g : A -> B) l : omap (fun x => Some (g x)) l = map g l.
Proof. induction l as [|x l IH]; cbn; [done|]. by rewrite IH. Qed.

Lemma omap_all_None (l : list A) : omap (fun _ => @None B) l = [].
Proof. by induction l. Qed.

Lemma omap_silent (f : A -> option B) l :
  Forall (fun e => f e = None) l -> omap f l = [].
Proof. induction 1 as [|e l He _ IH]; cbn; [done|]. by rewrite He. Qed.

Lemma omap_if (f : A -> option B) (b : bool) (l1 l2 : list A) :
  omap f (if b then l1 else l2) = if b then omap f l1 else omap f l2.
Proof. by destruct b. Qed.

Lemma if_same (b : bool) (x : A) : (if b then x else x) = x.
Proof. by destruct b. Qed.

Lemma In_omap (f : A -> option B) e x (t : list A) :
  In e t -> f e = Some x -> In x (omap f t).
Proof.
  intros He Hf. apply list_elem_of_In, list_elem_of_omap.
  exists e. split; [by apply list_elem_of_In|done].
Qed.

End Projections.

(** ** Start-up: the command queues and the zone length *)

Section InitFacts.
Variable env : environment.

Lemma bind_Ok {A B} (f : A -> M B) (m : M A) t a :
  m = (t, Ok a) -> m ≫= f = (t ++ fst (f a), snd (f a)).
Proof. intros ->. unfold mbind, M_bind. by destruct (f a). Qed.

Lemma bind_Raised {A B} (f : A -> M B) (m : M A) t e :
  m = (t, Raised e) -> m ≫= f = (t, Raised e).
Proof. by intros ->. Qed.

(** The step of the loop on the zone length is [Z.min]. *)
Lemma zone_step z d : (if z >? d then d else z) = Z.min z d.
Proof. destruct (Z.gtb_spec z d); lia. Qed.

Lemma fold_min_swap l z d :
  fold_right Z.min (Z.min z d) l = Z.min d (fold_right Z.min z l).
Proof. induction l as [|x l IH]; simpl; [lia|]. rewrite IH. lia. Qed.

Lemma fold_min_le l z : fold_right Z.min z l <= z.
Proof. induction l as [|x l IH]; simpl; lia. Qed.

Lemma fold_min_le_elem l z x : In x l -> fold_right Z.min z l <= x.
Proof.
  induction l as [|y l IH]; simpl; [done|].
  intros [->|H]; [lia|]. specialize (IH H). lia.
Qed.

(** The loop of lines 165-181, whichever way it ends. *)
Lemma create_command_queues_spec devs : forall i z,
  let n := Z.of_nat (length devs) in
  match create_command_queues env i devs z with
  | (t, Ok z') =>
      (forall j, i <= j < i + n -> clCreateCommandQueue_ok env j = true) /\
      t = map (fun j => EvCreateCommandQueue j true) (seqZ i n) /\
      z' = fold_right Z.min z (map dev_max_mem_alloc_size devs)
  | (t, Raised fmt) =>
      exists j, i <= j < i + n /\
        (forall j', i <= j' < j -> clCreateCommandQueue_ok env j' = true) /\
        clCreateCommandQueue_ok env j = false /\
        t = map (fun j => EvCreateCommandQueue j true) (seqZ i (j - i))
            ++ [EvCreateCommandQueue j false; EvElog ERROR cmdq_failed] /\
        fmt = cmdq_failed
  end.
Proof.
  induction devs as [|d devs IH]; intros i z n.
  - subst n. simpl. split; [intros j Hj; lia|done].
  - cbn [create_command_queues].
    destruct (clCreateCommandQueue_ok env i) eqn:Hi.
    + specialize (IH (i + 1) (if z >? dev_max_mem_alloc_size d
                              then dev_max_mem_alloc_size d else z)).
      cbn -[seqZ] in IH |- *.
      destruct (create_command_queues env (i + 1) devs _) as [t [z'|fmt]].
      * destruct IH as (Hall & -> & ->). subst n.
        rewrite length_cons, Nat2Z.inj_succ.
        split; [|split].
        -- intros j Hj. destruct (decide (j = i)) as [->|]; [done|].
           apply Hall. lia.
        -- rewrite (seqZ_cons i) by lia. cbn [map]. do 3 f_equal; lia.
        -- rewrite zone_step. cbn [map fold_right]. apply fold_min_swap.
      * destruct IH as (j & Hj & Hbefore & Hfail & -> & ->). subst n.
        rewrite length_cons, Nat2Z.inj_succ.
        exists j. split; [lia|]. split; [|split; [done|split; [|done]]].
        -- intros j' Hj'. destruct (decide (j' = i)) as [->|]; [done|].
           apply Hbefore. lia.
        -- rewrite (seqZ_cons i) by lia. cbn [map app]. do 4 f_equal; lia.
    + cbn -[seqZ]. subst n. rewrite length_cons, Nat2Z.inj_succ.
      exists i. split; [lia|]. split; [lia|]. split; [done|].
      replace (i - i) with 0 by lia. done.
Qed.

Lemma Forall_init_setup_zones zones :
  Forall (fun e => is_init_event e = true) (fst (setup_zones env zones)).
Proof.
  induction zones as [|[address len] zones IH]; [constructor|].
  cbn [setup_zones]. unfold on_shmem_zone_callback.
  destruct (clCreateBuffer_ok env address); cbn.
  - destruct (setup_zones env zones) as [t r]. cbn in *.
    by repeat constructor.
  - by repeat constructor.
Qed.

Lemma Forall_init_create_command_queues devs : forall i z,
  Forall (fun e => is_init_event e = true)
    (fst (create_command_queues env i devs z)).
Proof.
  intros i z. pose proof (create_command_queues_spec devs i z) as H.
  cbn zeta in H.
  destruct (create_command_queues env i devs z) as [t [z'|fmt]]; cbn.
  - destruct H as (_ & -> & _). apply Forall_forall. intros e He.
    apply in_map_iff in He as (j & <- & _). done.
  - destruct H as (j & _ & _ & _ & -> & _). apply Forall_app. split.
    + apply Forall_forall. intros e He.
      apply in_map_iff in He as (j' & <- & _). done.
    + by repeat constructor.
Qed.

Lemma Forall_init_events :
  Forall (fun e => is_init_event e = true)
    (fst (init_opencl_context_and_shmem env)).
Proof.
  unfold init_opencl_context_and_shmem.
  destruct (clCreateContext_ok env); cbn -[create_command_queues].
  - pose proof (Forall_init_create_command_queues
                  (opencl_device_info env) 0 (wrap_size_t LONG_MAX)) as Hq.
    destruct (create_command_queues env 0 _ _) as [t [z'|fmt]];
      cbn [fst] in Hq; [|by constructor].
    unfold pgstrom_setup_shmem. cbn -[setup_zones].
    pose proof (Forall_init_setup_zones (shmem_zones env z')) as Hz.
    destruct (setup_zones env (shmem_zones env z')) as [t' r']. cbn in *.
    constructor; [done|]. apply Forall_app. split; [done|].
    by repeat constructor.
  - by repeat constructor.
Qed.

Lemma fold_min_attained l z :
  fold_right Z.min z l = z \/ exists x, In x l /\ fold_right Z.min z l = x.
Proof.
  induction l as [|y l IH]; cbn; [by left|].
  destruct (Z.min_spec y (fold_right Z.min z l)) as [[_ ->]|[_ ->]].
  - right. exists y. auto.
  - destruct IH as [->|(x & Hx & ->)]; [by left|]. right. exists x. auto.
Qed.

Lemma setup_zones_no_setup zones z :
  ~ In (EvSetupShmem z) (fst (setup_zones env zones)).
Proof.
  induction zones as [|[address len] zones IH]; [by intros []|].
  cbn [setup_zones]. unfold on_shmem_zone_callback.
  destruct (clCreateBuffer_ok env address); cbn.
  - destruct (setup_zones env zones) as [t r]. cbn in *.
    intros [?|[?|?]]; done.
  - intros [?|[?|?]]; done.
Qed.

(** The three ways the start-up code can go. *)
Lemma init_opencl_cases :
  let n := opencl_num_devices env in
  let queue_ok := fun j => EvCreateCommandQueue j true in
  (clCreateContext_ok env = false /\
   init_opencl_context_and_shmem env =
     ([EvCreateContext n false; EvElog ERROR "clCreateContext failed: %s"],
      Raised "clCreateContext failed: %s")) \/
  (clCreateContext_ok env = true /\
   exists j, 0 <= j < n /\
     (forall j', 0 <= j' < j -> clCreateCommandQueue_ok env j' = true) /\
     clCreateCommandQueue_ok env j = false /\
     init_opencl_context_and_shmem env =
       (EvCreateContext n true :: map queue_ok (seqZ 0 j) ++
          [EvCreateCommandQueue j false; EvElog ERROR cmdq_failed],
        Raised cmdq_failed)) \/
  (clCreateContext_ok env = true /\
   (forall j, 0 <= j < n -> clCreateCommandQueue_ok env j = true) /\
   let z := min_alloc_size (opencl_device_info env) in
   init_opencl_context_and_shmem env =
     (EvCreateContext n true :: map queue_ok (seqZ 0 n) ++
        EvElog LOG "PG-Strom: setting up shared memory (zone length=%zu)" ::
        EvSetupShmem z :: fst (setup_zones env (shmem_zones env z)),
      snd (setup_zones env (shmem_zones env z)))).
Proof.
  intros n queue_ok. unfold init_opencl_context_and_shmem.
  destruct (clCreateContext_ok env); [right|by left].
  pose proof (create_command_queues_spec (opencl_device_info env) 0
                (wrap_size_t LONG_MAX)) as H.
  cbn zeta in H. fold (opencl_num_devices env) in H. fold n in H.
  cbn -[create_command_queues seqZ].
  destruct (create_command_queues env 0 _ _) as [t [z'|fmt]].
  - right. destruct H as (Hall & -> & ->). split; [done|]. split; [exact Hall|].
    change (wrap_size_t LONG_MAX) with LONG_MAX.
    fold (min_alloc_size (opencl_device_info env)).
    unfold pgstrom_setup_shmem. cbn -[seqZ setup_zones].
    destruct (setup_zones env _) as [t' r']. cbn -[seqZ]. done.
  - left. destruct H as (j & Hj & Hbefore & Hfail & -> & ->).
    split; [done|]. exists j. replace (j - 0) with j by lia. done.
Qed.

Lemma omap_setup_zones {B} (f : event -> option B) zones :
  (forall a l ok, f (EvCreateBuffer a l ok) = None) ->
  (forall lvl fmt, f (EvElog lvl fmt) = None) ->
  omap f (fst (setup_zones env zones)) = [].
Proof.
  intros Hb He. induction zones as [|[address len] zones IH]; [done|].
  cbn [setup_zones]. unfold on_shmem_zone_callback.
  destruct (clCreateBuffer_ok env address); cbn.
  - destruct (setup_zones env zones) as [t r]. cbn in *.
    by rewrite Hb, He.
  - by rewrite Hb, He.
Qed.

(** When the start-up code goes through, it has created one command
    queue for each device, in the order of the registry. *)
Lemma init_ok_command_queues :
  init_ok env ->
  command_queues (fst (init_opencl_context_and_shmem env)) =
    map (fun i => (i, true)) (seqZ 0 (opencl_num_devices env)) /\
  startup_order (fst (init_opencl_context_and_shmem env)) =
    map inl (map (fun i => (i, true)) (seqZ 0 (opencl_num_devices env))).
Proof.
  unfold init_ok. intros Hok.
  destruct init_opencl_cases
    as [(_ & Heq)|[(_ & j & _ & _ & _ & Heq)|(_ & _ & Heq)]];
    cbv zeta in Heq; rewrite Heq in Hok |- *; try done.
  cbn [fst]. unfold command_queues, startup_order.
  cbn [omap list_omap]. rewrite !omap_app. cbn [omap list_omap].
  rewrite !omap_setup_zones by done. rewrite !app_nil_r.
  rewrite !omap_map. cbn beta iota.
  rewrite (omap_all_Some (fun j : Z => (j, true))).
  rewrite (omap_all_Some (fun j : Z => @inl (Z * bool) (Z * bool) (j, true))).
  by rewrite map_map.
Qed.

(** When it does not, and a command queue is the reason, the failed
    creation and its error are its last two events. *)
Lemma init_failed_command_queue j :
  In (EvCreateCommandQueue j false) (fst (init_opencl_context_and_shmem env)) ->
  ~ init_ok env /\
  list.last (fst (init_opencl_context_and_shmem env)) = Some DeviceInitError /\
  command_queues (fst (init_opencl_context_and_shmem env)) =
    map (fun i => (i, true)) (seqZ 0 j) ++ [(j, false)].
Proof.
  unfold init_ok. intros Hin.
  destruct init_opencl_cases
    as [(_ & Heq)|[(_ & j0 & _ & _ & _ & Heq)|(_ & _ & Heq)]];
    cbv zeta in Heq; rewrite Heq in Hin |- *; cbn [fst snd] in *.
  - destruct Hin as [?|[?|[]]]; done.
  - destruct Hin as [?|Hin]; [done|].
    apply in_app_iff in Hin as [Hin|[Hin|[?|[]]]]; try done.
    { by apply in_map_iff in Hin as (? & ? & _). }
    injection Hin as ->. split; [done|]. split.
    + change (EvCreateContext ?n true :: ?l ++ ?k) with ((EvCreateContext n true :: l) ++ k).
      by rewrite last_app.
    + unfold command_queues. cbn [omap list_omap]. rewrite omap_app. cbn.
      f_equal. rewrite omap_map. cbn beta iota.
      by rewrite (omap_all_Some (fun j : Z => (j, true))).
  - exfalso. destruct Hin as [?|Hin]; [done|].
    apply in_app_iff in Hin as [Hin|[?|[?|Hin]]]; try done.
    + by apply in_map_iff in Hin as (? & ? & _).
    + eapply (In_omap (fun e => match e with
                                | EvCreateCommandQueue i ok => Some (i, ok)
                                | _ => None
                                end)) in Hin; [|done].
      by rewrite omap_setup_zones in Hin.
Qed.

End InitFacts.

Lemma init_events_silent t :
  Forall (fun e => is_init_event e = true) t ->
  flag_writes t = [] /\ creations t = [] /\ joins t = [] /\
  ~ In EvCloseServerQueue t /\ ~ In EvAssertFailed t.
Proof.
  induction 1 as [|e t He _ IH]; [by repeat split; auto|].
  destruct IH as (Hw & Hc & Hj & Hq & Ha).
  unfold flag_writes, creations, joins in *.
  destruct e; try discriminate He; cbn; rewrite ?Hw, ?Hc, ?Hj;
    (repeat split; [done..| |]); intros [?|?]; done.
Qed.

(** ** The process: histories and frames *)

Lemma events_of_app p t1 t2 :
  events_of p (t1 ++ t2) = events_of p t1 ++ events_of p t2.
Proof.
  induction t1 as [|[a e] t1 IH]; simpl; [done|].
  destruct (p a); simpl; by rewrite IH.
Qed.

Lemma events_of_pair p a evs :
  events_of p (map (pair a) evs) = if p a then evs else [].
Proof.
  induction evs as [|e evs IH]; simpl.
  - by destruct (p a).
  - rewrite IH. by destruct (p a).
Qed.

Section Frames.
Variables (a : actor) (s : system).

Lemma pc_record_event e : pc (record_event a s e) = pc s.
Proof. done. Qed.

Lemma threads_record_event e : threads (record_event a s e) = threads s.
Proof. done. Qed.

Lemma handlers_record_event e : handlers (record_event a s e) = handlers s.
Proof. done. Qed.

Lemma num_threads_record_event e :
  opencl_num_threads (record_event a s e) = opencl_num_threads s.
Proof. done. Qed.

Lemma trace_record_event e : trace (record_event a s e) = trace s ++ [(a, e)].
Proof. unfold trace. simpl. by rewrite reverse_cons. Qed.

End Frames.

Lemma record_events_frame a evs s :
  pc (record_events a evs s) = pc s /\
  threads (record_events a evs s) = threads s /\
  handlers (record_events a evs s) = handlers s /\
  opencl_num_threads (record_events a evs s) = opencl_num_threads s /\
  trace (record_events a evs s) = trace s ++ map (pair a) evs /\
  pgstrom_clserv_exit_pending (record_events a evs s) =
    default (pgstrom_clserv_exit_pending s) (list.last (flag_writes evs)).
Proof.
  revert s. induction evs as [|e evs IH]; intros s.
  - simpl. by rewrite app_nil_r.
  - unfold record_events in *. cbn [fold_left].
    destruct (IH (record_event a s e)) as (-> & -> & -> & -> & -> & ->).
    rewrite trace_record_event, <- app_assoc. repeat split.
    unfold flag_writes. cbn [omap list_omap].
    fold (flag_writes evs).
    destruct e; cbn [record_event pgstrom_clserv_exit_pending]; try done.
    destruct (flag_writes evs) as [|b l] eqn:E; [done|].
    rewrite last_cons_cons.
    destruct (list.last (b :: l)) eqn:E2; [done|].
    by apply last_None in E2.
Qed.

Lemma main_trace_app s t :
  events_of is_main (trace s ++ map (pair Main) t) = main_trace s ++ t.
Proof. by rewrite events_of_app, events_of_pair. Qed.

(** The start-up code does not write the shutdown flag. *)
Lemma flag_writes_app t1 t2 :
  flag_writes (t1 ++ t2) = flag_writes t1 ++ flag_writes t2.
Proof. apply omap_app. Qed.

(** ** One step of the process, actor by actor *)

Section Steps.
Variable env : environment.

Lemma sys_step_alive s a s' : sys_step env s a = Some s' -> alive s = true.
Proof. unfold sys_step. by destruct (alive s). Qed.

Lemma main_step_effect s s' :
  sys_step env s ActMain = Some s' ->
  exists mv, pgstrom_opencl_main env s = Some mv /\
    pc s' = mv_pc mv /\
    opencl_num_threads s' = mv_num_threads mv /\
    threads s' = (if mv_started mv then threads s ++ [W_test] else threads s) /\
    handlers s' = handlers s /\
    trace s' = trace s ++ map (pair Main) (mv_events mv) /\
    pgstrom_clserv_exit_pending s' = default (pgstrom_clserv_exit_pending s) (list.last (flag_writes (mv_events mv))).
Proof.
  unfold sys_step. destruct (alive s); [|done]. cbn [negb].
  destruct (pgstrom_opencl_main env s) as [mv|]; [|done].
  cbn. intros [= <-]. exists mv. split; [done|].
  match goal with |- context [record_events Main ?evs ?s0] =>
    destruct (record_events_frame Main evs s0) as (-> & -> & -> & -> & -> & ->)
  end.
  by destruct (mv_started mv).
Qed.

Lemma worker_step_effect s k deq s' :
  sys_step env s (ActWorker k deq) = Some s' ->
  exists w w' ev, threads s !! k = Some w /\
    pgstrom_opencl_event_loop (pgstrom_clserv_exit_pending s) deq w = Some (w', ev) /\
    pc s' = pc s /\
    opencl_num_threads s' = opencl_num_threads s /\
    threads s' = <[k := w']> (threads s) /\
    handlers s' = handlers s /\
    trace s' = trace s ++ [(Worker k, ev)] /\
    pgstrom_clserv_exit_pending s' = pgstrom_clserv_exit_pending s.
Proof.
  unfold sys_step. destruct (alive s); [|done]. cbn [negb].
  destruct (threads s !! k) as [w|] eqn:Hw; [|done]. cbn.
  destruct (pgstrom_opencl_event_loop (pgstrom_clserv_exit_pending s) deq w) as [[w' ev]|] eqn:Hstep;
    [|done].
  cbn. intros [= <-]. exists w, w', ev. rewrite trace_record_event.
  repeat split; try done.
  destruct w; cbn in Hstep; try discriminate; by injection Hstep as <- <-.
Qed.

Lemma signal_step_effect s sig s' :
  sys_step env s (ActSignal sig) = Some s' ->
  pc s' = pc s /\
  opencl_num_threads s' = opencl_num_threads s /\
  threads s' = threads s /\
  handlers s' = handlers s ++ [(sig, H_flag)] /\
  trace s' = trace s /\
  pgstrom_clserv_exit_pending s' = pgstrom_clserv_exit_pending s.
Proof.
  unfold sys_step. destruct (alive s); [|done]. cbn [negb].
  destruct (signals_unblocked s); [|done]. by intros [= <-].
Qed.

Lemma handler_events sig hp hp' ev :
  handler_of sig hp = Some (hp', ev) ->
  ev = EvWriteExitPending true \/ ev = EvCancelServerLoop \/
  exists fmt, ev = EvClservLog fmt.
Proof.
  destruct sig, hp; cbn; intros [= <- <-]; eauto.
Qed.

Lemma handler_step_effect s h s' :
  sys_step env s (ActHandler h) = Some s' ->
  exists sig hp hp' ev, handlers s !! h = Some (sig, hp) /\
    handler_of sig hp = Some (hp', ev) /\
    pc s' = pc s /\
    opencl_num_threads s' = opencl_num_threads s /\
    threads s' = threads s /\
    handlers s' = <[h := (sig, hp')]> (handlers s) /\
    trace s' = trace s ++ [(Handler h, ev)] /\
    pgstrom_clserv_exit_pending s' = match ev with EvWriteExitPending v => v | _ => pgstrom_clserv_exit_pending s end.
Proof.
  unfold sys_step. destruct (alive s); [|done]. cbn [negb].
  destruct (handlers s !! h) as [[sig hp]|] eqn:Hh; [|done]. cbn.
  destruct (handler_of sig hp) as [[hp' ev]|] eqn:Hstep; [|done].
  cbn. intros [= <-]. exists sig, hp, hp', ev. rewrite trace_record_event.
  repeat split; try done.
Qed.

End Steps.

(** ** The invariant of the main routine *)

Section MainInvariant.
Variable env : environment.
Hypothesis configured_ok :
  guc_accepts pgstrom_init_opencl_server (configured_num_threads env).

Lemma resolved_in_int : in_int (resolved_num_threads env).
Proof.
  unfold resolved_num_threads.
  destruct (configured_num_threads env =? 0); [apply wrap_int_range|].
  unfold guc_accepts, in_int, INT_MIN, INT_MAX in *. cbn in *.
  unfold INT_MAX in *. lia.
Qed.

Lemma threads_nil_length (s s' : system) :
  length (threads s') = length (threads s) -> threads s = [] -> threads s' = [].
Proof. intros H E. rewrite E in H. by apply nil_length_inv. Qed.

(** A step that leaves the main routine where it is keeps its invariant:
    threads that returned stay so, and the flag is not reset. *)
Lemma main_inv_frame s s' :
  pc s' = pc s ->
  opencl_num_threads s' = opencl_num_threads s ->
  main_trace s' = main_trace s ->
  length (threads s') = length (threads s) ->
  (forall i, exited_from i (threads s) -> exited_from i (threads s')) ->
  (pgstrom_clserv_exit_pending s = true -> pgstrom_clserv_exit_pending s' = true) ->
  main_inv env s -> main_inv env s'.
Proof.
  intros Hpc Hnum Htr Hlen Hex Hflag.
  pose proof (threads_nil_length s s' Hlen) as Hnil.
  unfold main_inv, spawn_over, shutdown_requested, started.
  rewrite Hpc, Hnum, Htr, Hlen.
  destruct (pc s); intuition auto.
Qed.

Lemma exited_from_insert i ts k w w' :
  ts !! k = Some w -> w <> W_exited ->
  exited_from i ts -> exited_from i (<[k := w']> ts).
Proof.
  intros Hk Hw Hex k' w'' Hi Hlook.
  destruct (decide (k = k')) as [<-|Hne].
  - exfalso. apply Hw. by apply (Hex k).
  - rewrite list_lookup_insert_ne in Hlook by done. by apply (Hex k').
Qed.

Lemma event_loop_not_exited f deq w w' ev :
  pgstrom_opencl_event_loop f deq w = Some (w', ev) -> w <> W_exited.
Proof. by destruct w. Qed.

Lemma main_inv_worker s k deq s' :
  sys_step env s (ActWorker k deq) = Some s' -> main_inv env s -> main_inv env s'.
Proof.
  intros Hstep. apply worker_step_effect in Hstep
    as (w & w' & ev & Hk & Hloop & Hpc & Hnum & Hts & _ & Htr & Hflag).
  apply main_inv_frame; try done.
  - unfold main_trace. rewrite Htr, events_of_app. cbn. by rewrite app_nil_r.
  - rewrite Hts. apply length_insert.
  - intros i. rewrite Hts. eapply exited_from_insert; [done|].
    by eapply event_loop_not_exited.
  - by rewrite Hflag.
Qed.

Lemma main_inv_signal s sig s' :
  sys_step env s (ActSignal sig) = Some s' -> main_inv env s -> main_inv env s'.
Proof.
  intros Hstep. apply signal_step_effect in Hstep
    as (Hpc & Hnum & Hts & _ & Htr & Hflag).
  apply main_inv_frame; try done.
  - unfold main_trace. by rewrite Htr.
  - by rewrite Hts.
  - by rewrite Hts.
  - by rewrite Hflag.
Qed.

Lemma main_inv_handler s h s' :
  sys_step env s (ActHandler h) = Some s' -> main_inv env s -> main_inv env s'.
Proof.
  intros Hstep. apply handler_step_effect in Hstep
    as (sig & hp & hp' & ev & _ & Hcode & Hpc & Hnum & Hts & _ & Htr & Hflag).
  apply main_inv_frame; try done.
  - unfold main_trace. rewrite Htr, events_of_app. cbn. by rewrite app_nil_r.
  - by rewrite Hts.
  - by rewrite Hts.
  - rewrite Hflag.
    by destruct (handler_events _ _ _ _ Hcode) as [->|[->|[fmt ->]]].
Qed.


Lemma spawn_events_succ (c : nat) :
  spawn_events (Z.of_nat (S c)) =
  spawn_events (Z.of_nat c) ++ [EvPthreadCreate (Z.of_nat c) true].
Proof. unfold spawn_events. by rewrite seqZ_S, map_app. Qed.

Lemma join_events_none c : join_events c c = [].
Proof. unfold join_events. by rewrite seqZ_nil by lia. Qed.

Lemma join_events_pred c i :
  i <= c -> join_events c (i - 1) = join_events c i ++ [EvPthreadJoin (i - 1)].
Proof.
  intros Hi. unfold join_events. rewrite (seqZ_cons (i - 1)) by lia.
  rewrite reverse_cons, map_app. cbn. do 4 f_equal; lia.
Qed.

Ltac finish :=
  repeat split; try done; try lia;
  try (by rewrite <- ?app_assoc); try (by rewrite ?app_assoc).

Ltac arrive Hmv Hpc Hts Hnum Hmt :=
  injection Hmv as <-;
  cbn [mv_pc mv_num_threads mv_started mv_events] in Hpc, Hts, Hnum, Hmt;
  rewrite Hpc; cbv beta iota;
  unfold spawn_over, started, shutdown_requested; cbv zeta;
  rewrite ?Hts, ?Hnum, ?Hmt.

Lemma main_inv_main s s' :
  sys_step env s ActMain = Some s' -> main_inv env s -> main_inv env s'.
Proof.
  intros Hstep. apply main_step_effect in Hstep
    as (mv & Hmv & Hpc & Hnum & Hts & _ & Htr & Hflag).
  assert (Hmt : main_trace s' = main_trace s ++ mv_events mv).
  { unfold main_trace at 1. rewrite Htr. apply main_trace_app. }
  clear Htr. pose proof resolved_in_int as Hint.
  unfold main_inv, pgstrom_opencl_main, move in *.
  destruct (pc s) eqn:Hpcs.
  - (* PC_start *)
    intros (Hnil & Hn & Htrace). arrive Hmv Hpc Hts Hnum Hmt.
    by rewrite Htrace.
  - (* PC_init *)
    intros (Hnil & Hn & Htrace).
    unfold init_ok, at_resolve, at_init_error.
    destruct (init_opencl_context_and_shmem env) as [evs [[]|fmt]] eqn:Hinit;
      arrive Hmv Hpc Hts Hnum Hmt; rewrite Htrace.
    + finish.
    + split; [done|]. by left.
  - (* PC_resolve *)
    intros (Hnil & Hn & Hok & Htrace).
    assert (Hres : (if opencl_num_threads s =? 0
                    then (wrap_int (sysconf_nprocessors_onln env),
                          [EvSysconf (sysconf_nprocessors_onln env)])
                    else (opencl_num_threads s, []))
                   = (resolved_num_threads env, resolve_events env)).
    { unfold resolved_num_threads, resolve_events. rewrite Hn.
      by destruct (configured_num_threads env =? 0). }
    rewrite Hres in Hmv. unfold at_assert_failure, at_malloc.
    destruct (assert_checking env) eqn:Hassert; cbn [andb] in Hmv.
    + destruct (Z.gtb_spec (resolved_num_threads env) 0); cbn [negb] in Hmv;
        arrive Hmv Hpc Hts Hnum Hmt; rewrite Htrace.
      * finish.
      * split; [done|]. right. finish.
    + arrive Hmv Hpc Hts Hnum Hmt; rewrite Htrace. finish.
  - (* PC_malloc *)
    intros (Hnil & Hn & Hassert & Hok & Htrace).
    rewrite Hn in Hmv. fold (malloc_size env) in Hmv.
    destruct (malloc_ok env (malloc_size env)) eqn:Hmalloc;
      arrive Hmv Hpc Hts Hnum Hmt; rewrite Htrace.
    + unfold at_spawn, spawn_events. rewrite Hnil. cbn.
      rewrite app_nil_r. finish.
    + right. by rewrite Hnil.
  - (* PC_spawn *)
    intros (-> & Hst & Htrace).
    destruct Hst as (Hok & Hn & Hassert & Hmalloc & Hcreated & Hle).
    rewrite Hn in Hmv. unfold in_int, INT_MIN, INT_MAX in Hint.
    unfold at_spawned, failed_events.
    destruct (Z.of_nat (length (threads s)) <? resolved_num_threads env) eqn:Hlt;
      pose proof Hlt as Hlt'; [apply Z.ltb_lt in Hlt'|apply Z.ltb_ge in Hlt'].
    + destruct (pthread_create_ok env (Z.of_nat (length (threads s)))) eqn:Hcreate;
        arrive Hmv Hpc Hts Hnum Hmt; rewrite Htrace.
      * rewrite length_app, Nat2Z.inj_add. cbn [length].
        rewrite wrap_int_id by (unfold in_int, INT_MIN, INT_MAX; lia).
        unfold at_spawn.
        replace (Z.of_nat (length (threads s)) + Z.of_nat 1)
          with (Z.of_nat (S (length (threads s)))) by lia.
        rewrite spawn_events_succ. finish.
        intros k Hk. destruct (decide (k = Z.of_nat (length (threads s))))
          as [->|]; [done|]. apply Hcreated. lia.
      * rewrite Hlt. finish.
    + arrive Hmv Hpc Hts Hnum Hmt; rewrite Htrace. rewrite Hlt, app_nil_r. finish.
  - (* PC_spawned *)
    intros (-> & ((Hok & Hn & Hassert & Hmalloc & Hcreated & Hle) & Hfail) & Htrace).
    rewrite Hn in Hmv. unfold at_join, announce_events.
    destruct (Z.of_nat (length (threads s)) <? resolved_num_threads env) eqn:Hlt;
      pose proof Hlt as Hlt'; [apply Z.ltb_lt in Hlt'|apply Z.ltb_ge in Hlt'];
      arrive Hmv Hpc Hts Hnum Hmt; rewrite Htrace.
    + finish.
    + rewrite join_events_none, Hlt, app_nil_r. finish.
      intros k w Hk Hlook. apply lookup_lt_Some in Hlook. lia.
  - (* PC_fail_flag *)
    intros (-> & ((Hok & Hn & Hassert & Hmalloc & Hcreated & Hle) & Hfail) & Hlt & Htrace).
    arrive Hmv Hpc Hts Hnum Hmt; rewrite Htrace.
    cbn in Hflag. finish.
  - (* PC_fail_cancel *)
    intros (-> & ((Hok & Hn & Hassert & Hmalloc & Hcreated & Hle) & Hfail) & Hlt & Hset & Htrace).
    unfold at_join, announce_events.
    arrive Hmv Hpc Hts Hnum Hmt; rewrite Htrace.
    cbn in Hflag. rewrite Hset in Hflag.
    rewrite (proj2 (Z.ltb_lt _ _) Hlt).
    rewrite join_events_none, app_nil_r. finish.
    intros k w Hk Hlook. apply lookup_lt_Some in Hlook. lia.
  - (* PC_join *)
    intros (Hi & ((Hok & Hn & Hassert & Hmalloc & Hcreated & Hle) & Hfail) & Hreq & Hex & Htrace).
    unfold in_int, INT_MIN, INT_MAX in Hint. unfold shutdown_requested in Hreq.
    rewrite wrap_int_id in Hmv by (unfold in_int, INT_MIN, INT_MAX; lia).
    destruct (Z.geb_spec (i - 1) 0);
      arrive Hmv Hpc Hts Hnum Hmt; rewrite Htrace, app_nil_r;
      cbn in Hflag; rewrite Hflag.
    + replace (i - 1 + 1) with i by lia. finish.
    + assert (i = 0) as -> by lia. finish.
  - (* PC_joining *)
    intros (Hi & ((Hok & Hn & Hassert & Hmalloc & Hcreated & Hle) & Hfail) & Hreq & Hex & Htrace).
    unfold shutdown_requested in Hreq.
    destruct (threads s !! Z.to_nat i) as [[]|] eqn:Hlook; try done.
    arrive Hmv Hpc Hts Hnum Hmt; rewrite Htrace.
    cbn in Hflag; rewrite Hflag.
    unfold at_join. rewrite <- app_assoc.
    pose proof (join_events_pred (Z.of_nat (length (threads s))) (i + 1)) as Hj.
    replace (i + 1 - 1) with i in Hj by lia. rewrite Hj by lia. finish.
    intros k w Hk Hw. destruct (decide (Z.of_nat k = i)) as [<-|].
    + rewrite Nat2Z.id in Hlook. congruence.
    + apply (Hex k); [lia|done].
  - (* PC_stopping *)
    intros (((Hok & Hn & Hassert & Hmalloc & Hcreated & Hle) & Hfail) & Hreq & Hex & Htrace).
    unfold shutdown_requested in Hreq.
    arrive Hmv Hpc Hts Hnum Hmt; rewrite Htrace.
    cbn in Hflag; rewrite Hflag. finish.
  - (* PC_close *)
    intros (((Hok & Hn & Hassert & Hmalloc & Hcreated & Hle) & Hfail) & Hreq & Hex & Htrace).
    unfold shutdown_requested in Hreq.
    arrive Hmv Hpc Hts Hnum Hmt; rewrite Htrace.
    cbn in Hflag; rewrite Hflag. left. finish.
  - done.
  - done.
Qed.

(** The invariant holds of every state the process reaches. *)
Lemma main_inv_run sched : forall s s',
  main_inv env s -> sys_run env s sched = Some s' -> main_inv env s'.
Proof.
  induction sched as [|a sched IH]; intros s s' Hinv; cbn.
  - by intros [= <-].
  - destruct (sys_step env s a) as [s1|] eqn:Hstep; [|done].
    apply IH. destruct a.
    + by eapply main_inv_main.
    + by eapply main_inv_worker.
    + by eapply main_inv_signal.
    + by eapply main_inv_handler.
Qed.

Lemma main_inv_reachable s : reachable env s -> main_inv env s.
Proof.
  intros [sched Hrun]. eapply main_inv_run; [|done].
  unfold main_inv. cbn. done.
Qed.

End MainInvariant.

(** ** Reading one kind of event off the trace of the main routine *)


Lemma omap_init_events {B} env (f : event -> option B) :
  (forall e, is_init_event e = true -> f e = None) ->
  omap f (fst (init_opencl_context_and_shmem env)) = [].
Proof.
  intros Hf. apply omap_silent.
  pose proof (Forall_init_events env) as H.
  rewrite Forall_forall in H |- *. intros e He.
  rewrite <- list_elem_of_In in He. by apply Hf, H, list_elem_of_In.
Qed.

(** [project] computes [omap f] on the trace the main routine has left
    at a program point, for a projection [f] that is silent on the
    events of the start-up code. *)
Ltac project :=
  unfold at_return, at_close, at_join, at_spawned, at_spawn, at_out_of_memory,
    at_assert_failure, at_malloc, at_resolve, at_init_error, at_init,
    failed_events, announce_events, resolve_events, spawn_events, join_events;
  do 3
    (rewrite ?omap_app, ?omap_map, ?omap_if;
     rewrite ?omap_init_events by (by intros []);
     cbn [omap list_omap app];
     rewrite ?omap_all_Some, ?omap_all_None, ?app_nil_r, ?map_id, ?if_same).

Section Tables.
Variable env : environment.

Lemma creations_at_malloc : creations (at_malloc env) = [].
Proof. unfold creations. project. done. Qed.

Lemma creations_at_spawn c :
  creations (at_spawn env c) = map (fun k => (k, true)) (seqZ 0 c).
Proof. unfold creations. project. done. Qed.

Lemma creations_at_spawned c :
  creations (at_spawned env c) =
  map (fun k => (k, true)) (seqZ 0 c) ++
  (if c <? resolved_num_threads env then [(c, false)] else []).
Proof. unfold creations. project. done. Qed.

End Tables.

Lemma In_reverse_seqZ j m n : In j (reverse (seqZ m n)) <-> m <= j < m + n.
Proof. by rewrite <- list_elem_of_In, elem_of_reverse, elem_of_seqZ. Qed.

Lemma In_seqZ j m n : In j (seqZ m n) <-> m <= j < m + n.
Proof. by rewrite <- list_elem_of_In, elem_of_seqZ. Qed.

Lemma exited_lookup i ts j :
  exited_from i ts -> 0 <= j -> i <= j < Z.of_nat (length ts) ->
  ts !! Z.to_nat j = Some W_exited.
Proof.
  intros Hex H0 Hj. destruct (ts !! Z.to_nat j) as [w|] eqn:Hw.
  - f_equal. apply (Hex (Z.to_nat j)); [lia|done].
  - apply lookup_ge_None in Hw. lia.
Qed.

(** ** The worker loop *)

Section WorkerLoop.
Variable env : environment.

Lemma worker_trace_other s s' k a evs :
  trace s' = trace s ++ map (pair a) evs -> is_worker_k k a = false ->
  worker_trace k s' = worker_trace k s.
Proof.
  intros Htr Ha. unfold worker_trace.
  by rewrite Htr, events_of_app, events_of_pair, Ha, app_nil_r.
Qed.

Lemma worker_trace_self s s' k ev :
  trace s' = trace s ++ [(Worker k, ev)] ->
  worker_trace k s' = worker_trace k s ++ [ev].
Proof.
  intros Htr. unfold worker_trace. rewrite Htr, events_of_app. cbn.
  by rewrite Nat.eqb_refl.
Qed.

Lemma event_loop_extends f deq w w' ev its :
  pgstrom_opencl_event_loop f deq w = Some (w', ev) ->
  loop_iterations its ->
  exists its', loop_iterations its' /\ (its ++ pending w) ++ [ev] = its' ++ pending w'.
Proof.
  intros Hstep Hits. destruct w; cbn in Hstep; try discriminate.
  - injection Hstep as <- <-. exists its. destruct f; by rewrite app_nil_r.
  - injection Hstep as <- <-. exists its. by rewrite <- app_assoc.
  - injection Hstep as <- <-. destruct deq as [msg|].
    + exists its. by rewrite <- app_assoc.
    + exists (its ++ [EvReadExitPending false; EvCheckForInterrupts; EvDequeue None]).
      split; [by apply loop_no_message|].
      by rewrite <- app_assoc, app_nil_r.
  - injection Hstep as <- <-.
    exists (its ++ [EvReadExitPending false; EvCheckForInterrupts;
                    EvDequeue (Some msg); EvCallback (cb_process msg) msg]).
    split; [by apply loop_message|].
    by rewrite <- app_assoc, app_nil_r.
Qed.

Lemma worker_inv_step s a s' :
  sys_step env s a = Some s' -> worker_inv s -> worker_inv s'.
Proof.
  intros Hstep Hinv k. specialize (Hinv k). destruct a as [|k0 deq|sig|h].
  - apply main_step_effect in Hstep
      as (mv & _ & _ & _ & Hts & _ & Htr & _).
    rewrite (worker_trace_other s s' k Main _ Htr) by done.
    rewrite Hts. destruct (mv_started mv); [|done].
    destruct (threads s !! k) as [w|] eqn:Hk.
    + by rewrite (lookup_app_l_Some _ _ _ _ Hk).
    + apply lookup_ge_None in Hk.
      destruct (decide (k = length (threads s))) as [->|Hne].
      * rewrite list_lookup_middle by done. exists []. split; [constructor|done].
      * rewrite lookup_ge_None_2; [done|]. rewrite length_app. cbn. lia.
  - apply worker_step_effect in Hstep
      as (w & w' & ev & Hk0 & Hloop & _ & _ & Hts & _ & Htr & _).
    rewrite Hts. destruct (decide (k = k0)) as [->|Hne].
    + rewrite (worker_trace_self s s' k0 ev Htr).
      rewrite list_lookup_insert_eq by by eapply lookup_lt_Some.
      rewrite Hk0 in Hinv. destruct Hinv as (its & Hits & ->).
      by eapply event_loop_extends.
    + rewrite list_lookup_insert_ne by done.
      rewrite (worker_trace_other s s' k (Worker k0) [ev]); [done|done|].
      cbn. by apply Nat.eqb_neq.
  - apply signal_step_effect in Hstep as (_ & _ & Hts & _ & Htr & _).
    unfold worker_trace. by rewrite Hts, Htr.
  - apply handler_step_effect in Hstep
      as (sig & hp & hp' & ev & _ & _ & _ & _ & Hts & _ & Htr & _).
    rewrite Hts. by rewrite (worker_trace_other s s' k (Handler h) [ev]).
Qed.

Lemma worker_inv_reachable s : reachable env s -> worker_inv s.
Proof.
  intros [sched Hrun]. revert Hrun.
  assert (Hinit : worker_inv (initial env)) by (intros k; by destruct k).
  revert Hinit. generalize (initial env) as s0. revert s.
  induction sched as [|a sched IH]; intros s s0 Hinv; cbn.
  - by intros [= <-].
  - destruct (sys_step env s0 a) as [s1|] eqn:Hstep; [|done].
    apply IH. by eapply worker_inv_step.
Qed.



End WorkerLoop.

(** ** Joins, the close of the queue, and the flag *)

(** [by_pc H] splits the invariant [H] program point by program point
    and replaces the trace of the main routine by what it is there. *)
Ltac open_inv H :=
  repeat match type of H with
  | _ /\ _ => let H1 := fresh "Hinv" in destruct H as [H1 H]
  | _ \/ _ => destruct H as [H|H]
  end.

Ltac by_pc H :=
  unfold main_inv in H; cbv zeta in H;
  match type of H with
  | context [pc ?s] => destruct (pc s) eqn:?Hpc
  end;
  open_inv H;
  try (rewrite H in * ).

Section Shutdown.
Variable env : environment.
Hypothesis configured_ok :
  guc_accepts pgstrom_init_opencl_server (configured_num_threads env).

Lemma In_events_of_main t e : In (Main, e) t <-> In e (events_of is_main t).
Proof.
  induction t as [|[a e'] t IH]; cbn; [done|].
  destruct a; cbn; rewrite <- IH; split.
  - intros [[= ->]|H]; auto.
  - intros [->|H]; auto.
  - intros [[=]|H]; auto.
  - auto.
  - intros [[=]|H]; auto.
  - auto.
Qed.

Lemma In_main_trace s e : In (Main, e) (trace s) <-> In e (main_trace s).
Proof. apply In_events_of_main. Qed.

(** A thread the main routine has joined has returned. *)
Lemma joined_exited s j :
  reachable env s -> In (EvPthreadJoin j) (main_trace s) ->
  0 <= j /\ threads s !! Z.to_nat j = Some W_exited.
Proof.
  intros Hreach Hin. apply (main_inv_reachable env configured_ok) in Hreach.
  eapply (In_omap (fun e => match e with EvPthreadJoin i => Some i | _ => None end))
    in Hin; [|done].
  by_pc Hreach; revert Hin; project; try done;
    rewrite In_reverse_seqZ; intros Hj;
    (split; [lia|]); eapply exited_lookup; try done; lia.
Qed.


Lemma sys_run_app s sched1 sched2 :
  sys_run env s (sched1 ++ sched2) =
  match sys_run env s sched1 with
  | Some s1 => sys_run env s1 sched2
  | None => None
  end.
Proof.
  revert s. induction sched1 as [|a sched1 IH]; intros s; cbn; [done|].
  by destruct (sys_step env s a).
Qed.

Lemma reachable_initial : reachable env (initial env).
Proof. by exists []. Qed.

Lemma reachable_step s a s' :
  reachable env s -> sys_step env s a = Some s' -> reachable env s'.
Proof.
  intros [sched Hrun] Hstep. exists (sched ++ [a]).
  rewrite sys_run_app, Hrun. cbn. by rewrite Hstep.
Qed.

Lemma reachable_run s sched s' :
  reachable env s -> sys_run env s sched = Some s' -> reachable env s'.
Proof.
  intros [sched0 Hrun] Hrun'. exists (sched0 ++ sched).
  by rewrite sys_run_app, Hrun.
Qed.

(** Induction on the steps that led to a state. *)
Lemma reachable_induction (P : system -> Prop) :
  P (initial env) ->
  (forall s a s', reachable env s -> P s -> sys_step env s a = Some s' -> P s') ->
  forall s, reachable env s -> P s.
Proof.
  intros Hinit Hstep s [sched Hrun]. revert s Hrun.
  induction sched as [|a sched IH] using rev_ind; intros s Hrun.
  - by injection Hrun as <-.
  - rewrite sys_run_app in Hrun.
    destruct (sys_run env (initial env) sched) as [s1|] eqn:Hrun1; [|done].
    cbn in Hrun. destruct (sys_step env s1 a) as [s2|] eqn:Hs; [|done].
    injection Hrun as <-. eapply Hstep; [by exists sched|by apply IH|done].
Qed.

(** Once the queue is closed the routine has returned: every thread it
    started has returned before. *)
Lemma closed_returned s :
  reachable env s -> In EvCloseServerQueue (main_trace s) ->
  pc s = PC_returned /\ exited_from 0 (threads s) /\
  main_trace s = at_return env (Z.of_nat (length (threads s))).
Proof.
  intros Hreach Hin. apply (main_inv_reachable env configured_ok) in Hreach.
  eapply (In_omap (fun e => match e with EvCloseServerQueue => Some tt | _ => None end))
    in Hin; [|done].
  by_pc Hreach; try done; revert Hin; project; done.
Qed.

Lemma main_events_close s mv :
  pgstrom_opencl_main env s = Some mv ->
  In EvCloseServerQueue (mv_events mv) -> mv_events mv = [EvCloseServerQueue].
Proof.
  unfold pgstrom_opencl_main, move. intros Hmv Hin. revert Hin.
  pose proof (init_events_silent _ (Forall_init_events env)) as (_ & _ & _ & Hq & _).
  destruct (pc s); try done.
  - injection Hmv as <-. cbn. intuition discriminate.
  - destruct (init_opencl_context_and_shmem env) as [evs [[]|fmt]];
      injection Hmv as <-; cbn [mv_events fst] in *; rewrite ?in_app_iff; cbn;
      intuition discriminate.
  - destruct (opencl_num_threads s =? 0), (assert_checking env && _);
      injection Hmv as <-; cbn; intuition discriminate.
  - destruct (malloc_ok env _); injection Hmv as <-; cbn; intuition discriminate.
  - destruct (i <? _); [destruct (pthread_create_ok env i)|];
      injection Hmv as <-; cbn; intuition discriminate.
  - destruct (i <? _); injection Hmv as <-; cbn; intuition discriminate.
  - injection Hmv as <-. cbn. intuition discriminate.
  - injection Hmv as <-. cbn. intuition discriminate.
  - destruct (wrap_int (i - 1) >=? 0); injection Hmv as <-; cbn; intuition.
  - destruct (threads s !! Z.to_nat i) as [[]|]; try done.
    injection Hmv as <-. cbn. intuition discriminate.
  - injection Hmv as <-. cbn. intuition discriminate.
  - by injection Hmv as <-.
Qed.


Lemma app_split_at {A} (l1 l2 pre post : list A) x :
  l1 ++ l2 = pre ++ x :: post ->
  (exists post0, l1 = pre ++ x :: post0 /\ post = post0 ++ l2) \/
  (exists pre', pre = l1 ++ pre' /\ l2 = pre' ++ x :: post).
Proof.
  intros H. apply app_eq_inv in H as [(k & -> & Hk)|(k & -> & ->)].
  - destruct k as [|y k]; cbn in Hk.
    + right. exists []. subst l2. by rewrite !app_nil_r.
    + injection Hk as <- ->. left. by exists k.
  - right. by exists k.
Qed.

Lemma events_of_suffix p a evs pre x post :
  p a = false -> map (pair a) evs = pre ++ x :: post -> events_of p post = [].
Proof.
  intros Hp Heq.
  assert (H : events_of p (map (pair a) evs) = []) by by rewrite events_of_pair, Hp.
  rewrite Heq, events_of_app in H. apply app_eq_nil in H as [_ H].
  cbn in H. destruct x as [a' e']. by destruct (p a').
Qed.

(** Nothing happens in the process once the queue is closed: the close
    is the last event of the trace. *)
Lemma nothing_after_close s :
  reachable env s ->
  forall pre post, trace s = pre ++ (Main, EvCloseServerQueue) :: post -> post = [].
Proof.
  revert s. apply (reachable_induction (fun s => forall pre post,
    trace s = pre ++ (Main, EvCloseServerQueue) :: post -> post = [])).
  - intros pre post Heq. by destruct pre.
  - intros s a s' Hreach IH Hstep pre post Heq.
    assert (Hopen : ~ In (Main, EvCloseServerQueue) (trace s)).
    { intros Hin. apply In_main_trace, closed_returned in Hin as (Hpc & _); [|done].
      apply sys_step_alive in Hstep. unfold alive in Hstep. by rewrite Hpc in Hstep. }
    assert (Hnew : forall new, trace s' = trace s ++ new ->
              exists pre', new = pre' ++ (Main, EvCloseServerQueue) :: post).
    { intros new Hnew. rewrite Hnew in Heq.
      apply app_split_at in Heq as [(post0 & Hs & _)|(pre' & _ & Hn)]; [|by eauto].
      exfalso. apply Hopen. rewrite Hs. apply in_elt. }
    destruct a as [|k deq|sig|h].
    + apply main_step_effect in Hstep as (mv & Hmv & _ & _ & _ & _ & Htr & _).
      destruct (Hnew _ Htr) as (pre' & Hn).
      assert (Hin : In EvCloseServerQueue (mv_events mv)).
      { assert (H : In (Main, EvCloseServerQueue) (map (pair Main) (mv_events mv)))
          by (rewrite Hn; apply in_elt).
        apply in_map_iff in H as (e & [= <-] & He). done. }
      rewrite (main_events_close _ _ Hmv Hin) in Hn. cbn in Hn.
      destruct pre' as [|? [|? ?]]; by inversion Hn.
    + apply worker_step_effect in Hstep
        as (w & w' & ev & _ & _ & _ & _ & _ & _ & Htr & _).
      destruct (Hnew _ Htr) as (pre' & Hn).
      destruct pre' as [|? [|? ?]]; by inversion Hn.
    + apply signal_step_effect in Hstep as (_ & _ & _ & _ & Htr & _).
      rewrite <- (app_nil_r (trace s)) in Htr.
      destruct (Hnew _ Htr) as (pre' & Hn). by destruct pre'.
    + apply handler_step_effect in Hstep
        as (sig & hp & hp' & ev & _ & _ & _ & _ & _ & _ & Htr & _).
      destruct (Hnew _ Htr) as (pre' & Hn).
      destruct pre' as [|? [|? ?]]; by inversion Hn.
Qed.


(** A worker does nothing after the main routine has joined it. *)
Lemma joined_worker_silent s :
  reachable env s ->
  forall k pre post,
    trace s = pre ++ (Main, EvPthreadJoin (Z.of_nat k)) :: post ->
    events_of (is_worker_k k) post = [].
Proof.
  revert s. apply (reachable_induction (fun s => forall k pre post,
    trace s = pre ++ (Main, EvPthreadJoin (Z.of_nat k)) :: post ->
    events_of (is_worker_k k) post = [])).
  - intros k pre post Heq. by destruct pre.
  - intros s a s' Hreach IH Hstep k pre post Heq.
    assert (Hnew : forall act evs, trace s' = trace s ++ map (pair act) evs ->
      (is_worker_k k act = true ->
       In (Main, EvPthreadJoin (Z.of_nat k)) (trace s) -> False) ->
      events_of (is_worker_k k) post = []).
    { intros act evs Htr Hact. rewrite Htr in Heq.
      apply app_split_at in Heq as [(post0 & Hs & ->)|(pre' & _ & Hn)].
      - rewrite events_of_app, (IH _ _ _ Hs), events_of_pair. cbn.
        destruct (is_worker_k k act) eqn:E; [|done].
        exfalso. apply Hact; [done|]. rewrite Hs. apply in_elt.
      - destruct (is_worker_k k act) eqn:E.
        + assert (Hin : In (Main, EvPthreadJoin (Z.of_nat k)) (map (pair act) evs))
            by (rewrite Hn; apply in_elt).
          apply in_map_iff in Hin as (e & [= ->] & _). done.
        + by eapply events_of_suffix. }
    destruct a as [|k0 deq|sig|h].
    + apply main_step_effect in Hstep as (mv & _ & _ & _ & _ & _ & Htr & _).
      by eapply Hnew.
    + apply worker_step_effect in Hstep
        as (w & w' & ev & Hk0 & Hloop & _ & _ & _ & _ & Htr & _).
      apply (Hnew (Worker k0) [ev] Htr). cbn. intros ->%Nat.eqb_eq Hin.
      apply In_main_trace, joined_exited in Hin as (_ & Hex); [|done].
      rewrite Nat2Z.id, Hk0 in Hex. injection Hex as ->. done.
    + apply signal_step_effect in Hstep as (_ & _ & _ & _ & Htr & _).
      apply (Hnew Main []); [by rewrite app_nil_r|done].
    + apply handler_step_effect in Hstep
        as (sig & hp & hp' & ev & _ & _ & _ & _ & _ & _ & Htr & _).
      by apply (Hnew (Handler h) [ev] Htr).
Qed.

End Shutdown.

(** ** The shutdown flag *)

Section Flag.
Variable env : environment.

Lemma main_events_writes s mv :
  pgstrom_opencl_main env s = Some mv ->
  flag_writes (mv_events mv) = [] \/ flag_writes (mv_events mv) = [true].
Proof.
  unfold pgstrom_opencl_main, move. intros Hmv.
  pose proof (init_events_silent _ (Forall_init_events env)) as (Hw & _).
  destruct (pc s); try done.
  - injection Hmv as <-. by left.
  - destruct (init_opencl_context_and_shmem env) as [evs [[]|fmt]];
      injection Hmv as <-; cbn [mv_events fst] in *;
      rewrite ?flag_writes_app, Hw; by left.
  - destruct (opencl_num_threads s =? 0), (assert_checking env && _);
      injection Hmv as <-; by left.
  - destruct (malloc_ok env _); injection Hmv as <-; by left.
  - destruct (i <? _); [destruct (pthread_create_ok env i)|];
      injection Hmv as <-; by left.
  - destruct (i <? _); injection Hmv as <-; by left.
  - injection Hmv as <-. by right.
  - injection Hmv as <-. by left.
  - destruct (wrap_int (i - 1) >=? 0); injection Hmv as <-; by left.
  - destruct (threads s !! Z.to_nat i) as [[]|]; try done.
    injection Hmv as <-. by left.
  - injection Hmv as <-. by left.
  - injection Hmv as <-. by left.
Qed.

(** No step of the process resets the flag. *)
Lemma flag_monotone_step s a s' :
  sys_step env s a = Some s' ->
  pgstrom_clserv_exit_pending s = true -> pgstrom_clserv_exit_pending s' = true.
Proof.
  intros Hstep Hset. destruct a as [|k deq|sig|h].
  - apply main_step_effect in Hstep as (mv & Hmv & _ & _ & _ & _ & _ & ->).
    by destruct (main_events_writes _ _ Hmv) as [->| ->].
  - apply worker_step_effect in Hstep
      as (w & w' & ev & _ & _ & _ & _ & _ & _ & _ & ->). done.
  - apply signal_step_effect in Hstep as (_ & _ & _ & _ & _ & ->). done.
  - apply handler_step_effect in Hstep
      as (sig & hp & hp' & ev & _ & Hcode & _ & _ & _ & _ & _ & ->).
    by destruct (handler_events _ _ _ _ Hcode) as [->|[->|[fmt ->]]].
Qed.

Lemma flag_monotone_run sched : forall s s',
  sys_run env s sched = Some s' ->
  pgstrom_clserv_exit_pending s = true -> pgstrom_clserv_exit_pending s' = true.
Proof.
  induction sched as [|a sched IH]; intros s s'; cbn.
  - by intros [= <-].
  - destruct (sys_step env s a) as [s1|] eqn:Hstep; [|done].
    intros Hrun Hset. eapply IH; [done|]. by eapply flag_monotone_step.
Qed.

(** The writes to the flag, by any actor, in the order they happened. *)
Lemma writes_step s a s' :
  sys_step env s a = Some s' ->
  exists ws, flag_writes (map snd (trace s')) = flag_writes (map snd (trace s)) ++ ws /\
    (ws = [] \/ ws = [true]) /\
    pgstrom_clserv_exit_pending s' =
      default (pgstrom_clserv_exit_pending s) (list.last ws).
Proof.
  intros Hstep. destruct a as [|k deq|sig|h].
  - apply main_step_effect in Hstep as (mv & Hmv & _ & _ & _ & _ & -> & ->).
    exists (flag_writes (mv_events mv)).
    rewrite map_app, flag_writes_app, map_map, map_id.
    split; [done|]. split; [|done]. by apply (main_events_writes s).
  - apply worker_step_effect in Hstep
      as (w & w' & ev & _ & Hloop & _ & _ & _ & _ & -> & ->).
    exists []. rewrite map_app, flag_writes_app. split; [|by auto].
    f_equal. destruct w; cbn in Hloop; try discriminate;
      by injection Hloop as <- <-.
  - apply signal_step_effect in Hstep as (_ & _ & _ & _ & -> & ->).
    exists []. rewrite app_nil_r. by auto.
  - apply handler_step_effect in Hstep
      as (sig & hp & hp' & ev & _ & Hcode & _ & _ & _ & _ & -> & ->).
    rewrite map_app, flag_writes_app.
    destruct (handler_events _ _ _ _ Hcode) as [->|[->|[fmt ->]]].
    + exists [true]. by auto.
    + exists []. by auto.
    + exists []. by auto.
Qed.

(** Every write stores [true], and the flag is set exactly when a write
    has happened. *)
Lemma flag_written s :
  reachable env s ->
  Forall (fun v => v = true) (flag_writes (map snd (trace s))) /\
  (pgstrom_clserv_exit_pending s = true <-> flag_writes (map snd (trace s)) <> []).
Proof.
  revert s. apply (reachable_induction env (fun s =>
    Forall (fun v => v = true) (flag_writes (map snd (trace s))) /\
    (pgstrom_clserv_exit_pending s = true <-> flag_writes (map snd (trace s)) <> []))).
  - split; [constructor|]. cbn. split; done.
  - intros s a s' _ (Hall & Hiff) Hstep.
    destruct (writes_step _ _ _ Hstep) as (ws & -> & [->| ->] & ->); cbn.
    + rewrite app_nil_r. done.
    + split; [apply Forall_app; split; [done|by constructor]|].
      split; [intros _|done]. by destruct (flag_writes _).
Qed.

End Flag.

(** ** The log writer *)

Section LogWriterFacts.

Lemma length_list_ascii_of_string (s : string) :
  length (list_ascii_of_string s) = String.length s.
Proof. induction s; cbn; congruence. Qed.

Lemma store_overrun b ofs c :
  overrun (store b ofs c) =
  if (0 <=? ofs) && (ofs <? BUFSIZE) then overrun b else overrun b ++ [(ofs, c)].
Proof. unfold store. by destruct ((0 <=? ofs) && (ofs <? BUFSIZE)). Qed.

(** A write that ends inside the array leaves its surroundings alone. *)
Lemma store_all_inside text : forall b ofs,
  0 <= ofs -> ofs + Z.of_nat (length text) <= BUFSIZE ->
  overrun (store_all b ofs text) = overrun b.
Proof.
  induction text as [|c text IH]; intros b ofs H0 Hend; [done|].
  cbn [store_all]. rewrite IH; [|lia|rewrite length_cons in Hend; lia].
  rewrite store_overrun.
  destruct (Z.leb_spec 0 ofs); [|lia].
  destruct (Z.ltb_spec ofs BUFSIZE); [done|].
  rewrite length_cons in Hend. lia.
Qed.

(** Stores never undo an overrun. *)
Lemma store_all_keeps_overrun text : forall b ofs,
  overrun b <> [] -> overrun (store_all b ofs text) <> [].
Proof.
  induction text as [|c text IH]; intros b ofs Hb; [done|].
  cbn [store_all]. apply IH. rewrite store_overrun.
  destruct ((0 <=? ofs) && (ofs <? BUFSIZE)); [done|].
  by destruct (overrun b).
Qed.

(** A write that starts past the array overruns it. *)
Lemma store_all_outside text b ofs :
  BUFSIZE <= ofs -> text <> [] -> overrun (store_all b ofs text) <> [].
Proof.
  intros Hofs Htext. destruct text as [|c text]; [done|].
  cbn [store_all]. apply store_all_keeps_overrun. rewrite store_overrun.
  destruct (Z.leb_spec 0 ofs); destruct (Z.ltb_spec ofs BUFSIZE); cbn;
    try lia; by destruct (overrun b).
Qed.

Lemma c_snprintf_inside b ofs size text :
  0 <= ofs -> 0 <= size -> ofs + size <= BUFSIZE ->
  Z.of_nat (length text) <= INT_MAX ->
  overrun (fst (c_snprintf b ofs size text)) = overrun b /\
  snd (c_snprintf b ofs size text) = Z.of_nat (length text).
Proof.
  intros H0 Hsize Hend Hint. unfold c_snprintf.
  destruct (Z.leb_spec (Z.of_nat (length text)) INT_MAX); [|lia].
  destruct (Z.eqb_spec size 0); [done|]. cbn [fst snd]. split; [|done].
  apply store_all_inside; [done|].
  rewrite length_app, length_take. cbn [length]. lia.
Qed.

Lemma c_snprintf_outside b ofs size text :
  BUFSIZE <= ofs -> size <> 0 ->
  overrun (fst (c_snprintf b ofs size text)) <> [].
Proof.
  intros Hofs Hsize. unfold c_snprintf.
  destruct (Z.eqb_spec size 0); [done|]. cbn [fst].
  apply store_all_outside; [done|]. by destruct (take _ text).
Qed.

Lemma c_snprintf_keeps_overrun b ofs size text :
  overrun b <> [] -> overrun (fst (c_snprintf b ofs size text)) <> [].
Proof.
  intros Hb. unfold c_snprintf. destruct (size =? 0); [done|].
  by apply store_all_keeps_overrun.
Qed.

(** The value returned is the length of the text when an [int] holds it. *)
Lemma c_snprintf_returns b ofs size text :
  Z.of_nat (length text) <= INT_MAX ->
  snd (c_snprintf b ofs size text) = Z.of_nat (length text).
Proof.
  intros Hint. unfold c_snprintf.
  destruct (Z.leb_spec (Z.of_nat (length text)) INT_MAX); [|lia].
  by destruct (size =? 0).
Qed.

(** A text too long for an [int] makes the call return -1. *)
Lemma c_snprintf_fails b ofs size text :
  INT_MAX < Z.of_nat (length text) ->
  snd (c_snprintf b ofs size text) = -1.
Proof.
  intros Hint. unfold c_snprintf.
  destruct (Z.leb_spec (Z.of_nat (length text)) INT_MAX); [lia|].
  by destruct (size =? 0).
Qed.

(** The three writes of lines 289-298 stay inside the array exactly when
    the prefix and the body together are at most 8192 characters long. *)
Lemma compose_message_overrun verbose funcname filename lineno body garbage :
  let n1 := Z.of_nat (String.length (log_prefix verbose funcname filename lineno)) in
  let n2 := Z.of_nat (String.length body) in
  n1 <= INT_MAX -> n2 <= INT_MAX ->
  overrun (compose_message verbose funcname filename lineno body
             {| cells := garbage; overrun := [] |}) = []
  <-> n1 + n2 <= BUFSIZE.
Proof.
  intros n1 n2 Hint1 Hint2. unfold INT_MAX in Hint1, Hint2. unfold compose_message.
  set (prefix := list_ascii_of_string _).
  set (text := list_ascii_of_string body).
  assert (Hn1 : Z.of_nat (length prefix) = n1).
  { subst prefix n1. f_equal. clear.
    induction (log_prefix verbose funcname filename lineno); cbn; congruence. }
  assert (Hn2 : Z.of_nat (length text) = n2).
  { subst text n2. f_equal. clear. induction body; cbn; congruence. }
  clearbody prefix text.
  set (b0 := {| cells := garbage; overrun := [] |}).
  pose proof (c_snprintf_returns b0 0 (wrap_size_t (BUFSIZE - 0)) prefix) as Hr1.
  pose proof (c_snprintf_inside b0 0 (wrap_size_t (BUFSIZE - 0)) prefix) as Hi1.
  destruct (c_snprintf b0 0 (wrap_size_t (BUFSIZE - 0)) prefix) as [b1 r1].
  cbn [fst snd] in *. rewrite Hn1 in *.
  specialize (Hr1 ltac:(unfold INT_MAX; lia)). subst r1.
  change (wrap_size_t (BUFSIZE - 0)) with BUFSIZE in Hi1.
  destruct Hi1 as (Ho1 & _); [done|done|done|unfold INT_MAX; lia|].
  assert (1 <= 2 ^ 64 - 1) by lia.
  assert (Hw1 : wrap_size_t (0 + n1) = n1)
    by (unfold wrap_size_t; apply Z.mod_small; lia).
  rewrite Hw1.
  pose proof (c_snprintf_returns b1 n1 (wrap_size_t (BUFSIZE - n1)) text) as Hr2.
  pose proof (c_snprintf_inside b1 n1 (wrap_size_t (BUFSIZE - n1)) text) as Hi2.
  pose proof (c_snprintf_outside b1 n1 (wrap_size_t (BUFSIZE - n1)) text) as Ho2.
  destruct (c_snprintf b1 n1 (wrap_size_t (BUFSIZE - n1)) text) as [b2 r2].
  cbn [fst snd] in *. rewrite Hn2 in *.
  specialize (Hr2 ltac:(unfold INT_MAX; lia)). subst r2.
  assert (Hw2 : wrap_size_t (n1 + n2) = n1 + n2)
    by (unfold wrap_size_t; apply Z.mod_small; lia).
  rewrite Hw2.
  pose proof (c_snprintf_inside b2 (n1 + n2) (wrap_size_t (BUFSIZE - (n1 + n2)))
                [ascii_of_nat 10]) as Hi3.
  pose proof (c_snprintf_outside b2 (n1 + n2) (wrap_size_t (BUFSIZE - (n1 + n2)))
                [ascii_of_nat 10]) as Ho3.
  pose proof (c_snprintf_keeps_overrun b2 (n1 + n2)
                (wrap_size_t (BUFSIZE - (n1 + n2))) [ascii_of_nat 10]) as Hk3.
  destruct (c_snprintf b2 (n1 + n2) _ [ascii_of_nat 10]) as [b3 r3].
  cbn [fst snd] in *. unfold BUFSIZE in *. unfold wrap_size_t in *.
  destruct (Z_le_gt_dec (n1 + n2) 8192) as [Hfit|Hlong].
  - split; [done|intros _].
    rewrite Z.mod_small in Hi2, Hi3 by lia.
    destruct Hi3 as (-> & _); [lia| lia| lia| cbn; unfold INT_MAX; lia|].
    destruct Hi2 as (-> & _); [lia| lia| lia| unfold INT_MAX; lia|]. done.
  - split; [|lia]. intros Hnone. exfalso.
    destruct (Z_le_gt_dec n1 8192) as [Hfit1|Hlong1].
    + apply Ho3; [lia| |done].
      replace (8192 - (n1 + n2)) with (2 ^ 64 - (n1 + n2 - 8192) + (-1) * 2 ^ 64)
        by lia.
      rewrite Z.mod_add by lia. rewrite Z.mod_small by lia. lia.
    + apply Hk3; [|done]. apply Ho2; [lia|].
      replace (8192 - n1) with (2 ^ 64 - (n1 - 8192) + (-1) * 2 ^ 64) by lia.
      rewrite Z.mod_add by lia. rewrite Z.mod_small by lia. lia.
Qed.

(** When the prefix fits and the body does not, the overrun is the
    newline and its NUL, stored where the body would have ended. *)
Lemma compose_message_overrun_exact verbose funcname filename lineno body garbage :
  let n1 := Z.of_nat (String.length (log_prefix verbose funcname filename lineno)) in
  let n2 := Z.of_nat (String.length body) in
  n1 <= BUFSIZE -> BUFSIZE < n1 + n2 -> n2 <= INT_MAX ->
  overrun (compose_message verbose funcname filename lineno body
             {| cells := garbage; overrun := [] |}) =
  [(n1 + n2, ascii_of_nat 10); (n1 + n2 + 1, zero)].
Proof.
  intros n1 n2 Hfit Hlong Hint. unfold INT_MAX in Hint. unfold compose_message.
  set (prefix := list_ascii_of_string _).
  set (text := list_ascii_of_string body).
  assert (Hn1 : Z.of_nat (length prefix) = n1).
  { subst prefix n1. f_equal. clear.
    induction (log_prefix verbose funcname filename lineno); cbn; congruence. }
  assert (Hn2 : Z.of_nat (length text) = n2).
  { subst text n2. f_equal. clear. induction body; cbn; congruence. }
  clearbody prefix text.
  set (b0 := {| cells := garbage; overrun := [] |}).
  pose proof (c_snprintf_inside b0 0 (wrap_size_t (BUFSIZE - 0)) prefix) as Hi1.
  destruct (c_snprintf b0 0 (wrap_size_t (BUFSIZE - 0)) prefix) as [b1 r1].
  cbn [fst snd] in *.
  change (wrap_size_t (BUFSIZE - 0)) with BUFSIZE in Hi1.
  destruct Hi1 as (Ho1 & ->);
    [done|done|done|rewrite Hn1; unfold INT_MAX, BUFSIZE in *; lia|]. rewrite Hn1.
  unfold BUFSIZE in *.
  assert (Hw1 : wrap_size_t (0 + n1) = n1)
    by (unfold wrap_size_t; apply Z.mod_small; lia).
  rewrite Hw1.
  assert (Hs2 : wrap_size_t (8192 - n1) = 8192 - n1)
    by (unfold wrap_size_t; apply Z.mod_small; lia).
  rewrite Hs2.
  pose proof (c_snprintf_inside b1 n1 (8192 - n1) text) as Hi2.
  destruct (c_snprintf b1 n1 (8192 - n1) text) as [b2 r2].
  cbn [fst snd] in *. unfold BUFSIZE in *.
  destruct Hi2 as (Ho2 & ->); [lia|lia|lia|unfold INT_MAX; lia|]. rewrite Hn2.
  assert (Hw2 : wrap_size_t (n1 + n2) = n1 + n2)
    by (unfold wrap_size_t; apply Z.mod_small; lia).
  rewrite Hw2.
  assert (Hs3 : wrap_size_t (8192 - (n1 + n2)) = 2 ^ 64 - (n1 + n2 - 8192)).
  { unfold wrap_size_t.
    replace (8192 - (n1 + n2)) with (2 ^ 64 - (n1 + n2 - 8192) + (-1) * 2 ^ 64)
      by lia.
    rewrite Z.mod_add by lia. apply Z.mod_small. lia. }
  rewrite Hs3. unfold c_snprintf.
  destruct (Z.eqb_spec (2 ^ 64 - (n1 + n2 - 8192)) 0); [lia|].
  cbn [length Z.leb Z.of_nat Pos.of_succ_nat Z.compare INT_MAX]. rewrite Z.min_r by lia.
  change (take (Z.to_nat (Z.of_nat 1)) [ascii_of_nat 10] ++ [zero])
    with [ascii_of_nat 10; zero].
  cbn [store_all]. rewrite !store_overrun. unfold BUFSIZE.
  destruct (Z.ltb_spec (n1 + n2) 8192); [lia|].
  destruct (Z.ltb_spec (n1 + n2 + 1) 8192); [lia|].
  rewrite !andb_false_r, Ho2, Ho1. done.
Qed.

(** Every frame carries at most PIPE_MAX_PAYLOAD bytes. *)
Lemma write_pipe_chunks_bounded P pid data len :
  Forall (fun c => Z.of_nat (length (proto_data c)) <= Z.pos P)
    (write_pipe_chunks P pid data len).
Proof.
  funelim (write_pipe_chunks P pid data len).
  - constructor; [|done]. cbn. rewrite length_take. lia.
  - constructor; [|constructor]. cbn. rewrite length_take. lia.
Qed.

(** The frames carry the first [len] bytes of the data, in order. *)
Lemma write_pipe_chunks_payload P pid data len :
  0 <= len <= Z.of_nat (length data) ->
  concat (map proto_data (write_pipe_chunks P pid data len)) =
  take (Z.to_nat len) data.
Proof.
  funelim (write_pipe_chunks P pid data len); intros Hlen.
  - cbn [map concat proto_data]. rewrite H.
    + replace (Z.to_nat len) with (Pos.to_nat PIPE_MAX_PAYLOAD
                                    + Z.to_nat (len - Z.pos PIPE_MAX_PAYLOAD))%nat by lia.
      by rewrite take_take_drop.
    + rewrite length_drop. lia.
  - cbn. by rewrite app_nil_r.
Qed.

End LogWriterFacts.

Lemma clserv_log_buffer P cfg garbage funcname filename lineno body :
  fst (__clserv_log P cfg garbage funcname filename lineno body) =
  compose_message (verbose cfg) funcname filename lineno body
    {| cells := garbage; overrun := [] |}.
Proof.
  unfold __clserv_log. destruct (to_stderr cfg); [|done].
  destruct (strlen _); [|done].
  by destruct (redirection_done cfg && negb (am_syslogger cfg)).
Qed.

(** The writes to the pipe are frames of at most PIPE_MAX_PAYLOAD bytes. *)
Lemma clserv_log_frames_bounded P cfg garbage funcname filename lineno body :
  redirection_done cfg && negb (am_syslogger cfg) = true ->
  Forall (fun w => exists p, w = WriteChunk p /\
                     Z.of_nat (length (proto_data p)) <= Z.pos P)
    (snd (__clserv_log P cfg garbage funcname filename lineno body)).
Proof.
  intros Hpipe. unfold __clserv_log. destruct (to_stderr cfg); [|constructor].
  destruct (strlen _) as [len|]; [|constructor]. rewrite Hpipe. cbn [snd].
  apply Forall_forall. intros w Hw.
  apply in_map_iff in Hw as (p & <- & Hp). exists p. split; [done|].
  pose proof (write_pipe_chunks_bounded P (MyProcPid cfg)
                (cells (compose_message (verbose cfg) funcname filename lineno body
                          {| cells := garbage; overrun := [] |})) len) as Hall.
  rewrite Forall_forall in Hall. by apply Hall.
Qed.

(** A message too long for the array makes the routine write past it,
    whatever the settings. *)
Lemma clserv_log_overrun P cfg garbage funcname filename lineno body :
  let n1 := Z.of_nat (String.length
                        (log_prefix (verbose cfg) funcname filename lineno)) in
  let n2 := Z.of_nat (String.length body) in
  n1 <= INT_MAX -> n2 <= INT_MAX ->
  overrun (fst (__clserv_log P cfg garbage funcname filename lineno body)) = []
  <-> n1 + n2 <= BUFSIZE.
Proof.
  intros n1 n2 H1 H2. rewrite clserv_log_buffer. by apply compose_message_overrun.
Qed.

(** ** Progress of the main routine and of the workers *)

(** With the flag set every step brings a worker nearer to its return,
    and uses up what it may still ask of the queue and call. *)
Lemma event_loop_winds_down deq w w' ev :
  pgstrom_opencl_event_loop true deq w = Some (w', ev) ->
  (1 + steps_left (Some w') <= steps_left (Some w))%nat /\
  (length (dequeue_calls [ev]) + dequeues_left (Some w') <= dequeues_left (Some w))%nat /\
  (length (processed [ev]) + callbacks_left (Some w') <= callbacks_left (Some w))%nat.
Proof.
  destruct w; cbn; intros [= <- <-]; try destruct deq; cbn; lia.
Qed.

Section WorkerProgress.
Variable env : environment.

Lemma main_step_blocked s :
  alive s = true -> sys_step env s ActMain = None ->
  exists i, pc s = PC_joining i /\ threads s !! Z.to_nat i <> Some W_exited.
Proof.
  unfold sys_step. intros Halive Hstep. rewrite Halive in Hstep. cbn in Hstep.
  destruct (pgstrom_opencl_main env s) as [mv|] eqn:Hmv; [done|]. clear Hstep.
  unfold pgstrom_opencl_main, move, alive in *.
  destruct (pc s); try discriminate.
  - by destruct (init_opencl_context_and_shmem env) as [evs [[]|fmt]].
  - by destruct (opencl_num_threads s =? 0), (assert_checking env && _).
  - by destruct (malloc_ok env _).
  - by destruct (i <? _); [destruct (pthread_create_ok env i)|].
  - by destruct (i <? _).
  - by destruct (wrap_int (i - 1) >=? 0).
  - exists i. split; [done|]. intros Hw. by rewrite Hw in Hmv.
Qed.

Lemma worker_step_enabled s k deq w w' ev :
  alive s = true -> threads s !! k = Some w ->
  pgstrom_opencl_event_loop (pgstrom_clserv_exit_pending s) deq w = Some (w', ev) ->
  exists s', sys_step env s (ActWorker k deq) = Some s' /\
    alive s' = true /\ pc s' = pc s /\
    threads s' = <[k := w']> (threads s) /\
    pgstrom_clserv_exit_pending s' = pgstrom_clserv_exit_pending s.
Proof.
  intros Halive Hk Hloop.
  destruct (sys_step env s (ActWorker k deq)) as [s'|] eqn:Hstep.
  - exists s'. split; [done|].
    apply worker_step_effect in Hstep
      as (w0 & w0' & ev0 & Hk0 & Hloop0 & Hpc & _ & Hts & _ & _ & Hflag).
    rewrite Hk in Hk0. injection Hk0 as <-.
    rewrite Hloop in Hloop0. injection Hloop0 as <- <-.
    unfold alive in *. by rewrite Hpc.
  - exfalso. unfold sys_step in Hstep. rewrite Halive, Hk in Hstep. cbn in Hstep.
    by rewrite Hloop in Hstep.
Qed.

(** With the flag set a worker can run to its return. *)
Lemma worker_can_exit k : forall n s w,
  (steps_left (Some w) <= n)%nat ->
  alive s = true -> pgstrom_clserv_exit_pending s = true ->
  threads s !! k = Some w ->
  exists sched s',
    sys_run env s sched = Some s' /\
    alive s' = true /\ pc s' = pc s /\
    pgstrom_clserv_exit_pending s' = true /\
    threads s' !! k = Some W_exited /\
    forallb own_step sched = true.
Proof.
  induction n as [|n IH]; intros s w Hn Halive Hflag Hk.
  - destruct w; cbn in Hn; try lia. exists [], s. done.
  - destruct (pgstrom_opencl_event_loop true None w) as [[w' ev]|] eqn:Hloop;
      [|destruct w; try discriminate; by exists [], s].
    destruct (event_loop_winds_down None w w' ev Hloop) as (Hless & _).
    rewrite <- Hflag in Hloop.
    destruct (worker_step_enabled s k None w w' ev Halive Hk Hloop)
      as (s1 & Hstep & Halive1 & Hpc1 & Hts1 & Hflag1).
    destruct (IH s1 w')
      as (sched & s' & Hrun & Halive' & Hpc' & Hflag' & Hk' & Hown);
      [lia|done|congruence| |].
    { rewrite Hts1. apply list_lookup_insert_eq. by eapply lookup_lt_Some. }
    exists (ActWorker k None :: sched), s'. cbn [sys_run]. rewrite Hstep.
    split; [done|]. split; [done|]. split; [congruence|]. done.
Qed.

(** Once the flag is set, what a worker still does is bounded by where
    it stands. *)
Lemma winding_down_step s a s' k :
  pgstrom_clserv_exit_pending s = true -> sys_step env s a = Some s' ->
  exists ext,
    worker_trace k s' = worker_trace k s ++ ext /\
    (length ext + steps_left (threads s' !! k) <= steps_left (threads s !! k))%nat /\
    (length (dequeue_calls ext) + dequeues_left (threads s' !! k)
     <= dequeues_left (threads s !! k))%nat /\
    (length (processed ext) + callbacks_left (threads s' !! k)
     <= callbacks_left (threads s !! k))%nat.
Proof.
  intros Hflag Hstep. destruct a as [|k0 deq|sig|h].
  - apply main_step_effect in Hstep as (mv & _ & _ & _ & Hts & _ & Htr & _).
    exists []. rewrite app_nil_r.
    split; [by eapply worker_trace_other|]. rewrite Hts. cbn [length processed dequeue_calls omap list_omap].
    destruct (mv_started mv); [|lia].
    destruct (threads s !! k) as [w|] eqn:Hk.
    + rewrite (lookup_app_l_Some _ _ _ _ Hk). lia.
    + destruct ((threads s ++ [W_test]) !! k) as [w|] eqn:Hk'; [|cbn; lia].
      apply lookup_app_Some in Hk' as [Hk'|(_ & Hk')]; [congruence|].
      apply list_lookup_singleton_Some in Hk' as (_ & <-). cbn. lia.
  - apply worker_step_effect in Hstep
      as (w & w' & ev & Hk0 & Hloop & _ & _ & Hts & _ & Htr & _).
    rewrite Hflag in Hloop. rewrite Hts.
    destruct (decide (k = k0)) as [->|Hne].
    + exists [ev]. split; [by apply worker_trace_self|].
      rewrite list_lookup_insert_eq by by eapply lookup_lt_Some.
      rewrite Hk0. by eapply event_loop_winds_down.
    + exists []. rewrite app_nil_r. split.
      * eapply (worker_trace_other s s' k (Worker k0) [ev]); [done|].
        cbn. by apply Nat.eqb_neq.
      * rewrite list_lookup_insert_ne by done. cbn. lia.
  - apply signal_step_effect in Hstep as (_ & _ & Hts & _ & Htr & _).
    exists []. rewrite app_nil_r. unfold worker_trace. rewrite Htr, Hts.
    cbn. split; [done|lia].
  - apply handler_step_effect in Hstep
      as (sig & hp & hp' & ev & _ & _ & _ & _ & Hts & _ & Htr & _).
    exists []. rewrite app_nil_r. rewrite Hts.
    split; [by eapply (worker_trace_other s s' k (Handler h) [ev])|cbn; lia].
Qed.

Lemma winding_down_run sched : forall s s' k,
  pgstrom_clserv_exit_pending s = true -> sys_run env s sched = Some s' ->
  exists ext,
    worker_trace k s' = worker_trace k s ++ ext /\
    (length ext + steps_left (threads s' !! k) <= steps_left (threads s !! k))%nat /\
    (length (dequeue_calls ext) + dequeues_left (threads s' !! k)
     <= dequeues_left (threads s !! k))%nat /\
    (length (processed ext) + callbacks_left (threads s' !! k)
     <= callbacks_left (threads s !! k))%nat.
Proof.
  induction sched as [|a sched IH]; intros s s' k Hflag Hrun; cbn in Hrun.
  - injection Hrun as <-. exists []. rewrite app_nil_r. cbn. split; [done|lia].
  - destruct (sys_step env s a) as [s1|] eqn:Hstep; [|done].
    destruct (winding_down_step s a s1 k Hflag Hstep) as (e1 & Ht1 & Hs1 & Hd1 & Hc1).
    destruct (IH s1 s' k (flag_monotone_step env s a s1 Hstep Hflag) Hrun)
      as (e2 & Ht2 & Hs2 & Hd2 & Hc2).
    exists (e1 ++ e2). split; [by rewrite Ht2, Ht1, app_assoc|].
    unfold dequeue_calls, processed in *. rewrite !omap_app, !length_app. lia.
Qed.

(** A step only adds to the trace, and so does a run. *)
Lemma trace_step_extends s a s' :
  sys_step env s a = Some s' -> exists ext, trace s' = trace s ++ ext.
Proof.
  intros Hstep. destruct a as [|k deq|sig|h].
  - apply main_step_effect in Hstep as (mv & _ & _ & _ & _ & _ & Htr & _).
    by eexists.
  - apply worker_step_effect in Hstep
      as (w & w' & ev & _ & _ & _ & _ & _ & _ & Htr & _). by eexists.
  - apply signal_step_effect in Hstep as (_ & _ & _ & _ & Htr & _).
    exists []. by rewrite app_nil_r.
  - apply handler_step_effect in Hstep
      as (sig & hp & hp' & ev & _ & _ & _ & _ & _ & _ & Htr & _). by eexists.
Qed.

Lemma trace_run_extends sched : forall s s',
  sys_run env s sched = Some s' -> exists ext, trace s' = trace s ++ ext.
Proof.
  induction sched as [|a sched IH]; intros s s' Hrun; cbn in Hrun.
  - injection Hrun as <-. exists []. by rewrite app_nil_r.
  - destruct (sys_step env s a) as [s1|] eqn:Hstep; [|done].
    destruct (trace_step_extends s a s1 Hstep) as (e1 & H1).
    destruct (IH s1 s' Hrun) as (e2 & H2).
    exists (e1 ++ e2). by rewrite H2, H1, app_assoc.
Qed.

(** What the main routine has done stays in its trace. *)
Lemma main_trace_kept s sched s' e :
  sys_run env s sched = Some s' -> In e (main_trace s) -> In e (main_trace s').
Proof.
  intros Hrun Hin. destruct (trace_run_extends sched s s' Hrun) as (ext & Hext).
  unfold main_trace in *. rewrite Hext, events_of_app.
  apply in_or_app. by left.
Qed.

(** Only the main routine moves its program counter. *)
Lemma pc_step_other s a s' :
  sys_step env s a = Some s' -> a <> ActMain -> pc s' = pc s.
Proof.
  intros Hstep Ha. destruct a as [|k deq|sig|h]; [done|..].
  - by apply worker_step_effect in Hstep
      as (w & w' & ev & _ & _ & Hpc & _).
  - by apply signal_step_effect in Hstep as (Hpc & _).
  - by apply handler_step_effect in Hstep
      as (sig & hp & hp' & ev & _ & _ & Hpc & _).
Qed.

End WorkerProgress.

Section MainProgress.
Variable env : environment.
Hypothesis configured_ok :
  guc_accepts pgstrom_init_opencl_server (configured_num_threads env).

Lemma main_step_decreases s s' :
  reachable env s -> sys_step env s ActMain = Some s' ->
  let N := Z.max 0 (resolved_num_threads env) in
  0 <= main_steps_left N (pc s') < main_steps_left N (pc s).
Proof.
  intros Hreach Hstep N.
  pose proof (main_inv_reachable env configured_ok s Hreach) as Hinv.
  pose proof (resolved_in_int env configured_ok) as Hint.
  unfold in_int, INT_MIN, INT_MAX in Hint.
  apply main_step_effect in Hstep as (mv & Hmv & -> & _).
  unfold pgstrom_opencl_main, move in Hmv.
  by_pc Hinv.
  all: repeat match type of Hmv with
              | context [match ?x with _ => _ end] => destruct x eqn:?
              | context [if ?x then _ else _] => destruct x eqn:?
              end;
    try discriminate; injection Hmv as <-; cbn [mv_pc main_steps_left]; subst N.
  all: try lia.
  all: try match goal with
           | H : started _ _ |- _ => destruct H as (_ & Hn & _ & _ & _ & Hle)
           end; cbv zeta in *.
  - apply Z.ltb_lt in Heqb.
    rewrite wrap_int_id by (unfold in_int, INT_MIN, INT_MAX; lia). lia.
  - lia.
  - lia.
  - apply Z.geb_le in Heqb.
    pose proof (wrap_int_range (i - 1)) as Hr.
    unfold in_int, INT_MIN, INT_MAX in Hr.
    destruct Hinv1 as ((_ & _ & _ & _ & _ & Hle) & _). cbv zeta in Hle.
    rewrite wrap_int_id in * by (unfold in_int, INT_MIN, INT_MAX; lia). lia.
Qed.

(** What is left of the main routine bounds the steps it takes in any
    run. *)
Lemma main_steps_bounded sched : forall s s',
  reachable env s -> sys_run env s sched = Some s' ->
  let N := Z.max 0 (resolved_num_threads env) in
  Z.of_nat (main_steps sched) + main_steps_left N (pc s')
  <= main_steps_left N (pc s).
Proof.
  induction sched as [|a sched IH]; intros s s' Hreach Hrun N; cbn in Hrun.
  - injection Hrun as <-. cbn. lia.
  - destruct (sys_step env s a) as [s1|] eqn:Hstep; [|done].
    pose proof (IH s1 s' (reachable_step env s a s1 Hreach Hstep) Hrun) as Hrest.
    cbv zeta in Hrest. fold N in Hrest.
    destruct a as [|k deq|sig|h]; cbn [main_steps].
    2-4: rewrite (pc_step_other env s _ s1 Hstep ltac:(done)) in Hrest; lia.
    pose proof (main_step_decreases s s1 Hreach Hstep) as Hless.
    cbv zeta in Hless. fold N in Hless. lia.
Qed.

(** Once the flag is set the main routine can be brought to its end,
    by its own steps and those of the threads it waits for. *)
Lemma shutdown_from_flag : forall (m : nat) s,
  reachable env s -> pgstrom_clserv_exit_pending s = true ->
  main_steps_left (Z.max 0 (resolved_num_threads env)) (pc s) <= Z.of_nat m ->
  exists sched s',
    sys_run env s sched = Some s' /\ alive s' = false /\
    forallb own_step sched = true.
Proof.
  induction m as [|m IH]; intros s Hreach Hflag Hm.
  all: destruct (alive s) eqn:Halive; [|by exists [], s].
  all: assert (Hnext : exists sched1 s1 s2,
         sys_run env s sched1 = Some s1 /\ reachable env s1 /\
         pc s1 = pc s /\ pgstrom_clserv_exit_pending s1 = true /\
         sys_step env s1 ActMain = Some s2 /\
         forallb own_step sched1 = true).
  1,3: destruct (sys_step env s ActMain) as [s2|] eqn:Hmain;
    [by exists [], s, s2|];
    destruct (main_step_blocked env s Halive Hmain) as (i & Hpc & Hw);
    pose proof (main_inv_reachable env configured_ok s Hreach) as Hinv;
    unfold main_inv in Hinv; rewrite Hpc in Hinv; cbv zeta in Hinv;
    destruct Hinv as (Hi & _);
    destruct (lookup_lt_is_Some_2 (threads s) (Z.to_nat i) ltac:(lia)) as (w & Hk);
    destruct (worker_can_exit env (Z.to_nat i) 4 s w) as
      (sched1 & s1 & Hrun1 & Halive1 & Hpc1 & Hflag1 & Hk1 & Hown1);
    [destruct w; cbn; lia|done|done|done|];
    destruct (sys_step env s1 ActMain) as [s2|] eqn:Hmain1;
    [exists sched1, s1, s2; split; [done|]; split; [by eapply reachable_run|done]|];
    destruct (main_step_blocked env s1 Halive1 Hmain1) as (i' & Hpc' & Hw');
    rewrite Hpc1, Hpc in Hpc'; injection Hpc' as <-; by rewrite Hk1 in Hw'.
  all: destruct Hnext
         as (sched1 & s1 & s2 & Hrun1 & Hreach1 & Hpc1 & Hflag1 & Hmain & Hown1).
  all: pose proof (main_step_decreases s1 s2 Hreach1 Hmain) as Hless;
    cbv zeta in Hless; rewrite Hpc1 in Hless.
  - lia.
  - destruct (IH s2) as (sched2 & s' & Hrun2 & Hdone & Hown2);
      [by eapply reachable_step|by eapply flag_monotone_step|lia|].
    exists (sched1 ++ ActMain :: sched2), s'.
    rewrite sys_run_app, Hrun1. cbn [sys_run]. rewrite Hmain.
    split; [done|]. split; [done|].
    rewrite forallb_app, Hown1. cbn. exact Hown2.
Qed.

End MainProgress.

(** ** The worker and the queue *)

Section WorkerAndQueue.
Variable env : environment.

(** A step of the process adds to the calls of the queue worker [k] has
    made exactly what the queue gave it in that step. *)
Lemma dequeue_calls_step s a s' k :
  sys_step env s a = Some s' ->
  dequeue_calls (worker_trace k s') =
  dequeue_calls (worker_trace k s) ++ answer_to k s a.
Proof.
  intros Hstep. destruct a as [|k0 deq|sig|h]; cbn [answer_to].
  - apply main_step_effect in Hstep as (mv & _ & _ & _ & _ & _ & Htr & _).
    rewrite app_nil_r. f_equal. by eapply worker_trace_other.
  - apply worker_step_effect in Hstep
      as (w & w' & ev & Hk0 & Hloop & _ & _ & _ & _ & Htr & _).
    destruct (Nat.eqb_spec k0 k) as [->|Hne].
    + rewrite (worker_trace_self s s' k ev Htr), Hk0.
      unfold dequeue_calls. rewrite omap_app.
      destruct w; cbn in Hloop; try discriminate;
        injection Hloop as <- <-; cbn; by rewrite ?app_nil_r.
    + assert (Hsame : worker_trace k s' = worker_trace k s).
      { eapply (worker_trace_other s s' k (Worker k0) [ev]); [done|].
        cbn. apply Nat.eqb_neq. congruence. }
      rewrite Hsame. destruct (threads s !! k) as [[]|]; by rewrite app_nil_r.
  - apply signal_step_effect in Hstep as (_ & _ & _ & _ & Htr & _).
    rewrite app_nil_r. unfold worker_trace. by rewrite Htr.
  - apply handler_step_effect in Hstep
      as (sig & hp & hp' & ev & _ & _ & _ & _ & _ & _ & Htr & _).
    rewrite app_nil_r. f_equal.
    by eapply (worker_trace_other s s' k (Handler h) [ev]).
Qed.

Lemma dequeue_calls_run k sched : forall s s',
  sys_run env s sched = Some s' ->
  dequeue_calls (worker_trace k s') =
  dequeue_calls (worker_trace k s) ++ handed_out env k s sched.
Proof.
  induction sched as [|a sched IH]; intros s s' Hrun; cbn in Hrun |- *.
  - injection Hrun as <-. by rewrite app_nil_r.
  - destruct (sys_step env s a) as [s1|] eqn:Hstep; [|done].
    by rewrite (IH s1 s' Hrun), (dequeue_calls_step s a s1 k Hstep), app_assoc.
Qed.

(** From the start of the process: the calls of the queue in the trace
    of worker [k] are the answers the queue gave it. *)
Lemma dequeue_calls_handed_out k sched s :
  sys_run env (initial env) sched = Some s ->
  dequeue_calls (worker_trace k s) = handed_out env k (initial env) sched.
Proof. intros Hrun. by rewrite (dequeue_calls_run k sched _ _ Hrun). Qed.

End WorkerAndQueue.

Lemma dequeued_dequeue_calls t : dequeued t = messages (dequeue_calls t).
Proof.
  unfold dequeued, messages, dequeue_calls.
  induction t as [|e t IH]; [done|].
  destruct e; cbn; try done. destruct msg; cbn; by rewrite ?IH.
Qed.

(* ================================================================== *)
(** * Part III: the claims *)
(* ================================================================== *)



(** C8: the zone length handed to [pgstrom_setup_shmem] is the least
    [dev_max_mem_alloc_size] of the registered devices, capped by
    LONG_MAX.  The start-up code calls [pgstrom_setup_shmem] exactly
    when the context and every command queue were created, and then with
    that length; the length is LONG_MAX for an empty registry, is at most
    the limit of every device, and is LONG_MAX or the limit of some
    device. *)
Theorem zone_length_is_least_alloc_size env :
  let devs := opencl_device_info env in
  let t := fst (init_opencl_context_and_shmem env) in
  (forall z, In (EvSetupShmem z) t <->
     z = min_alloc_size devs /\
     clCreateContext_ok env = true /\
     forall j, 0 <= j < opencl_num_devices env ->
               clCreateCommandQueue_ok env j = true) /\
  (devs = [] -> min_alloc_size devs = LONG_MAX) /\
  (forall d, In d devs -> min_alloc_size devs <= dev_max_mem_alloc_size d) /\
  min_alloc_size devs <= LONG_MAX /\
  (min_alloc_size devs = LONG_MAX \/
   exists d, In d devs /\ min_alloc_size devs = dev_max_mem_alloc_size d).
Proof.
  intros devs t. split; [|split; [|split; [|split]]].
  - intros z. subst t.
    destruct (init_opencl_cases env)
      as [(Hctx & ->)|[(Hctx & j & Hj & Hbefore & Hfail & ->)|(Hctx & Hall & Heq)]].
    + cbn. split; [intros [?|[?|?]]; done|]. rewrite Hctx. by intros (_ & ? & _).
    + cbn [fst]. split.
      * intros [?|Hin]; [done|]. apply in_app_iff in Hin as [Hin|[?|[?|?]]]; try done.
        by apply in_map_iff in Hin as (? & ? & _).
      * intros (_ & _ & Hall). rewrite Hall in Hfail; [done|lia].
    + cbv zeta in Heq. rewrite Heq. cbn [fst]. split.
      * intros [?|Hin]; [done|]. apply in_app_iff in Hin as [Hin|[?|[Hin|Hin]]].
        -- by apply in_map_iff in Hin as (? & ? & _).
        -- done.
        -- by injection Hin as <-.
        -- by apply setup_zones_no_setup in Hin.
      * intros (-> & _). right. apply in_app_iff. right. right. by left.
  - intros Hnil. subst devs. by rewrite Hnil.
  - intros d Hd. apply fold_min_le_elem. by apply in_map.
  - apply fold_min_le.
  - destruct (fold_min_attained (map dev_max_mem_alloc_size devs) LONG_MAX)
      as [H|(x & Hx & H)]; [by left|right].
    apply in_map_iff in Hx as (d & <- & Hd). by exists d.
Qed.

Example zone_length_sample :
  In (EvSetupShmem 536870912) (fst (init_opencl_context_and_shmem sample_env)).
Proof. vm_compute. tauto. Qed.

Lemma handler_step_enabled env s h sig hp hp' ev :
  alive s = true -> handlers s !! h = Some (sig, hp) ->
  handler_of sig hp = Some (hp', ev) ->
  exists s', sys_step env s (ActHandler h) = Some s' /\
    alive s' = true /\ pc s' = pc s /\ threads s' = threads s /\
    handlers s' !! h = Some (sig, hp') /\
    trace s' = trace s ++ [(Handler h, ev)] /\
    pgstrom_clserv_exit_pending s' =
      match ev with EvWriteExitPending v => v | _ => pgstrom_clserv_exit_pending s end.
Proof.
  intros Halive Hh Hcode.
  destruct (sys_step env s (ActHandler h)) as [s'|] eqn:Hstep.
  - exists s'. split; [done|].
    apply handler_step_effect in Hstep
      as (sig0 & hp0 & hp0' & ev0 & Hh0 & Hcode0 & Hpc & _ & Hts & Hhs & Htr & Hflag).
    rewrite Hh in Hh0. injection Hh0 as <- <-.
    rewrite Hcode in Hcode0. injection Hcode0 as <- <-.
    repeat split; try done.
    + unfold alive in *. by rewrite Hpc.
    + rewrite Hhs. apply list_lookup_insert_eq. by eapply lookup_lt_Some.
  - exfalso. unfold sys_step in Hstep. rewrite Halive, Hh in Hstep. cbn in Hstep.
    by rewrite Hcode in Hstep.
Qed.

(** A signal delivered and handled to the end leaves the flag set,
    whichever of the two signals it was, and changes neither the main
    routine nor the threads. *)
Lemma signal_sets_flag env s sig :
  alive s = true -> signals_unblocked s = true ->
  exists s',
    sys_run env s
      [ActSignal sig; ActHandler (length (handlers s));
       ActHandler (length (handlers s)); ActHandler (length (handlers s))]
    = Some s' /\
    pgstrom_clserv_exit_pending s' = true /\
    pc s' = pc s /\ threads s' = threads s /\
    trace s' = trace s ++ map (pair (Handler (length (handlers s))))
                            (handler_run 4 sig H_flag).
Proof.
  intros Halive Hsig. set (h := length (handlers s)).
  destruct (sys_step env s (ActSignal sig)) as [s0|] eqn:Hs0;
    [|unfold sys_step in Hs0; by rewrite Halive, Hsig in Hs0].
  pose proof Hs0 as Hs0'.
  apply signal_step_effect in Hs0' as (Hpc0 & _ & Hts0 & Hhs0 & Htr0 & Hflag0).
  assert (Halive0 : alive s0 = true) by (unfold alive in *; by rewrite Hpc0).
  assert (Hh0 : handlers s0 !! h = Some (sig, H_flag))
    by (rewrite Hhs0; by apply list_lookup_middle).
  destruct (handler_step_enabled env s0 h sig H_flag H_cancel (EvWriteExitPending true))
    as (s1 & Hs1 & Halive1 & Hpc1 & Hts1 & Hh1 & Htr1 & Hflag1);
    [done|done|by destruct sig|].
  destruct (handler_step_enabled env s1 h sig H_cancel H_log EvCancelServerLoop)
    as (s2 & Hs2 & Halive2 & Hpc2 & Hts2 & Hh2 & Htr2 & Hflag2);
    [done|done|by destruct sig|].
  destruct (handler_step_enabled env s2 h sig H_log H_done
              (EvClservLog (match sig with SIGHUP => "Got SIGHUP"
                                         | SIGTERM => "Got SIGTERM" end)))
    as (s3 & Hs3 & Halive3 & Hpc3 & Hts3 & Hh3 & Htr3 & Hflag3);
    [done|done|by destruct sig|].
  exists s3. cbn [sys_run]. rewrite Hs0, Hs1, Hs2, Hs3.
  split; [done|]. split; [by rewrite Hflag3, Hflag2, Hflag1|].
  split; [congruence|]. split; [congruence|].
  rewrite Htr3, Htr2, Htr1, Htr0, <- !app_assoc. by destruct sig.
Qed.

(** C7: the two signals have the same effect on the shutdown state, and
    the flag is monotone.  Each handler writes [true] to the flag, then
    requests the cancellation of the server loop, then logs; the two
    differ in the text they log and in nothing else.  A signal handled
    leaves the flag set.  The flag starts unset; no step of the process
    takes it from set to unset, along any schedule; every write to it,
    by the handlers or by the main routine, stores [true]; and it is set
    exactly when a write has happened. *)
Theorem signals_request_shutdown env :
  handler_run 4 SIGTERM H_flag =
    [EvWriteExitPending true; EvCancelServerLoop; EvClservLog "Got SIGTERM"] /\
  handler_run 4 SIGHUP H_flag =
    [EvWriteExitPending true; EvCancelServerLoop; EvClservLog "Got SIGHUP"] /\
  (forall s sig, alive s = true -> signals_unblocked s = true ->
     exists s',
       sys_run env s
         [ActSignal sig; ActHandler (length (handlers s));
          ActHandler (length (handlers s)); ActHandler (length (handlers s))]
       = Some s' /\
       pgstrom_clserv_exit_pending s' = true /\
       pc s' = pc s /\ threads s' = threads s /\
       trace s' = trace s ++ map (pair (Handler (length (handlers s))))
                               (handler_run 4 sig H_flag)) /\
  pgstrom_clserv_exit_pending (initial env) = false /\
  (forall s a s', sys_step env s a = Some s' ->
     pgstrom_clserv_exit_pending s = true ->
     pgstrom_clserv_exit_pending s' = true) /\
  (forall s sched s', sys_run env s sched = Some s' ->
     pgstrom_clserv_exit_pending s = true ->
     pgstrom_clserv_exit_pending s' = true) /\
  (forall s, reachable env s ->
     Forall (fun v => v = true) (flag_writes (map snd (trace s))) /\
     (pgstrom_clserv_exit_pending s = true <->
      flag_writes (map snd (trace s)) <> [])).
Proof.
  split; [reflexivity|]. split; [reflexivity|].
  split; [apply signal_sets_flag|]. split; [reflexivity|].
  split; [apply flag_monotone_step|].
  split; [intros s sched s'; apply flag_monotone_run|].
  apply flag_written.
Qed.

Lemma no_worker_events t :
  (forall k, events_of (is_worker_k k) t = []) -> events_of is_worker t = [].
Proof.
  induction t as [|[a e] t IH]; [done|]. intros H.
  assert (Ht : forall k, events_of (is_worker_k k) t = []).
  { intros k. specialize (H k). cbn in H.
    destruct (is_worker_k k a); [done|exact H]. }
  destruct a as [|k|h]; cbn; try by apply IH.
  specialize (H k). cbn in H. by rewrite Nat.eqb_refl in H.
Qed.

Lemma sample_configured_ok :
  guc_accepts pgstrom_init_opencl_server (configured_num_threads sample_env).
Proof. by vm_compute. Defined.

Ltac find_init_ok :=
  first
    [ assumption
    | match goal with
      | H : started _ _ |- _ => exact (proj1 H)
      | H : spawn_over _ _ |- _ => exact (proj1 (proj1 H))
      end ].

Section MainRoutineClaims.
Variable env : environment.
Hypothesis configured_ok :
  guc_accepts pgstrom_init_opencl_server (configured_num_threads env).

(** C10: when the allocation of the thread handles fails, the main
    routine logs "out of memory" and returns at once.  In a state whose
    trace holds the failed [malloc], the routine has returned; its last
    two events are that [malloc] and the log line; no thread exists and
    none was ever created or ran; the server queue was not closed; and
    the process takes no further step. *)
Theorem out_of_memory_returns_at_once s size :
  reachable env s -> In (EvMalloc size false) (main_trace s) ->
  pc s = PC_returned /\
  size = malloc_size env /\
  main_trace s =
    at_malloc env ++ [EvMalloc size false; EvElog LOG "out of memory"] /\
  threads s = [] /\
  creations (main_trace s) = [] /\
  events_of is_worker (trace s) = [] /\
  ~ In EvCloseServerQueue (main_trace s) /\
  (forall a, sys_step env s a = None).
Proof.
  intros Hreach Hin.
  pose proof (worker_inv_reachable env s Hreach) as Hw.
  pose proof (main_inv_reachable env configured_ok s Hreach) as Hinv.
  assert (Hsize := Hin).
  eapply (In_omap (fun e => match e with
                            | EvMalloc sz false => Some sz
                            | _ => None
                            end)) in Hsize; [|done].
  by_pc Hinv; try (revert Hsize; project; by intros []).
  assert (size = malloc_size env) as ->
    by (revert Hsize; clear; project; by intros [<-|[]]).
  split; [done|]. split; [done|]. split; [done|]. split; [done|].
  split; [unfold creations; by project|].
  split; [|split].
  - apply no_worker_events. intros k. specialize (Hw k).
    by rewrite Hinv0 in Hw.
  - intros Hclose.
    eapply (In_omap (fun e => match e with
                              | EvCloseServerQueue => Some tt
                              | _ => None
                              end)) in Hclose; [|done].
    revert Hclose. project. by intros [].
  - intros a. unfold sys_step, alive. by rewrite Hpc.
Qed.

Lemma join_events_split c i :
  0 <= i <= c -> join_events c 0 = join_events c i ++ join_events i 0.
Proof.
  intros Hi. unfold join_events. rewrite <- map_app, <- reverse_app.
  do 2 f_equal. replace (c - 0) with (i + (c - i)) by lia.
  rewrite seqZ_app by lia. do 2 f_equal; lia.
Qed.

Lemma flag_set_after_write s a :
  reachable env s -> In (a, EvWriteExitPending true) (trace s) ->
  pgstrom_clserv_exit_pending s = true.
Proof.
  intros Hreach Hin. apply (flag_written env s Hreach).
  apply (in_map snd) in Hin. cbn in Hin.
  eapply (In_omap (fun e => match e with
                            | EvWriteExitPending v => Some v
                            | _ => None
                            end)) in Hin; [|done].
  unfold flag_writes. intros E. by rewrite E in Hin.
Qed.

(** The trace of a start-up that failed at thread [c], at the program
    points that follow the failure. *)
Lemma failed_startup_prefixes c i :
  c < resolved_num_threads env -> 0 <= i <= c ->
  at_spawned env c `prefix_of` failed_startup_trace env c /\
  at_spawned env c ++ [WorkerStartupFailed]
    `prefix_of` failed_startup_trace env c /\
  at_spawned env c ++ [WorkerStartupFailed; EvWriteExitPending true]
    `prefix_of` failed_startup_trace env c /\
  at_join env c i `prefix_of` failed_startup_trace env c /\
  at_close env c `prefix_of` failed_startup_trace env c /\
  at_return env c = failed_startup_trace env c.
Proof.
  intros Hlt Hi. apply Z.ltb_lt in Hlt.
  unfold failed_startup_trace, at_return, at_close, at_join, at_spawned,
    failed_events, announce_events, WorkerStartupFailed.
  rewrite Hlt, <- !app_assoc. cbn [app].
  repeat split; try (apply prefix_app; repeat apply prefix_cons).
  - apply prefix_nil.
  - apply prefix_nil.
  - apply prefix_nil.
  - rewrite (join_events_split c i) by done. rewrite <- app_assoc.
    apply prefix_app_r. done.
  - apply prefix_app. apply prefix_cons, prefix_nil.
Qed.

(** Where the process stands once the creation of thread [i] has
    failed. *)
Lemma failed_startup_state s i :
  reachable env s -> In (EvPthreadCreate i false) (main_trace s) ->
  i = Z.of_nat (length (threads s)) /\ i < resolved_num_threads env /\
  creations (main_trace s) = map (fun k => (k, true)) (seqZ 0 i) ++ [(i, false)] /\
  main_trace s `prefix_of` failed_startup_trace env i /\
  (pc s = PC_returned ->
   main_trace s = failed_startup_trace env i /\
   pgstrom_clserv_exit_pending s = true /\ all_exited (threads s)).
Proof.
  intros Hreach Hin.
  pose proof (main_inv_reachable env configured_ok s Hreach) as Hinv.
  eapply (In_omap (fun e => match e with
                            | EvPthreadCreate k false => Some k
                            | _ => None
                            end)) in Hin; [|done].
  by_pc Hinv; try (revert Hin; project; by intros []);
    (assert (Hi : i = Z.of_nat (length (threads s)) /\
                  (Z.of_nat (length (threads s)) <? resolved_num_threads env) = true)
     by (revert Hin; clear; project;
         destruct (_ <? _); cbn; [by intros [<-|[]]|by intros []]));
    destruct Hi as [-> Hlt]; pose proof Hlt as Hlt'; apply Z.ltb_lt in Hlt';
    (split; [done|]); (split; [done|]);
    (split; [unfold creations; project; by rewrite Hlt|]).
  all: match goal with
       | H : 0 <= ?j <= _ |- _ =>
           pose proof (failed_startup_prefixes _ j Hlt' H) as (P1 & P2 & P3 & P4 & P5 & P6)
       | H : 0 <= ?j < _ |- _ =>
           pose proof (failed_startup_prefixes _ (j + 1) Hlt' ltac:(lia))
             as (P1 & P2 & P3 & P4 & P5 & P6)
       | _ =>
           pose proof (failed_startup_prefixes _ 0 Hlt' ltac:(lia))
             as (P1 & P2 & P3 & P4 & P5 & P6)
       end.
  all: try (split; [done|by intros [=]]).
  split; [by rewrite P6|]. intros _. split; [done|]. split; [by apply Hinv1|].
  intros k w Hk. apply (Hinv2 k w). lia. done.
Qed.

(** The program point after a failed creation of thread [i]: the
    routine is about to report the failure or to set the flag, or the
    flag is set; from the first join on the cancellation of the server
    loop has been requested; a thread being joined is one of those
    started. *)
Lemma failed_startup_point s i :
  reachable env s -> In (EvPthreadCreate i false) (main_trace s) ->
  match pc s with
  | PC_spawned j | PC_fail_flag j => j = i
  | PC_fail_cancel j => j = i /\ pgstrom_clserv_exit_pending s = true
  | PC_join j =>
      0 <= j <= i /\ pgstrom_clserv_exit_pending s = true /\
      In EvCancelServerLoop (main_trace s)
  | PC_joining j =>
      0 <= j < i /\ pgstrom_clserv_exit_pending s = true /\
      In EvCancelServerLoop (main_trace s)
  | PC_stopping | PC_close | PC_returned =>
      pgstrom_clserv_exit_pending s = true /\
      In EvCancelServerLoop (main_trace s)
  | _ => False
  end.
Proof.
  intros Hreach Hin.
  destruct (failed_startup_state s i Hreach Hin) as (Hi & Hlt & _).
  pose proof (main_inv_reachable env configured_ok s Hreach) as Hinv.
  eapply (In_omap (fun e => match e with
                            | EvPthreadCreate k false => Some k
                            | _ => None
                            end)) in Hin; [|done].
  assert (Hltb : (Z.of_nat (length (threads s)) <? resolved_num_threads env) = true)
    by (apply Z.ltb_lt; lia).
  assert (Hcancel : forall j,
            In EvCancelServerLoop (at_join env (Z.of_nat (length (threads s))) j)).
  { intros j. unfold at_join, announce_events.
    rewrite Hltb, !in_app_iff. cbn. tauto. }
  by_pc Hinv; try (revert Hin; project; by intros []); clear Hin.
  all: repeat split; try lia; try assumption;
    try (match goal with
         | H : shutdown_requested _ _ |- _ => apply H; lia
         end);
    unfold at_return, at_close; rewrite ?in_app_iff; auto.
Qed.

(** After a failed creation the main routine sets the flag by itself:
    nothing it does on the way there can block. *)
Lemma failed_startup_sets_flag i : forall (m : nat) s,
  reachable env s -> In (EvPthreadCreate i false) (main_trace s) ->
  main_steps_left (Z.max 0 (resolved_num_threads env)) (pc s) <= Z.of_nat m ->
  exists sched s1,
    sys_run env s sched = Some s1 /\ pgstrom_clserv_exit_pending s1 = true /\
    forallb own_step sched = true.
Proof.
  induction m as [|m IH]; intros s Hreach Hin Hm.
  all: destruct (pgstrom_clserv_exit_pending s) eqn:Hflag; [by exists [], s|].
  all: pose proof (failed_startup_point s i Hreach Hin) as Hpoint.
  all: assert (Halive : alive s = true)
         by (unfold alive; destruct (pc s); try done;
             destruct Hpoint; congruence).
  all: destruct (sys_step env s ActMain) as [s2|] eqn:Hmain;
    [|destruct (main_step_blocked env s Halive Hmain) as (j & Hpc & _);
      rewrite Hpc in Hpoint; destruct Hpoint as (_ & ? & _); congruence].
  all: pose proof (main_step_decreases env configured_ok s s2 Hreach Hmain) as Hless;
    cbv zeta in Hless.
  - lia.
  - destruct (IH s2) as (sched & s1 & Hrun & Hset & Hown);
      [by eapply reachable_step
      |apply (main_trace_kept env s [ActMain] s2); [cbn; by rewrite Hmain|done]
      |lia|].
    exists (ActMain :: sched), s1. cbn [sys_run]. rewrite Hmain. done.
Qed.

(** C3: a failed thread creation ends the start-up as a whole.  In a
    state whose trace holds the failed creation of thread [i]: the
    threads started are 0 .. i-1 and no creation followed the failed
    one; what the main routine does from the failure on is, in this
    order, to report WorkerStartupFailed, set the shutdown flag, request
    the cancellation of the server loop, join the threads i-1 .. 0, log
    the stop and close the queue (its trace is a prefix of that list, and
    the whole list once it has returned); the flag stays set from its
    write on; when the routine has returned every thread has returned;
    no joined thread does anything after its join, and nothing happens
    after the close.

    The shutdown also makes its way.  Until the routine has returned,
    its next step is enabled, unless it waits in [pthread_join] for one
    of the threads 0 .. i-1 that has not returned yet: then the flag is
    set, the cancellation has been requested, and that thread can take
    its next step whatever the queue answers.  In any continuation the
    routine takes at most 2 i + 6 further steps; and once the flag is
    set a thread takes at most four further steps and calls at most one
    more callback, that of the message it holds.  And there is a
    continuation, made of steps of the routine and of the threads alone,
    with no message handed out and no signal, at the end of which the
    routine has returned, having done all of the list above, with the
    flag set and every thread returned.  The queue is taken to let a
    waiting thread go, which is what the cancellation asks of it. *)
Theorem failed_thread_creation_shuts_down s i :
  reachable env s -> In (EvPthreadCreate i false) (main_trace s) ->
  Z.of_nat (length (threads s)) = i /\
  creations (main_trace s) = map (fun k => (k, true)) (seqZ 0 i) ++ [(i, false)] /\
  main_trace s `prefix_of` failed_startup_trace env i /\
  (In (EvWriteExitPending true) (main_trace s) ->
   pgstrom_clserv_exit_pending s = true) /\
  (pc s = PC_returned ->
   main_trace s = failed_startup_trace env i /\
   pgstrom_clserv_exit_pending s = true /\
   all_exited (threads s)) /\
  (forall k pre post,
     trace s = pre ++ (Main, EvPthreadJoin (Z.of_nat k)) :: post ->
     events_of (is_worker_k k) post = []) /\
  (forall pre post,
     trace s = pre ++ (Main, EvCloseServerQueue) :: post -> post = []) /\
  (pc s <> PC_returned ->
   is_Some (sys_step env s ActMain) \/
   exists j w,
     pc s = PC_joining j /\ 0 <= j < i /\
     threads s !! Z.to_nat j = Some w /\ w <> W_exited /\
     pgstrom_clserv_exit_pending s = true /\
     In EvCancelServerLoop (main_trace s) /\
     forall deq, is_Some (sys_step env s (ActWorker (Z.to_nat j) deq))) /\
  (forall sched s',
     sys_run env s sched = Some s' ->
     Z.of_nat (main_steps sched) <= 2 * i + 6) /\
  (pgstrom_clserv_exit_pending s = true ->
   forall sched s' k,
     sys_run env s sched = Some s' ->
     exists ext,
       worker_trace k s' = worker_trace k s ++ ext /\
       (length ext <= 4)%nat /\ (length (processed ext) <= 1)%nat) /\
  (exists sched s',
     sys_run env s sched = Some s' /\ forallb own_step sched = true /\
     pc s' = PC_returned /\
     main_trace s' = failed_startup_trace env i /\
     pgstrom_clserv_exit_pending s' = true /\
     all_exited (threads s')).
Proof.
  intros Hreach Hin.
  destruct (failed_startup_state s i Hreach Hin) as (Hi & Hlt & Hcre & Hpre & Hret).
  pose proof (failed_startup_point s i Hreach Hin) as Hpoint.
  set (N := Z.max 0 (resolved_num_threads env)).
  split; [done|]. split; [done|]. split; [done|].
  split; [intros Hw; eapply flag_set_after_write; [done|by apply In_main_trace]|].
  split; [done|].
  split; [apply (joined_worker_silent env configured_ok s Hreach)|].
  split; [apply (nothing_after_close env configured_ok s Hreach)|].
  split; [|split; [|split]].
  - (* the next step *)
    intros Hnot.
    assert (Halive : alive s = true)
      by (unfold alive; destruct (pc s); try done; destruct Hpoint).
    destruct (sys_step env s ActMain) as [s2|] eqn:Hmain; [left; by eexists|].
    right. destruct (main_step_blocked env s Halive Hmain) as (j & Hpc & Hw).
    rewrite Hpc in Hpoint. destruct Hpoint as (Hj & Hflag & Hcancel).
    destruct (lookup_lt_is_Some_2 (threads s) (Z.to_nat j) ltac:(lia)) as (w & Hk).
    exists j, w. split; [done|]. split; [done|]. split; [done|].
    split; [congruence|]. split; [done|]. split; [done|].
    intros deq.
    destruct (pgstrom_opencl_event_loop (pgstrom_clserv_exit_pending s) deq w)
      as [[w' ev]|] eqn:Hloop; [|destruct w; try discriminate; congruence].
    destruct (worker_step_enabled env s (Z.to_nat j) deq w w' ev Halive Hk Hloop)
      as (s1 & -> & _). by eexists.
  - (* the steps left *)
    intros sched s' Hrun.
    pose proof (main_steps_bounded env configured_ok sched s s' Hreach Hrun) as Hb.
    cbv zeta in Hb. fold N in Hb.
    pose proof (failed_startup_point s' i
                  (reachable_run env s sched s' Hreach Hrun)
                  (main_trace_kept env s sched s' _ Hrun Hin)) as Hpoint'.
    assert (0 <= main_steps_left N (pc s'))
      by (destruct (pc s'); try done; cbn [main_steps_left]; lia).
    assert (main_steps_left N (pc s) <= 2 * i + 6)
      by (destruct (pc s); try done; cbn [main_steps_left]; lia).
    lia.
  - (* the threads wind down *)
    intros Hflag sched s' k Hrun.
    destruct (winding_down_run env sched s s' k Hflag Hrun)
      as (ext & Ht & Hs & _ & Hc).
    exists ext. split; [done|].
    destruct (threads s !! k) as [[]|]; cbn in Hs, Hc; lia.
  - (* the way to the end *)
    destruct (failed_startup_sets_flag i
                (Z.to_nat (main_steps_left N (pc s))) s Hreach Hin ltac:(fold N; lia))
      as (sched1 & s1 & Hrun1 & Hflag1 & Hown1).
    pose proof (reachable_run env s sched1 s1 Hreach Hrun1) as Hreach1.
    destruct (shutdown_from_flag env configured_ok
                (Z.to_nat (main_steps_left N (pc s1))) s1 Hreach1 Hflag1
                ltac:(fold N; lia))
      as (sched2 & s' & Hrun2 & Hdead & Hown2).
    pose proof (reachable_run env s1 sched2 s' Hreach1 Hrun2) as Hreach'.
    assert (Hin' : In (EvPthreadCreate i false) (main_trace s'))
      by (eapply main_trace_kept; [exact Hrun2|];
          eapply main_trace_kept; [exact Hrun1|done]).
    pose proof (failed_startup_point s' i Hreach' Hin') as Hpoint'.
    destruct (failed_startup_state s' i Hreach' Hin') as (_ & _ & _ & _ & Hret').
    assert (Hpc' : pc s' = PC_returned)
      by (unfold alive in Hdead; destruct (pc s'); try done; destruct Hpoint').
    exists (sched1 ++ sched2), s'. rewrite sys_run_app, Hrun1.
    split; [done|]. split; [by rewrite forallb_app, Hown1, Hown2|].
    split; [done|]. by apply Hret'.
Qed.


(** C6: one command queue per device, all before any thread, and a
    failure is fatal.  In any state the process reaches: if a thread
    creation was attempted, the creations made so far are those of the
    command queues of devices 0 .. n-1, each successful, followed by the
    thread creations; once the start-up code has gone through, exactly
    those [n] command queues were created; if the creation of command
    queue [j] failed, the queues before it were created, the routine has
    reported DeviceInitError as its last act and aborted, no thread
    exists or was created, and the process takes no further step; and
    whenever the start-up code fails no thread is ever created. *)
Theorem command_queues_before_workers s :
  reachable env s ->
  let n := opencl_num_devices env in
  let all_queues := map (fun i => (i, true)) (seqZ 0 n) in
  (creations (main_trace s) <> [] ->
   startup_order (main_trace s) =
     map inl all_queues ++ map inr (creations (main_trace s))) /\
  (pc s <> PC_start -> pc s <> PC_init -> init_ok env ->
   command_queues (main_trace s) = all_queues) /\
  (forall j, In (EvCreateCommandQueue j false) (main_trace s) ->
     pc s = PC_aborted /\
     list.last (main_trace s) = Some DeviceInitError /\
     command_queues (main_trace s) =
       map (fun i => (i, true)) (seqZ 0 j) ++ [(j, false)] /\
     threads s = [] /\
     creations (main_trace s) = [] /\
     forall a, sys_step env s a = None) /\
  (~ init_ok env -> threads s = [] /\ creations (main_trace s) = []).
Proof.
  intros Hreach n all_queues.
  pose proof (main_inv_reachable env configured_ok s Hreach) as Hinv.
  pose proof (init_ok_command_queues env) as Hqueues.
  unfold command_queues, startup_order in Hqueues.
  split; [|split; [|split]].
  - by_pc Hinv; unfold creations, startup_order; project; try done;
      intros _; rewrite (proj2 (Hqueues ltac:(find_init_ok)));
      subst all_queues n; rewrite ?map_app, ?map_map, <- ?app_assoc; try done;
      destruct (_ <? _); done.
  - by_pc Hinv; unfold command_queues; project; try done;
      intros _ _ Hok; by rewrite (proj1 (Hqueues Hok)).
  - intros j Hin.
    assert (Hinit : In (EvCreateCommandQueue j false)
                       (fst (init_opencl_context_and_shmem env))).
    { eapply (In_omap (fun e => match e with
                                | EvCreateCommandQueue i false => Some i
                                | _ => None
                                end)) in Hin; [|done].
      assert (Hj : In j (omap (fun e => match e with
                                        | EvCreateCommandQueue i false => Some i
                                        | _ => None
                                        end)
                           (fst (init_opencl_context_and_shmem env)))).
      { clear Hqueues. by_pc Hinv; revert Hin; project; try done;
          rewrite ?app_nil_r; done. }
      apply list_elem_of_In, list_elem_of_omap in Hj as (e & He & Hf).
      apply list_elem_of_In in He.
      destruct e as [| | | | |i []| | | | | | | | | | | | | | | |]; try done.
      by injection Hf as ->. }
    apply init_failed_command_queue in Hinit as (Hfail & Hlast & Hcq).
    by_pc Hinv; try (exfalso; apply Hfail; find_init_ok); try done.
    + exfalso. revert Hin. unfold at_init. cbn. intuition discriminate.
    + split; [done|]. split; [unfold at_init_error; by rewrite last_app, Hlast|].
      split; [unfold command_queues in *; project; by rewrite Hcq|].
      split; [done|]. split; [unfold creations; by project|].
      intros a. unfold sys_step, alive. by rewrite Hpc.
  - intros Hfail.
    by_pc Hinv; try (exfalso; apply Hfail; find_init_ok); try done;
      (split; [done|unfold creations; by project]).
Qed.

(** The worker count: what lines 223-225 and 234 make of it. *)

(** Past line 224 [opencl_num_threads] is the configured value when that
    is not zero, and otherwise what [sysconf] returned, as an [int]. *)
Lemma worker_count_resolved s :
  reachable env s -> init_ok env ->
  pc s <> PC_start -> pc s <> PC_init -> pc s <> PC_resolve ->
  pc s <> PC_aborted ->
  opencl_num_threads s = resolved_num_threads env /\
  (configured_num_threads env <> 0 ->
   resolved_num_threads env = configured_num_threads env) /\
  (configured_num_threads env = 0 ->
   resolved_num_threads env = wrap_int (sysconf_nprocessors_onln env)).
Proof.
  intros Hreach Hok.
  pose proof (main_inv_reachable env configured_ok s Hreach) as Hinv.
  intros ? ? ? ?. split.
  - by_pc Hinv; try done;
      match goal with
      | H : started _ _ |- _ => apply H
      | H : spawn_over _ _ |- _ => apply H
      end.
  - unfold resolved_num_threads.
    destruct (Z.eqb_spec (configured_num_threads env) 0); split; done.
Qed.

(** No thread is created with a count that is not positive. *)
Lemma no_thread_without_positive_count s :
  reachable env s -> creations (main_trace s) <> [] ->
  0 < resolved_num_threads env.
Proof.
  intros Hreach.
  pose proof (main_inv_reachable env configured_ok s Hreach) as Hinv.
  assert (Hseq : forall c, 0 < c -> c <= resolved_num_threads env \/ c = 0 ->
                           0 < resolved_num_threads env) by lia.
  assert (Hcases : forall c (P : Prop),
    (c <= resolved_num_threads env \/ c = 0) ->
    (map (fun k => (k, true)) (seqZ 0 c) ++
       (if c <? resolved_num_threads env then [(c, false)] else []) <> []) ->
    0 <= c -> 0 < resolved_num_threads env).
  { intros c _ Hle Hne Hc. destruct (Z.ltb_spec c (resolved_num_threads env)); [lia|].
    destruct (decide (c = 0)) as [->|]; [|lia].
    exfalso. apply Hne. by rewrite seqZ_nil. }
  by_pc Hinv; unfold creations; project; try done; intros Hne;
    match goal with
    | H : started _ _ |- _ => destruct H as (_ & _ & _ & _ & _ & Hle)
    | H : spawn_over _ _ |- _ => destruct H as ((_ & _ & _ & _ & _ & Hle) & _)
    end.
  1: { destruct (decide (Z.of_nat (length (threads s)) = 0)) as [E|]; [|lia].
       exfalso. apply Hne. by rewrite E. }
  all: eapply (Hcases _ True Hle); [|lia]; try done.
Qed.

(** With assertion checking compiled in, a count that is not positive
    stops the routine at line 225. *)
Lemma assertion_rejects_bad_count s :
  reachable env s -> assert_checking env = true ->
  resolved_num_threads env <= 0 ->
  (pc s = PC_start \/ pc s = PC_init \/ pc s = PC_resolve \/ pc s = PC_aborted) /\
  threads s = [] /\
  (pc s = PC_aborted -> init_ok env ->
   list.last (main_trace s) = Some EvAssertFailed).
Proof.
  intros Hreach Hassert Hle.
  pose proof (main_inv_reachable env configured_ok s Hreach) as Hinv.
  by_pc Hinv; try (split; [by auto|split; [done|done]]);
    try match goal with
        | H : started _ _ |- _ => destruct H as (_ & _ & Hpos & _)
        | H : spawn_over _ _ |- _ => destruct H as ((_ & _ & Hpos & _) & _)
        | H : assert_checking env = true -> _ |- _ => pose proof H as Hpos
        end; try (specialize (Hpos Hassert); lia).
  split; [by auto|]. split; [done|]. intros _ _.
  unfold at_assert_failure. by rewrite last_snoc.
Qed.

End MainRoutineClaims.

Lemma sample_out_of_memory_configured_ok :
  guc_accepts pgstrom_init_opencl_server
    (configured_num_threads sample_env_out_of_memory).
Proof. by vm_compute. Defined.

Lemma out_of_memory_returns_at_once_witness :
  reachable sample_env_out_of_memory sample_final_out_of_memory /\
  In (EvMalloc 16 false) (main_trace sample_final_out_of_memory) /\
  pc sample_final_out_of_memory = PC_returned /\
  threads sample_final_out_of_memory = [] /\
  creations (main_trace sample_final_out_of_memory) = [] /\
  ~ In EvCloseServerQueue (main_trace sample_final_out_of_memory).
Proof.
  assert (Hreach : reachable sample_env_out_of_memory sample_final_out_of_memory)
    by (exists [ActMain; ActMain; ActMain; ActMain]; vm_compute; reflexivity).
  assert (Hin : In (EvMalloc 16 false) (main_trace sample_final_out_of_memory))
    by (vm_compute; tauto).
  split; [exact Hreach|]. split; [exact Hin|].
  pose proof (out_of_memory_returns_at_once sample_env_out_of_memory
                sample_out_of_memory_configured_ok
                sample_final_out_of_memory 16 Hreach Hin)
    as (H1 & _ & _ & H2 & H3 & _ & H4 & _).
  exact (conj H1 (conj H2 (conj H3 H4))).
Defined.

Lemma sample_thread_failure_configured_ok :
  guc_accepts pgstrom_init_opencl_server
    (configured_num_threads sample_env_thread_failure).
Proof. by vm_compute. Defined.

Lemma failed_thread_creation_shuts_down_witness :
  reachable sample_env_thread_failure sample_final_thread_failure /\
  In (EvPthreadCreate 1 false) (main_trace sample_final_thread_failure) /\
  pc sample_final_thread_failure = PC_returned /\
  Z.of_nat (length (threads sample_final_thread_failure)) = 1 /\
  main_trace sample_final_thread_failure
    `prefix_of` failed_startup_trace sample_env_thread_failure 1.
Proof.
  assert (Hreach : reachable sample_env_thread_failure sample_final_thread_failure)
    by (exists sample_schedule_thread_failure; vm_compute; reflexivity).
  assert (Hin : In (EvPthreadCreate 1 false)
                   (main_trace sample_final_thread_failure))
    by (vm_compute; tauto).
  split; [exact Hreach|]. split; [exact Hin|]. split; [reflexivity|].
  pose proof (failed_thread_creation_shuts_down sample_env_thread_failure
                sample_thread_failure_configured_ok
                sample_final_thread_failure 1 Hreach Hin)
    as (H1 & _ & H2 & _).
  exact (conj H1 H2).
Defined.


Lemma sample_queue_failure_configured_ok :
  guc_accepts pgstrom_init_opencl_server
    (configured_num_threads sample_env_queue_failure).
Proof. by vm_compute. Defined.

Lemma command_queues_before_workers_witness :
  reachable sample_env sample_final /\
  startup_order (main_trace sample_final) =
    [inl (0, true); inl (1, true); inr (0, true); inr (1, true)] /\
  reachable sample_env_queue_failure sample_final_queue_failure /\
  pc sample_final_queue_failure = PC_aborted /\
  list.last (main_trace sample_final_queue_failure) = Some DeviceInitError.
Proof.
  assert (Hreach : reachable sample_env sample_final)
    by (exists sample_schedule; vm_compute; reflexivity).
  assert (Hreach' : reachable sample_env_queue_failure sample_final_queue_failure)
    by (exists [ActMain; ActMain]; vm_compute; reflexivity).
  pose proof (command_queues_before_workers sample_env sample_configured_ok
                sample_final Hreach) as (H1 & _).
  pose proof (command_queues_before_workers sample_env_queue_failure
                sample_queue_failure_configured_ok
                sample_final_queue_failure Hreach') as (_ & _ & H2 & _).
  split; [exact Hreach|].
  split; [exact (H1 ltac:(discriminate))|].
  split; [exact Hreach'|].
  destruct (H2 1 ltac:(vm_compute; tauto)) as (H3 & H4 & _).
  exact (conj H3 H4).
Defined.

(** C5 (code defect): the count is checked only by an [Assert].  With no
    count configured, [sysconf] answering -1 and a build without
    assertion checking, the routine goes on with a count of -1: it asks
    [malloc] for 2^64 - 8 bytes, logs "out of memory" and returns.  No
    assertion fails and nothing reports an invalid worker count. *)
Theorem worker_count_not_validated :
  reachable sample_env_no_processors sample_final_no_processors /\
  pc sample_final_no_processors = PC_returned /\
  opencl_num_threads sample_final_no_processors = -1 /\
  ~ In EvAssertFailed (main_trace sample_final_no_processors) /\
  main_trace sample_final_no_processors =
    at_resolve sample_env_no_processors ++
    [EvSysconf (-1); EvMalloc (2 ^ 64 - 8) false; EvElog LOG "out of memory"].
Proof.
  split; [exists [ActMain; ActMain; ActMain; ActMain]; vm_compute; reflexivity|].
  split; [reflexivity|]. split; [reflexivity|].
  split; [vm_compute; intuition discriminate|].
  vm_compute. reflexivity.
Qed.

(** C9 (code defect): the log writer is not bounded.  Each [snprintf]
    is given the room left in the 8192-byte array, but [ofs] advances by
    the length the text would have had, not by what was stored.  With a
    message of 8192 characters after the 24 characters of the prefix,
    [ofs] is 8216 when the newline is written: the room left wraps to
    2^64 - 24, and the newline and its NUL are stored at offsets 8216
    and 8217, past the end of the array.  The frames that go to the pipe
    are still bounded. *)
Theorem clserv_log_overruns_buffer :
  let out :=
    __clserv_log 503 sample_log_settings sample_garbage
      "pgstrom_opencl_sigterm" "opencl_serv.c" 51 sample_long_body in
  Z.of_nat (String.length sample_long_body) = 8192 /\
  overrun (fst out) = [(8216, ascii_of_nat 10); (8217, zero)] /\
  Forall (fun w => exists p, w = WriteChunk p /\
                     Z.of_nat (length (proto_data p)) <= 503) (snd out).
Proof.
  cbv zeta.
  assert (Hbody : Z.of_nat (String.length sample_long_body) = 8192)
    by (vm_compute; reflexivity).
  assert (Hprefix : Z.of_nat (String.length
            (log_prefix (verbose sample_log_settings)
               "pgstrom_opencl_sigterm" "opencl_serv.c" 51)) = 24)
    by (vm_compute; reflexivity).
  split; [exact Hbody|]. split; [|by apply clserv_log_frames_bounded].
  pose proof (compose_message_overrun_exact (verbose sample_log_settings)
                "pgstrom_opencl_sigterm" "opencl_serv.c" 51
                sample_long_body sample_garbage) as Hexact.
  cbv zeta in Hexact. rewrite Hbody, Hprefix in Hexact.
  rewrite clserv_log_buffer. apply Hexact; unfold BUFSIZE, INT_MAX; lia.
Qed.

(* ================================================================== *)
(** * Part IV: further properties *)
(* ================================================================== *)

(** ** The device scheduler (lines 92-98) *)

(** X1: the policy is round robin until the counter wraps.  From a
    counter value [index >= 0], [k] calls run one after the other return
    [index mod C], [(index + 1) mod C], ..., as long as the counter does
    not pass 2^31 on the way, whichever type the device count has; from
    the initial counter these are the first 2^31 calls. *)
Theorem schedule_run_round_robin ty C (k : nat) : forall index,
  1 <= C <= INT_MAX -> 0 <= index -> index + Z.of_nat k <= 2 ^ 31 ->
  schedule_run ty C k index = map (fun j => j mod C) (seqZ index (Z.of_nat k)).
Proof.
  induction k as [|k IH]; intros index HC H0 Hk; [done|].
  cbn [schedule_run pgstrom_opencl_device_schedule].
  rewrite seqZ_cons by lia. cbn [map]. rewrite Nat2Z.inj_succ in *.
  rewrite c_mod_small by (unfold INT_MAX in *; lia). f_equal.
  destruct (decide (k = 0%nat)) as [->|Hne]; [done|].
  rewrite wrap_int_id by (unfold in_int, INT_MIN, INT_MAX; lia).
  rewrite IH by lia. do 2 f_equal; lia.
Qed.

Lemma schedule_run_round_robin_witness :
  schedule_run CountSigned 3 7 0 = map (fun j => j mod 3) (seqZ 0 7).
Proof.
  apply (schedule_run_round_robin CountSigned 3 7 0);
    [by vm_compute|by vm_compute|by vm_compute].
Defined.

(** X2: with an unsigned device count every call returns the index of
    a device, whatever the counter holds and however often the function
    has been called. *)
Theorem schedule_unsigned_in_range C (k : nat) : forall index,
  1 <= C <= INT_MAX ->
  Forall (fun dev => 0 <= dev < C) (schedule_run CountUnsigned C k index).
Proof.
  induction k as [|k IH]; intros index HC; [constructor|].
  cbn [schedule_run pgstrom_opencl_device_schedule]. constructor; [|by apply IH].
  cbn [c_mod]. pose proof (Z.mod_pos_bound (wrap_uint index) C).
  rewrite wrap_int_id; [lia|]. unfold in_int, INT_MIN, INT_MAX in *. lia.
Qed.

Lemma schedule_unsigned_in_range_witness :
  Forall (fun dev => 0 <= dev < 3) (schedule_run CountUnsigned 3 5 (2 ^ 31 - 2)).
Proof.
  apply (schedule_unsigned_in_range 3 5 (2 ^ 31 - 2)). by vm_compute.
Defined.

Lemma wrap_uint_wrap_int z : wrap_uint (wrap_int z) = z mod 2 ^ 32.
Proof.
  unfold wrap_uint, wrap_int.
  rewrite <- Zminus_mod_idemp_l, Z.mod_mod by lia.
  rewrite Zminus_mod_idemp_l. 
  replace (z + 2 ^ 31 - 2 ^ 31) with z by lia. done.
Qed.

(** X3: with an unsigned device count that divides 2^32 (a power of
    two) the rotation is never broken: call number [k] returns
    [k mod C] for every [k], also after the counter has wrapped. *)
Theorem schedule_unsigned_exact C k :
  1 <= C <= INT_MAX -> 2 ^ 32 mod C = 0 ->
  nth_call CountUnsigned C k = Z.of_N k mod C.
Proof.
  intros HC Hdiv. rewrite nth_call_closed. cbn [c_mod].
  rewrite wrap_uint_wrap_int.
  rewrite Z.mod_mod_divide by (apply Z.mod_divide; [lia|done]).
  apply wrap_int_id. pose proof (Z.mod_pos_bound (Z.of_N k) C).
  unfold in_int, INT_MIN, INT_MAX in *. lia.
Qed.

Lemma schedule_unsigned_exact_witness :
  nth_call CountUnsigned 4 (2 ^ 32 + 5) = Z.of_N (2 ^ 32 + 5) mod 4.
Proof.
  apply (schedule_unsigned_exact 4 (2 ^ 32 + 5)); [by vm_compute|by vm_compute].
Defined.

(** X4: with a signed device count no call numbered 2^31 .. 2^32 - 1
    returns a positive index: the counter is negative there, [%]
    truncates towards zero, and call number [k] returns
    [- ((2^32 - k) mod C)], which lies in (-C, 0]. *)
Theorem schedule_signed_after_wrap C k :
  1 <= C <= INT_MAX -> 2 ^ 31 <= Z.of_N k < 2 ^ 32 ->
  nth_call CountSigned C k = - ((2 ^ 32 - Z.of_N k) mod C) /\
  - C < nth_call CountSigned C k <= 0.
Proof.
  intros HC Hk. rewrite nth_call_closed. cbn [c_mod].
  assert (Hw : wrap_int (Z.of_N k) = - (2 ^ 32 - Z.of_N k)).
  { unfold wrap_int.
    replace (Z.of_N k + 2 ^ 31) with (Z.of_N k - 2 ^ 31 + 1 * 2 ^ 32) by lia.
    rewrite Z.mod_add by lia. rewrite Z.mod_small; lia. }
  rewrite Hw, Z.rem_opp_l by lia.
  rewrite Z.rem_mod_nonneg by lia.
  pose proof (Z.mod_pos_bound (2 ^ 32 - Z.of_N k) C). lia.
Qed.

Lemma schedule_signed_after_wrap_witness :
  nth_call CountSigned 3 (2 ^ 31) = - ((2 ^ 32 - Z.of_N (2 ^ 31)) mod 3) /\
  - 3 < nth_call CountSigned 3 (2 ^ 31) <= 0.
Proof.
  apply (schedule_signed_after_wrap 3 (2 ^ 31)); [by vm_compute|by vm_compute].
Defined.

(** ** The start-up code (lines 107-186) *)

Section InitOutcome.
Variable env : environment.

(** The walk over the zones, whichever way it ends. *)
Lemma setup_zones_spec zones :
  match setup_zones env zones with
  | (t, Ok _) =>
      Forall (zone_ok env) zones /\ t = concat (map zone_mapped zones)
  | (t, Raised fmt) =>
      exists before address length after,
        zones = before ++ (address, length) :: after /\
        Forall (zone_ok env) before /\
        clCreateBuffer_ok env address = false /\
        t = concat (map zone_mapped before) ++
            [EvCreateBuffer address length false; EvElog ERROR buffer_failed] /\
        fmt = buffer_failed
  end.
Proof.
  induction zones as [|[address len] zones IH]; [by split|].
  cbn [setup_zones]. unfold on_shmem_zone_callback.
  destruct (clCreateBuffer_ok env address) eqn:Hok; cbn.
  - destruct (setup_zones env zones) as [t [[]|fmt]]; cbn.
    + destruct IH as (Hall & ->). split; [|done]. by constructor.
    + destruct IH as (before & a & l & after & -> & Hall & Hfail & -> & ->).
      exists ((address, len) :: before), a, l, after.
      split; [done|]. split; [by constructor|]. done.
  - exists [], address, len, zones. done.
Qed.

(** X5: the start-up code succeeds exactly when every OpenCL call it
    makes succeeds, and the error it raises names the first call that
    failed: the context, else a command queue, else the buffer of a
    zone of the length handed to [pgstrom_setup_shmem]. *)
Theorem init_outcome_names_first_failure :
  let n := opencl_num_devices env in
  let zones := shmem_zones env (min_alloc_size (opencl_device_info env)) in
  let queues_ok :=
    forall j, 0 <= j < n -> clCreateCommandQueue_ok env j = true in
  let outcome := snd (init_opencl_context_and_shmem env) in
  (outcome = Ok tt <->
   clCreateContext_ok env = true /\ queues_ok /\ Forall (zone_ok env) zones) /\
  (outcome = Raised context_failed <-> clCreateContext_ok env = false) /\
  (outcome = Raised cmdq_failed <->
   clCreateContext_ok env = true /\ ~ queues_ok) /\
  (outcome = Raised buffer_failed <->
   clCreateContext_ok env = true /\ queues_ok /\ ~ Forall (zone_ok env) zones).
Proof.
  intros n zones queues_ok outcome. subst outcome.
  destruct (init_opencl_cases env)
    as [(Hctx & ->)|[(Hctx & j & Hj & Hbefore & Hfail & ->)|(Hctx & Hall & Heq)]];
    cbn [snd].
  - unfold context_failed, cmdq_failed, buffer_failed. intuition congruence.
  - assert (Hnot : ~ queues_ok)
      by (intros Hq; specialize (Hq j Hj); by rewrite Hq in Hfail).
    unfold context_failed, cmdq_failed, buffer_failed. intuition congruence.
  - cbv zeta in Heq. rewrite Heq. cbn [snd].
    pose proof (setup_zones_spec zones) as Hz. fold zones.
    assert (Hq : queues_ok) by exact Hall.
    destruct (setup_zones env zones) as [t [[]|fmt]]; cbn [snd].
    + destruct Hz as (Hzones & _).
      unfold context_failed, cmdq_failed, buffer_failed. intuition congruence.
    + destruct Hz as (before & a & l & after & Hsplit & Hok & Hbad & _ & ->).
      assert (Hnot : ~ Forall (zone_ok env) zones).
      { intros HF. rewrite Hsplit in HF.
        apply Forall_app in HF as (_ & HF). apply Forall_inv in HF as Ha.
        unfold zone_ok in Ha. cbn in Ha. by rewrite Ha in Hbad. }
      unfold context_failed, cmdq_failed, buffer_failed. intuition congruence.
Qed.

(** X6: when the start-up code goes through, what it has done is, in
    this order: create the context, create the command queue of each
    device 0 .. n-1, announce and call [pgstrom_setup_shmem] with the
    zone length, and map each zone once, in the order the zones come. *)
Theorem init_success_trace :
  init_ok env ->
  let n := opencl_num_devices env in
  let z := min_alloc_size (opencl_device_info env) in
  fst (init_opencl_context_and_shmem env) =
    EvCreateContext n true ::
    map (fun j => EvCreateCommandQueue j true) (seqZ 0 n) ++
    [EvElog LOG "PG-Strom: setting up shared memory (zone length=%zu)";
     EvSetupShmem z] ++
    concat (map zone_mapped (shmem_zones env z)).
Proof.
  intros Hok n z. unfold init_ok in Hok.
  destruct (init_opencl_cases env)
    as [(_ & Heq)|[(_ & j & _ & _ & _ & Heq)|(_ & _ & Heq)]];
    cbv zeta in Heq; rewrite Heq in Hok |- *; try done.
  cbn [fst snd] in *. fold z in Hok |- *. fold n.
  pose proof (setup_zones_spec (shmem_zones env z)) as Hz.
  destruct (setup_zones env (shmem_zones env z)) as [t [[]|fmt]]; [|done].
  destruct Hz as (_ & ->). done.
Qed.

(** X7: a zone that cannot be mapped stops the walk over the zones.
    When the trace of the start-up code holds a failed [clCreateBuffer],
    the zones before that one were mapped, in order, no zone after it
    was touched, and the failed call and its error are the last two
    events. *)
Theorem zone_failure_stops_mapping address length :
  let t := fst (init_opencl_context_and_shmem env) in
  In (EvCreateBuffer address length false) t ->
  exists before after,
    shmem_zones env (min_alloc_size (opencl_device_info env)) =
      before ++ (address, length) :: after /\
    Forall (zone_ok env) before /\
    clCreateBuffer_ok env address = false /\
    buffers t =
      map (fun zone => (fst zone, snd zone, true)) before ++
      [(address, length, false)] /\
    list.last t = Some (EvElog ERROR buffer_failed) /\
    snd (init_opencl_context_and_shmem env) = Raised buffer_failed.
Proof.
  intros t Hin. subst t.
  destruct (init_opencl_cases env)
    as [(_ & Heq)|[(_ & j & _ & _ & _ & Heq)|(_ & _ & Heq)]];
    cbv zeta in Heq; rewrite Heq in Hin |- *; cbn [fst snd] in *.
  - destruct Hin as [?|[?|[]]]; done.
  - exfalso. destruct Hin as [?|Hin]; [done|].
    apply in_app_iff in Hin as [Hin|[?|[?|[]]]]; try done.
    by apply in_map_iff in Hin as (? & ? & _).
  - set (z := min_alloc_size (opencl_device_info env)) in *.
    destruct Hin as [?|Hin]; [done|].
    apply in_app_iff in Hin as [Hin|[?|[?|Hin]]]; try done.
    { by apply in_map_iff in Hin as (? & ? & _). }
    pose proof (setup_zones_spec (shmem_zones env z)) as Hz.
    destruct (setup_zones env (shmem_zones env z)) as [t [[]|fmt]];
      cbn [fst snd] in *.
    + exfalso. destruct Hz as (_ & ->).
      apply in_concat in Hin as (evs & Hevs & Hin).
      apply in_map_iff in Hevs as (zone & <- & _).
      destruct Hin as [?|[?|[]]]; done.
    + destruct Hz as (before & a & l & after & Hsplit & Hok & Hbad & -> & ->).
      assert (Hmapped : forall zs,
        buffers (concat (map zone_mapped zs)) =
        map (fun zone : Z * Z => (fst zone, snd zone, true)) zs).
      { induction zs as [|zone zs IH]; [done|]. cbn. by rewrite <- IH. }
      assert (Hnone : forall zs,
        ~ In (EvCreateBuffer address length false) (concat (map zone_mapped zs))).
      { intros zs Hzs. apply in_concat in Hzs as (evs & Hevs & Hzs).
        apply in_map_iff in Hevs as (zone & <- & _).
        destruct Hzs as [?|[?|[]]]; done. }
      apply in_app_iff in Hin as [Hin|[Hin|[?|[]]]]; try done;
        [by apply Hnone in Hin|].
      injection Hin as -> ->.
      exists before, after. split; [done|]. split; [done|]. split; [done|].
      split; [|split; [|done]].
      * unfold buffers in *. cbn [omap list_omap]. rewrite !omap_app, omap_map.
        cbn [omap list_omap]. rewrite omap_all_None, omap_app, Hmapped. done.
      * by rewrite !app_comm_cons, !last_app.
Qed.

(** The log lines and errors the start-up code can leave. *)
Lemma init_log_lines lvl fmt :
  In (EvElog lvl fmt) (fst (init_opencl_context_and_shmem env)) ->
  In fmt [context_failed; cmdq_failed; buffer_failed;
          "PG-Strom: setting up shared memory (zone length=%zu)";
          "PG-Strom: zone %p-%p was mapped (len: %luMB)"].
Proof.
  intros Hin.
  assert (Hzones : forall zs, In (EvElog lvl fmt) (concat (map zone_mapped zs)) ->
                              fmt = "PG-Strom: zone %p-%p was mapped (len: %luMB)").
  { intros zs Hzs. apply in_concat in Hzs as (evs & Hevs & Hzs).
    apply in_map_iff in Hevs as (zone & <- & _).
    destruct Hzs as [?|[[= _ <-]|[]]]; done. }
  destruct (init_opencl_cases env)
    as [(_ & Heq)|[(_ & j & _ & _ & _ & Heq)|(_ & _ & Heq)]];
    cbv zeta in Heq; rewrite Heq in Hin; cbn [fst] in Hin.
  - destruct Hin as [?|[[= _ <-]|[]]]; [done|]. cbn. tauto.
  - destruct Hin as [?|Hin]; [done|].
    apply in_app_iff in Hin as [Hin|[?|[[= _ <-]|[]]]]; try done.
    + by apply in_map_iff in Hin as (? & ? & _).
    + cbn. tauto.
  - destruct Hin as [?|Hin]; [done|].
    apply in_app_iff in Hin as [Hin|[[= _ <-]|[?|Hin]]]; try done.
    + by apply in_map_iff in Hin as (? & ? & _).
    + cbn. tauto.
    + pose proof (setup_zones_spec
                    (shmem_zones env (min_alloc_size (opencl_device_info env)))) as Hz.
      destruct (setup_zones env _) as [t [[]|e]]; cbn [fst] in Hin.
      * destruct Hz as (_ & ->). apply Hzones in Hin as ->. cbn. tauto.
      * destruct Hz as (before & a & l & after & _ & _ & _ & -> & _).
        apply in_app_iff in Hin as [Hin|[?|[[= _ <-]|[]]]]; try done.
        -- apply Hzones in Hin as ->. cbn. tauto.
        -- cbn. tauto.
Qed.

End InitOutcome.

Lemma init_success_trace_witness :
  fst (init_opencl_context_and_shmem sample_env) =
    [EvCreateContext 2 true;
     EvCreateCommandQueue 0 true; EvCreateCommandQueue 1 true;
     EvElog LOG "PG-Strom: setting up shared memory (zone length=%zu)";
     EvSetupShmem 536870912;
     EvCreateBuffer 4096 536870912 true;
     EvElog LOG "PG-Strom: zone %p-%p was mapped (len: %luMB)"].
Proof. apply (init_success_trace sample_env). reflexivity. Defined.

Lemma zone_failure_stops_mapping_witness :
  exists before after,
    shmem_zones sample_env_zone_failure
      (min_alloc_size (opencl_device_info sample_env_zone_failure)) =
      before ++ (536875008, 536870912) :: after /\
    Forall (zone_ok sample_env_zone_failure) before /\
    clCreateBuffer_ok sample_env_zone_failure 536875008 = false /\
    buffers (fst (init_opencl_context_and_shmem sample_env_zone_failure)) =
      map (fun zone => (fst zone, snd zone, true)) before ++
      [(536875008, 536870912, false)] /\
    list.last (fst (init_opencl_context_and_shmem sample_env_zone_failure)) =
      Some (EvElog ERROR buffer_failed) /\
    snd (init_opencl_context_and_shmem sample_env_zone_failure) =
      Raised buffer_failed.
Proof.
  apply (zone_failure_stops_mapping sample_env_zone_failure 536875008 536870912).
  vm_compute. tauto.
Defined.

(** ** The log writer (lines 279-346) *)

Section LogContent.

Lemma store_cells_inside b ofs c :
  0 <= ofs < BUFSIZE -> cells (store b ofs c) = <[Z.to_nat ofs := c]> (cells b).
Proof.
  intros H. unfold store.
  destruct (Z.leb_spec 0 ofs); [|lia]. by destruct (Z.ltb_spec ofs BUFSIZE); [|lia].
Qed.

Lemma store_cells_outside b ofs c :
  BUFSIZE <= ofs -> cells (store b ofs c) = cells b.
Proof.
  intros H. unfold store.
  destruct (Z.ltb_spec ofs BUFSIZE); [lia|]. by rewrite andb_false_r.
Qed.

(** A write past the end leaves the array as it was. *)
Lemma store_all_cells_outside text : forall b ofs,
  BUFSIZE <= ofs -> cells (store_all b ofs text) = cells b.
Proof.
  induction text as [|c text IH]; intros b ofs H; [done|].
  cbn [store_all]. rewrite IH by lia. by apply store_cells_outside.
Qed.

(** A write that ends inside the array replaces the bytes it covers. *)
Lemma store_all_cells_inside text : forall b ofs,
  0 <= ofs ->
  ofs + Z.of_nat (length text) <= Z.of_nat (length (cells b)) ->
  Z.of_nat (length (cells b)) <= BUFSIZE ->
  cells (store_all b ofs text) =
  take (Z.to_nat ofs) (cells b) ++ text ++
  drop (Z.to_nat ofs + length text) (cells b).
Proof.
  induction text as [|c text IH]; intros b ofs H0 Hend Hlen.
  - cbn. by rewrite Nat.add_0_r, take_drop.
  - cbn [store_all]. rewrite length_cons, Nat2Z.inj_succ in Hend.
    assert (Hs : cells (store b ofs c) = <[Z.to_nat ofs := c]> (cells b))
      by (apply store_cells_inside; lia).
    rewrite IH; rewrite ?Hs, ?length_insert; try lia.
    replace (Z.to_nat (ofs + 1)) with (S (Z.to_nat ofs)) by lia.
    rewrite (take_S_r _ _ c) by (apply list_lookup_insert_eq; lia).
    rewrite take_insert_ge by lia. rewrite drop_insert_lt by lia.
    rewrite <- app_assoc. cbn [app length]. do 3 f_equal. f_equal. lia.
Qed.

Lemma take_Z_min {A} (l : list A) (a : Z) :
  take (Z.to_nat (Z.min a (Z.of_nat (length l)))) l = take (Z.to_nat a) l.
Proof.
  destruct (Z.le_ge_cases a (Z.of_nat (length l))).
  - by rewrite Z.min_l.
  - rewrite Z.min_r, Nat2Z.id by lia. rewrite !take_ge; [done|lia|lia].
Qed.

(** [snprintf] into the room left in the array: at most that many
    characters less one, and a NUL behind them. *)
Lemma c_snprintf_cells b ofs text :
  0 <= ofs < BUFSIZE -> Z.of_nat (length (cells b)) = BUFSIZE ->
  let kept := take (Z.to_nat (BUFSIZE - ofs - 1)) text in
  cells (fst (c_snprintf b ofs (BUFSIZE - ofs) text)) =
  take (Z.to_nat ofs) (cells b) ++ kept ++
  zero :: drop (Z.to_nat ofs + length kept + 1) (cells b).
Proof.
  intros Hofs Hlen kept. unfold c_snprintf.
  destruct (Z.eqb_spec (BUFSIZE - ofs) 0); [lia|]. cbn [fst].
  rewrite take_Z_min.
  fold kept.
  assert (Hk : Z.of_nat (length kept) <= BUFSIZE - ofs - 1).
  { subst kept. rewrite length_take.
    pose proof (Nat.le_min_l (Z.to_nat (BUFSIZE - ofs - 1)) (length text)) as H.
    apply Nat2Z.inj_le in H. rewrite Z2Nat.id in H by lia. exact H. }
  rewrite store_all_cells_inside; rewrite ?length_app; cbn [length]; try lia.
  rewrite <- app_assoc. cbn [app]. by rewrite Nat.add_assoc.
Qed.

(** [strlen] stops at the first NUL. *)
Lemma strlen_at_nul l r :
  Forall (fun c => c <> zero) l ->
  strlen (l ++ zero :: r) = Some (Z.of_nat (length l)).
Proof.
  induction 1 as [|c l Hc _ IH]; [done|].
  cbn [app strlen length]. destruct (Ascii.eqb_spec c zero); [done|].
  rewrite IH. cbn. f_equal. lia.
Qed.

Lemma printed_length garbage w :
  Z.of_nat (length garbage) = BUFSIZE ->
  Z.of_nat (length (printed garbage w)) = BUFSIZE.
Proof.
  intros Hg. pose proof (eq_refl : BUFSIZE = 8192) as HB. unfold printed.
  set (kept := take (Z.to_nat (BUFSIZE - 1)) w).
  assert (Hk : (length kept <= Z.to_nat (BUFSIZE - 1))%nat)
    by (subst kept; rewrite length_take; apply Nat.le_min_l).
  rewrite length_app, length_cons, length_drop. lia.
Qed.

(** The first [snprintf], into the array as it is found. *)
Lemma c_snprintf_first garbage t :
  Z.of_nat (length garbage) = BUFSIZE ->
  cells (fst (c_snprintf {| cells := garbage; overrun := [] |} 0 BUFSIZE t)) =
  printed garbage t.
Proof.
  intros Hg. pose proof (eq_refl : BUFSIZE = 8192) as HB.
  pose proof (c_snprintf_cells {| cells := garbage; overrun := [] |} 0 t) as H.
  rewrite Z.sub_0_r in H. rewrite H by (cbn [cells]; lia).
  cbn [cells Z.to_nat take app]. unfold printed.
  replace (BUFSIZE - 0 - 1) with (BUFSIZE - 1) by lia.
  by rewrite Nat.add_1_r.
Qed.

(** A later [snprintf], at the offset the lengths printed so far add up
    to: the array holds the first 8191 characters of everything printed,
    and a NUL. *)
Lemma c_snprintf_appends garbage b w t :
  Z.of_nat (length garbage) = BUFSIZE ->
  cells b = printed garbage w ->
  Z.of_nat (length w) + Z.of_nat (length t) < 2 ^ 64 ->
  let ofs := Z.of_nat (length w) in
  cells (fst (c_snprintf b ofs (wrap_size_t (BUFSIZE - ofs)) t)) =
  printed garbage (w ++ t).
Proof.
  intros Hg Hb Hsmall ofs. pose proof (eq_refl : BUFSIZE = 8192) as HB.
  destruct (Z.lt_trichotomy ofs BUFSIZE) as [Hlt|[Heq|Hgt]].
  - assert (Hw : wrap_size_t (BUFSIZE - ofs) = BUFSIZE - ofs)
      by (unfold wrap_size_t; apply Z.mod_small; lia).
    rewrite Hw, c_snprintf_cells;
      [|lia|rewrite Hb; by apply printed_length].
    rewrite Hb. unfold printed.
    rewrite (take_ge w) by lia.
    subst ofs. rewrite Nat2Z.id, take_app_length.
    rewrite <- Nat.add_assoc, drop_app_add, Nat.add_1_r. cbn [drop].
    rewrite drop_drop, take_app_ge by lia.
    replace (Z.to_nat (BUFSIZE - Z.of_nat (length w) - 1))
      with (Z.to_nat (BUFSIZE - 1) - length w)%nat by lia.
    rewrite <- app_assoc, length_app. done.
  - rewrite Heq, Z.sub_diag. change (wrap_size_t 0) with 0.
    unfold c_snprintf. cbn [Z.eqb fst]. rewrite Hb. unfold printed.
    by rewrite take_app_le by lia.
  - assert (Hw : wrap_size_t (BUFSIZE - ofs) = 2 ^ 64 - (ofs - BUFSIZE)).
    { unfold wrap_size_t.
      replace (BUFSIZE - ofs) with (2 ^ 64 - (ofs - BUFSIZE) + (-1) * 2 ^ 64)
        by lia.
      rewrite Z.mod_add by lia. apply Z.mod_small. lia. }
    rewrite Hw. unfold c_snprintf.
    destruct (Z.eqb_spec (2 ^ 64 - (ofs - BUFSIZE)) 0); [lia|]. cbn [fst].
    rewrite store_all_cells_outside by lia. rewrite Hb. unfold printed.
    by rewrite take_app_le by lia.
Qed.

(** What lines 289-298 leave in the array: the first 8191 characters of
    the line, and a NUL. *)
Lemma compose_message_cells verbose funcname filename lineno body garbage :
  Z.of_nat (length garbage) = BUFSIZE ->
  Z.of_nat (length (log_line verbose funcname filename lineno body)) <= INT_MAX ->
  cells (compose_message verbose funcname filename lineno body
           {| cells := garbage; overrun := [] |}) =
  printed garbage (log_line verbose funcname filename lineno body).
Proof.
  unfold log_line, compose_message. intros Hg Hsmall. unfold INT_MAX in Hsmall.
  set (prefix := list_ascii_of_string _) in *.
  set (text := list_ascii_of_string body) in *.
  rewrite !length_app in Hsmall. cbn [length] in Hsmall.
  set (b0 := {| cells := garbage; overrun := [] |}).
  change (wrap_size_t (BUFSIZE - 0)) with BUFSIZE.
  pose proof (c_snprintf_first garbage prefix Hg) as H1.
  pose proof (c_snprintf_returns b0 0 BUFSIZE prefix
                ltac:(unfold INT_MAX; lia)) as R1. fold b0 in H1.
  destruct (c_snprintf b0 0 BUFSIZE prefix) as [b1 r1]. cbn [fst snd] in *.
  subst r1.
  assert (Hw1 : wrap_size_t (0 + Z.of_nat (length prefix)) = Z.of_nat (length prefix))
    by (unfold wrap_size_t; apply Z.mod_small; lia).
  rewrite Hw1.
  pose proof (c_snprintf_appends garbage b1 prefix text Hg H1 ltac:(lia)) as H2.
  cbv zeta in H2.
  pose proof (c_snprintf_returns b1 (Z.of_nat (length prefix))
                (wrap_size_t (BUFSIZE - Z.of_nat (length prefix))) text
                ltac:(unfold INT_MAX; lia)) as R2.
  destruct (c_snprintf b1 _ _ text) as [b2 r2]. cbn [fst snd] in *. subst r2.
  assert (Hw2 : wrap_size_t (Z.of_nat (length prefix) + Z.of_nat (length text))
                = Z.of_nat (length (prefix ++ text))).
  { rewrite length_app. unfold wrap_size_t. rewrite Z.mod_small; lia. }
  rewrite Hw2.
  pose proof (c_snprintf_appends garbage b2 (prefix ++ text) [ascii_of_nat 10]
                Hg H2) as H3.
  cbv zeta in H3. rewrite length_app in H3. cbn [length] in H3.
  specialize (H3 ltac:(lia)). rewrite <- length_app in H3.
  destruct (c_snprintf b2 _ _ [ascii_of_nat 10]) as [b3 r3]. cbn [fst] in H3.
  by rewrite H3, <- app_assoc.
Qed.

Lemma no_nul_Forall l : no_nul l = true -> Forall (fun c => c <> zero) l.
Proof.
  unfold no_nul. rewrite forallb_forall, Forall_forall.
  intros H c Hc. specialize (H c Hc). by destruct (Ascii.eqb_spec c zero).
Qed.

(** Whatever is stored outside the array is stored behind it. *)
Lemma store_all_overrun_behind text : forall b ofs,
  0 <= ofs ->
  Forall (fun w => BUFSIZE <= fst w) (overrun b) ->
  Forall (fun w => BUFSIZE <= fst w) (overrun (store_all b ofs text)).
Proof.
  induction text as [|c text IH]; intros b ofs H0 Hb; [done|].
  cbn [store_all]. apply IH; [lia|]. rewrite store_overrun.
  destruct (Z.leb_spec 0 ofs); [|lia].
  destruct (Z.ltb_spec ofs BUFSIZE); cbn [andb]; [done|].
  apply Forall_app. split; [done|]. by repeat constructor.
Qed.

Lemma c_snprintf_overrun_behind b ofs size text :
  0 <= ofs ->
  Forall (fun w => BUFSIZE <= fst w) (overrun b) ->
  Forall (fun w => BUFSIZE <= fst w) (overrun (fst (c_snprintf b ofs size text))).
Proof.
  intros H0 Hb. unfold c_snprintf. destruct (size =? 0); [done|].
  by apply store_all_overrun_behind.
Qed.

Lemma compose_message_overrun_behind verbose funcname filename lineno body garbage :
  Forall (fun w => BUFSIZE <= fst w)
    (overrun (compose_message verbose funcname filename lineno body
                {| cells := garbage; overrun := [] |})).
Proof.
  unfold compose_message.
  set (b0 := {| cells := garbage; overrun := [] |}).
  pose proof (c_snprintf_overrun_behind b0 0 (wrap_size_t (BUFSIZE - 0))
                (list_ascii_of_string (log_prefix verbose funcname filename lineno))
                ltac:(lia) ltac:(constructor)) as H1.
  destruct (c_snprintf b0 0 _ _) as [b1 r1]. cbn [fst] in H1.
  assert (Hw : forall z, 0 <= wrap_size_t z)
    by (intros z; unfold wrap_size_t; apply Z.mod_pos_bound; lia).
  pose proof (c_snprintf_overrun_behind b1 (wrap_size_t (0 + r1))
                (wrap_size_t (BUFSIZE - wrap_size_t (0 + r1)))
                (list_ascii_of_string body) (Hw _) H1) as H2.
  destruct (c_snprintf b1 _ _ _) as [b2 r2]. cbn [fst] in H2.
  pose proof (c_snprintf_overrun_behind b2 (wrap_size_t (wrap_size_t (0 + r1) + r2))
                (wrap_size_t (BUFSIZE - wrap_size_t (wrap_size_t (0 + r1) + r2)))
                [ascii_of_nat 10] (Hw _) H2) as H3.
  by destruct (c_snprintf b2 _ _ _) as [b3 r3].
Qed.

End LogContent.

(** X8: what the log writer hands to [write] is the line, cut to the
    8191 characters that fit in the array with their NUL.  For an array
    of 8192 bytes, whatever it holds on entry, and a prefix and a body
    that are C strings and together at most 8192 characters long (so
    that every store stays inside the array): nothing is stored outside
    the array; the array ends up holding the first 8191 characters of
    prefix, body and newline, then a NUL, then what was there before;
    nothing is written when the log does not go to stderr; otherwise
    exactly those characters are written, in one [write] to the
    terminal, or to the syslogger pipe in frames whose payloads, put
    together, are those characters. *)
Theorem clserv_log_writes_line P cfg garbage funcname filename lineno body :
  let line := log_line (verbose cfg) funcname filename lineno body in
  let sent := take (Z.to_nat (BUFSIZE - 1)) line in
  let out := __clserv_log P cfg garbage funcname filename lineno body in
  Z.of_nat (length garbage) = BUFSIZE ->
  no_nul line = true ->
  Z.of_nat (String.length (log_prefix (verbose cfg) funcname filename lineno)) +
  Z.of_nat (String.length body) <= BUFSIZE ->
  overrun (fst out) = [] /\
  cells (fst out) = sent ++ zero :: drop (S (length sent)) garbage /\
  (to_stderr cfg = false -> snd out = []) /\
  (to_stderr cfg = true ->
   redirection_done cfg && negb (am_syslogger cfg) = false ->
   snd out = [WriteBuf sent]) /\
  (to_stderr cfg = true ->
   redirection_done cfg && negb (am_syslogger cfg) = true ->
   exists chunks,
     snd out = map WriteChunk chunks /\
     concat (map proto_data chunks) = sent).
Proof.
  intros line sent out Hg Hnul Hfit.
  pose proof (eq_refl : BUFSIZE = 8192) as HB.
  pose proof (Nat2Z.is_nonneg (String.length
                (log_prefix (verbose cfg) funcname filename lineno))) as Hp0.
  pose proof (Nat2Z.is_nonneg (String.length body)) as Hb0.
  split.
  { apply clserv_log_overrun; [unfold INT_MAX; lia..|done]. }
  assert (Hline : Z.of_nat (length line) <= INT_MAX).
  { subst line. unfold log_line. rewrite !length_app, !length_list_ascii_of_string.
    cbn [length]. unfold INT_MAX. lia. }
  assert (Hcells : cells (compose_message (verbose cfg) funcname filename lineno
                            body {| cells := garbage; overrun := [] |})
                   = sent ++ zero :: drop (S (length sent)) garbage)
    by (by rewrite compose_message_cells).
  assert (Hlen : strlen (sent ++ zero :: drop (S (length sent)) garbage)
                 = Some (Z.of_nat (length sent)))
    by (apply strlen_at_nul, Forall_take, no_nul_Forall, Hnul).
  assert (Htake : take (Z.to_nat (Z.of_nat (length sent)))
                    (sent ++ zero :: drop (S (length sent)) garbage) = sent)
    by (by rewrite Nat2Z.id, take_app_length).
  subst out. rewrite clserv_log_buffer. split; [exact Hcells|].
  unfold __clserv_log. rewrite Hcells, Hlen.
  split; [by intros ->|]. split.
  - intros -> ->. cbn [snd]. by rewrite Htake.
  - intros -> ->. cbn [snd]. eexists. split; [done|].
    rewrite write_pipe_chunks_payload; [done|].
    rewrite length_app, length_cons. lia.
Qed.

Lemma clserv_log_writes_line_witness :
  snd (__clserv_log 503 sample_terminal_settings sample_garbage
         "pgstrom_opencl_sighup" "opencl_serv.c" 59 "Got SIGHUP") =
  [WriteBuf (take (Z.to_nat (BUFSIZE - 1))
               (log_line true "pgstrom_opencl_sighup" "opencl_serv.c" 59
                  "Got SIGHUP"))].
Proof.
  assert (Hg : Z.of_nat (length sample_garbage) = BUFSIZE)
    by (vm_compute; reflexivity).
  assert (Hnul : no_nul (log_line (verbose sample_terminal_settings)
                           "pgstrom_opencl_sighup" "opencl_serv.c" 59
                           "Got SIGHUP") = true)
    by (vm_compute; reflexivity).
  assert (Hfit : Z.of_nat (String.length
                              (log_prefix (verbose sample_terminal_settings)
                                 "pgstrom_opencl_sighup" "opencl_serv.c" 59)) +
                 Z.of_nat (String.length "Got SIGHUP") <= BUFSIZE)
    by (vm_compute; discriminate).
  pose proof (clserv_log_writes_line 503 sample_terminal_settings sample_garbage
                "pgstrom_opencl_sighup" "opencl_serv.c" 59 "Got SIGHUP"
                Hg Hnul Hfit) as (_ & _ & _ & H & _).
  exact (H eq_refl eq_refl).
Defined.

(** X9: for a prefix and a body whose lengths [snprintf] and
    [vsnprintf] can return, that is of at most INT_MAX characters each,
    the log writer stays inside its array exactly when the two together
    are at most 8192 characters long; and whatever it stores outside the
    array it stores behind its end, never before its start. *)
Theorem clserv_log_overrun_iff P cfg garbage funcname filename lineno body :
  let n1 := Z.of_nat (String.length
                        (log_prefix (verbose cfg) funcname filename lineno)) in
  let n2 := Z.of_nat (String.length body) in
  let buf := fst (__clserv_log P cfg garbage funcname filename lineno body) in
  n1 <= INT_MAX -> n2 <= INT_MAX ->
  (overrun buf = [] <-> n1 + n2 <= BUFSIZE) /\
  Forall (fun w => BUFSIZE <= fst w) (overrun buf).
Proof.
  intros n1 n2 buf H1 H2. subst buf. rewrite clserv_log_buffer.
  split; [by apply compose_message_overrun|].
  apply compose_message_overrun_behind.
Qed.

Lemma clserv_log_overrun_iff_witness :
  overrun (fst (__clserv_log 503 sample_terminal_settings sample_garbage
                  "pgstrom_opencl_sighup" "opencl_serv.c" 59 "Got SIGHUP")) = [].
Proof.
  pose proof (clserv_log_overrun_iff 503 sample_terminal_settings sample_garbage
                "pgstrom_opencl_sighup" "opencl_serv.c" 59 "Got SIGHUP"
                ltac:(vm_compute; discriminate) ltac:(vm_compute; discriminate))
    as (H & _).
  apply H. vm_compute. discriminate.
Defined.

Lemma write_pipe_chunks_sizes P pid data len :
  0 <= len <= Z.of_nat (length data) ->
  payload_sizes (write_pipe_chunks P pid data len) =
  repeat (Z.pos P) (Z.to_nat ((len - 1) / Z.pos P)) ++
  [len - Z.pos P * Z.max 0 ((len - 1) / Z.pos P)].
Proof.
  funelim (write_pipe_chunks P pid data len); intros Hlen.
  - unfold payload_sizes in *. cbn [map proto_data].
    rewrite H by (rewrite length_drop; lia).
    replace (len - 1) with (len - Z.pos PIPE_MAX_PAYLOAD - 1 + 1 * Z.pos PIPE_MAX_PAYLOAD)
      by lia.
    rewrite Z.div_add by lia.
    assert (Hq : 0 <= (len - Z.pos PIPE_MAX_PAYLOAD - 1) / Z.pos PIPE_MAX_PAYLOAD)
      by (apply Z.div_pos; lia).
    replace (Z.to_nat ((len - Z.pos PIPE_MAX_PAYLOAD - 1) / Z.pos PIPE_MAX_PAYLOAD + 1))
      with (S (Z.to_nat ((len - Z.pos PIPE_MAX_PAYLOAD - 1) / Z.pos PIPE_MAX_PAYLOAD)))
      by lia.
    cbn [repeat app]. f_equal.
    + rewrite length_take_le by lia. lia.
    + f_equal. f_equal. lia.
  - unfold payload_sizes. cbn [map proto_data].
    assert (Hq : (len - 1) / Z.pos PIPE_MAX_PAYLOAD <= 0).
    { assert ((len - 1) / Z.pos PIPE_MAX_PAYLOAD < 1); [|lia].
      apply Z.div_lt_upper_bound; lia. }
    replace (Z.to_nat ((len - 1) / Z.pos PIPE_MAX_PAYLOAD)) with 0%nat by lia.
    cbn [repeat app]. f_equal. rewrite length_take_le by lia. lia.
Qed.

(** X10: the frames carry the message, in order and in full frames.
    For [len] bytes of [data], the payloads of the frames put together
    are those [len] bytes; every frame but the last carries exactly
    PIPE_MAX_PAYLOAD bytes, and the last carries the rest, which is
    never more than PIPE_MAX_PAYLOAD; an empty message still gives one
    frame. *)
Theorem pipe_chunks_carry_message P pid data len :
  0 <= len <= Z.of_nat (length data) ->
  let chunks := write_pipe_chunks P pid data len in
  let full := Z.max 0 ((len - 1) / Z.pos P) in
  concat (map proto_data chunks) = take (Z.to_nat len) data /\
  payload_sizes chunks = repeat (Z.pos P) (Z.to_nat full) ++ [len - Z.pos P * full] /\
  0 <= len - Z.pos P * full <= Z.pos P.
Proof.
  intros Hlen chunks full. split; [by apply write_pipe_chunks_payload|].
  split.
  - subst chunks full. rewrite write_pipe_chunks_sizes by done.
    do 2 f_equal. lia.
  - subst full. destruct (Z.max_spec 0 ((len - 1) / Z.pos P)) as [[Hq ->]|[Hq ->]].
    + pose proof (Z.mul_div_le (len - 1) (Z.pos P) ltac:(lia)).
      pose proof (Z.mul_succ_div_gt (len - 1) (Z.pos P) ltac:(lia)). lia.
    + assert (len - 1 < Z.pos P); [|lia].
      destruct (Z.lt_ge_cases (len - 1) (Z.pos P)); [done|].
      assert (1 <= (len - 1) / Z.pos P); [|lia].
      apply Z.div_le_lower_bound; lia.
Qed.

Lemma pipe_chunks_carry_message_witness :
  payload_sizes (write_pipe_chunks 4 7 (repeat "x"%char 10) 10) = [4; 4; 2].
Proof.
  apply (pipe_chunks_carry_message 4 7 (repeat "x"%char 10) 10).
  by vm_compute.
Defined.

(** X11: the header of every frame names the process, gives the size of
    the payload the frame carries (PIPE_MAX_PAYLOAD fits the 16 bits of
    the field), and is marked 'f': the last frame too, as line 335
    writes it. *)
Theorem pipe_chunks_headers P pid data len :
  0 <= len <= Z.of_nat (length data) -> Z.pos P < 2 ^ 16 ->
  Forall (fun c => proto_pid c = pid /\
                   proto_is_last c = "f"%char /\
                   proto_len c = Z.of_nat (length (proto_data c)))
    (write_pipe_chunks P pid data len).
Proof.
  funelim (write_pipe_chunks P pid data len); intros Hlen HP.
  - constructor; [|apply H; [rewrite length_drop|]; lia].
    cbn. split; [done|]. split; [done|].
    unfold wrap_uint16. rewrite Z.mod_small by lia. rewrite length_take_le by lia. lia.
  - constructor; [|constructor].
    cbn. split; [done|]. split; [done|].
    unfold wrap_uint16. rewrite Z.mod_small by lia. rewrite length_take_le by lia. lia.
Qed.

Lemma pipe_chunks_headers_witness :
  Forall (fun c => proto_pid c = 7 /\
                   proto_is_last c = "f"%char /\
                   proto_len c = Z.of_nat (length (proto_data c)))
    (write_pipe_chunks 4 7 (repeat "x"%char 10) 10).
Proof.
  apply (pipe_chunks_headers 4 7 (repeat "x"%char 10) 10); by vm_compute.
Defined.

(** ** Signals, workers and the main routine in the running process *)

Section Setup.
Variable env : environment.

Lemma main_never_restarts s mv :
  pgstrom_opencl_main env s = Some mv -> mv_pc mv <> PC_start.
Proof.
  unfold pgstrom_opencl_main, move. intros H.
  destruct (pc s); try discriminate;
    repeat match type of H with
           | context [match ?x with _ => _ end] => destruct x
           | context [if ?x then _ else _] => destruct x
           end;
    try discriminate; injection H as <-; done.
Qed.

Lemma setup_comes_first s :
  reachable env s ->
  (pc s = PC_start /\ trace s = [] /\ handlers s = [] /\ threads s = []) \/
  (pc s <> PC_start /\ map (pair Main) at_init `prefix_of` trace s).
Proof.
  revert s. apply (reachable_induction env); [by left|].
  intros s a s' _ IH Hstep. right.
  destruct IH as [(Hpc & Htr & Hh & Hts)|(Hpc & Hpre)].
  - destruct a as [|k deq|sig|h].
    + apply main_step_effect in Hstep as (mv & Hmv & Hpc' & _ & _ & _ & Htr' & _).
      unfold pgstrom_opencl_main in Hmv. rewrite Hpc in Hmv.
      injection Hmv as <-. cbn [mv_pc mv_events] in *.
      split; [by rewrite Hpc'|]. by rewrite Htr', Htr.
    + unfold sys_step in Hstep. rewrite Hts in Hstep.
      by destruct (alive s).
    + unfold sys_step, signals_unblocked in Hstep. rewrite Hpc in Hstep.
      by destruct (alive s).
    + unfold sys_step in Hstep. rewrite Hh in Hstep. by destruct (alive s).
  - destruct a as [|k deq|sig|h].
    + apply main_step_effect in Hstep as (mv & Hmv & Hpc' & _ & _ & _ & Htr & _).
      split; [rewrite Hpc'; by eapply main_never_restarts|].
      rewrite Htr. by apply prefix_app_r.
    + apply worker_step_effect in Hstep as (w & w' & ev & _ & _ & Hpc' & _ & _ & _ & Htr & _).
      split; [by rewrite Hpc'|]. rewrite Htr. by apply prefix_app_r.
    + apply signal_step_effect in Hstep as (Hpc' & _ & _ & _ & Htr & _).
      split; [by rewrite Hpc'|]. by rewrite Htr.
    + apply handler_step_effect in Hstep
        as (sig & hp & hp' & ev & _ & _ & Hpc' & _ & _ & _ & Htr & _).
      split; [by rewrite Hpc'|]. rewrite Htr. by apply prefix_app_r.
Qed.

(** X12: nothing happens in the process before the main routine has
    marked the process, installed both handlers and unblocked the
    signals.  Every trace starts with those five events of the main
    routine; in particular whatever a signal handler or a worker does
    comes after them. *)
Theorem handlers_installed_before_signals s :
  reachable env s ->
  (trace s = [] \/ map (pair Main) at_init `prefix_of` trace s) /\
  (forall pre a e post,
     trace s = pre ++ (a, e) :: post -> a <> Main ->
     map (pair Main) at_init `prefix_of` pre).
Proof.
  intros Hreach.
  destruct (setup_comes_first s Hreach) as [(_ & Htr & _)|(_ & Hpre)].
  - split; [by left|]. intros pre a e post Heq. rewrite Htr in Heq.
    by destruct pre.
  - split; [by right|]. intros pre a e post Heq Ha.
    destruct Hpre as [rest Hrest]. rewrite Hrest in Heq.
    apply app_split_at in Heq as [(post0 & Hs & _)|(pre' & -> & _)].
    + exfalso. assert (Hin : In (a, e) (map (pair Main) at_init))
        by (rewrite Hs; apply in_elt).
      apply in_map_iff in Hin as (e' & [= <- _] & _). done.
    + by apply prefix_app_r.
Qed.

End Setup.

Lemma handlers_installed_before_signals_witness :
  trace sample_final = [] \/
  map (pair Main) at_init `prefix_of` trace sample_final.
Proof.
  assert (Hreach : reachable sample_env sample_final)
    by (exists sample_schedule; vm_compute; reflexivity).
  exact (proj1 (handlers_installed_before_signals sample_env sample_final Hreach)).
Defined.

Lemma loop_iterations_processed its :
  loop_iterations its ->
  processed its = map (fun msg => (cb_process msg, msg)) (dequeued its).
Proof.
  unfold processed, dequeued.
  induction 1 as [|its _ IH|its msg _ IH]; [done|..];
    rewrite !omap_app, IH, map_app; cbn; by rewrite ?app_nil_r.
Qed.

(** The callbacks in the trace of a worker follow its dequeues. *)
Lemma worker_processes_dequeued env s k w :
  reachable env s -> threads s !! k = Some w ->
  map (fun msg => (cb_process msg, msg)) (dequeued (worker_trace k s)) =
  processed (worker_trace k s) ++
  match w with
  | W_call msg => [(cb_process msg, msg)]
  | _ => []
  end.
Proof.
  intros Hreach Hk. pose proof (worker_inv_reachable env s Hreach k) as Hinv.
  rewrite Hk in Hinv. destruct Hinv as (its & Hits & ->).
  unfold processed, dequeued. rewrite !omap_app, map_app.
  fold (processed its) (dequeued its). rewrite (loop_iterations_processed its Hits).
  destruct w; cbn; by rewrite ?app_nil_r.
Qed.

(** X13: no message is lost and none is processed twice.  Along any
    schedule of the process, take the messages the queue handed to
    worker [k], in the order it handed them out.  The callbacks the
    worker has called are the callbacks of these messages, each called
    once, on that message, in that order; only the last message handed
    out may still be waiting, and then the worker is at the call of its
    callback. *)
Theorem dequeued_messages_processed_once env sched s k w :
  sys_run env (initial env) sched = Some s -> threads s !! k = Some w ->
  map (fun msg => (cb_process msg, msg))
      (messages (handed_out env k (initial env) sched)) =
  processed (worker_trace k s) ++
  match w with
  | W_call msg => [(cb_process msg, msg)]
  | _ => []
  end.
Proof.
  intros Hrun Hk.
  rewrite <- (dequeue_calls_handed_out env k sched s Hrun),
    <- dequeued_dequeue_calls.
  apply (worker_processes_dequeued env); [by exists sched|done].
Qed.

Lemma dequeued_messages_processed_once_witness :
  messages (handed_out sample_env 0 (initial sample_env) sample_schedule) =
    [sample_message] /\
  processed (worker_trace 0 sample_final) =
    [(cb_process sample_message, sample_message)].
Proof.
  split; [vm_compute; reflexivity|].
  pose proof (dequeued_messages_processed_once sample_env sample_schedule
                sample_final 0 W_exited
                ltac:(vm_compute; reflexivity) eq_refl) as H.
  rewrite app_nil_r in H. rewrite <- H. vm_compute. reflexivity.
Defined.

Section AfterTheFlag.
Variable env : environment.

(** X14: once the shutdown flag is set the workers wind down.  From a
    state in which the flag is set, along any schedule, worker [k] takes
    at most four more steps, calls the queue at most once more and calls
    at most one more callback.  How much it can still do depends on
    where it stands: a worker about to test the flag, or a thread that
    is created only later, takes one step and touches no message, and a
    worker in a callback finishes it and takes no new message. *)
Theorem worker_winds_down_after_flag s sched s' k :
  pgstrom_clserv_exit_pending s = true -> sys_run env s sched = Some s' ->
  exists ext,
    worker_trace k s' = worker_trace k s ++ ext /\
    (length ext <= steps_left (threads s !! k) <= 4)%nat /\
    (length (dequeue_calls ext) <= dequeues_left (threads s !! k) <= 1)%nat /\
    (length (processed ext) <= callbacks_left (threads s !! k) <= 1)%nat.
Proof.
  intros Hflag Hrun.
  destruct (winding_down_run env sched s s' k Hflag Hrun) as (ext & Ht & Hs & Hd & Hc).
  exists ext. split; [done|].
  assert (steps_left (threads s !! k) <= 4)%nat
    by (destruct (threads s !! k) as [[]|]; cbn; lia).
  assert (dequeues_left (threads s !! k) <= 1)%nat
    by (destruct (threads s !! k) as [[]|]; cbn; lia).
  assert (callbacks_left (threads s !! k) <= 1)%nat
    by (destruct (threads s !! k) as [[]|]; cbn; lia).
  lia.
Qed.

End AfterTheFlag.

Lemma worker_winds_down_after_flag_witness :
  exists ext,
    worker_trace 0 sample_final = worker_trace 0 sample_flag_set ++ ext /\
    (length ext <= steps_left (threads sample_flag_set !! 0%nat) <= 4)%nat /\
    (length (dequeue_calls ext)
     <= dequeues_left (threads sample_flag_set !! 0%nat) <= 1)%nat /\
    (length (processed ext)
     <= callbacks_left (threads sample_flag_set !! 0%nat) <= 1)%nat.
Proof.
  apply (worker_winds_down_after_flag sample_env sample_flag_set
           (drop 18 sample_schedule) sample_final 0).
  - reflexivity.
  - vm_compute. reflexivity.
Defined.

Section UntilSignalled.
Variable env : environment.
Hypothesis configured_ok :
  guc_accepts pgstrom_init_opencl_server (configured_num_threads env).
Hypothesis creations_ok :
  forall i, 0 <= i < resolved_num_threads env -> pthread_create_ok env i = true.

Lemma main_writes_flag_on_failure s mv :
  pgstrom_opencl_main env s = Some mv ->
  flag_writes (mv_events mv) <> [] -> exists i, pc s = PC_fail_flag i.
Proof.
  unfold pgstrom_opencl_main, move. intros Hmv Hw.
  pose proof (init_events_silent _ (Forall_init_events env)) as (Hsilent & _).
  destruct (pc s); try done; try by eexists.
  all: exfalso; apply Hw; clear Hw.
  - by injection Hmv as <-.
  - destruct (init_opencl_context_and_shmem env) as [evs [[]|fmt]];
      injection Hmv as <-; cbn [mv_events fst] in *;
      by rewrite ?flag_writes_app, Hsilent.
  - destruct (opencl_num_threads s =? 0), (assert_checking env && _);
      by injection Hmv as <-.
  - destruct (malloc_ok env _); by injection Hmv as <-.
  - destruct (i <? _); [destruct (pthread_create_ok env i)|];
      by injection Hmv as <-.
  - destruct (i <? _); by injection Hmv as <-.
  - by injection Hmv as <-.
  - destruct (wrap_int (i - 1) >=? 0); by injection Hmv as <-.
  - destruct (threads s !! Z.to_nat i) as [[]|]; try done.
    by injection Hmv as <-.
  - by injection Hmv as <-.
  - by injection Hmv as <-.
Qed.

Lemma no_failure_point s i : reachable env s -> pc s <> PC_fail_flag i.
Proof.
  intros Hreach Hpc.
  pose proof (main_inv_reachable env configured_ok s Hreach) as Hinv.
  unfold main_inv in Hinv. rewrite Hpc in Hinv. cbv zeta in Hinv.
  destruct Hinv as (_ & (_ & Hfail) & Hlt & _). cbv zeta in Hfail.
  rewrite creations_ok in Hfail; [by specialize (Hfail Hlt)|lia].
Qed.

Lemma quiet_until_signalled s :
  reachable env s -> handlers s = [] ->
  pgstrom_clserv_exit_pending s = false /\
  (forall k w, threads s !! k = Some w -> w <> W_exited).
Proof.
  revert s. apply (reachable_induction env
    (fun s => handlers s = [] ->
              pgstrom_clserv_exit_pending s = false /\
              (forall k w, threads s !! k = Some w -> w <> W_exited))).
  { intros _. split; [done|]. by intros [|k] w. }
  intros s a s' Hreach IH Hstep Hh'. destruct a as [|k0 deq|sig|h].
  - apply main_step_effect in Hstep as (mv & Hmv & _ & _ & Hts & Hh & _ & Hflag).
    rewrite Hh in Hh'. destruct (IH Hh') as (IHf & IHt). split.
    + rewrite Hflag, IHf.
      destruct (flag_writes (mv_events mv)) eqn:Hw; [done|].
      destruct (main_writes_flag_on_failure s mv Hmv) as (i & Hpc);
        [by rewrite Hw|].
      by apply no_failure_point in Hpc.
    + intros k w. rewrite Hts. destruct (mv_started mv); [|by apply IHt].
      intros [Hk|(_ & Hk)]%lookup_app_Some; [by eapply IHt|].
      by apply list_lookup_singleton_Some in Hk as (_ & <-).
  - apply worker_step_effect in Hstep
      as (w & w' & ev & Hk0 & Hloop & _ & _ & Hts & Hh & _ & Hflag).
    rewrite Hh in Hh'. destruct (IH Hh') as (IHf & IHt).
    split; [by rewrite Hflag|].
    intros k w0. rewrite Hts.
    intros [(-> & <- & _)|(_ & Hk)]%list_lookup_insert_Some; [|by eapply IHt].
    rewrite IHf in Hloop. destruct w; cbn in Hloop; try discriminate;
      injection Hloop as <- _; try done. by destruct deq.
  - apply signal_step_effect in Hstep as (_ & _ & _ & Hh & _).
    rewrite Hh in Hh'. by destruct (handlers s).
  - apply handler_step_effect in Hstep
      as (sig & hp & hp' & ev & Hlook & _ & _ & _ & _ & Hh & _).
    exfalso. apply lookup_lt_Some in Hlook.
    assert (Hlen : length (handlers s') = length (handlers s))
      by (by rewrite Hh, length_insert).
    rewrite Hh' in Hlen. cbn in Hlen. lia.
Qed.

Lemma all_threads_started s :
  reachable env s -> spawn_over env s -> 0 < resolved_num_threads env ->
  exists w, threads s !! 0%nat = Some w.
Proof.
  intros Hreach ((_ & _ & _ & _ & _ & Hle) & Hfail) Hpos. cbv zeta in *.
  apply lookup_lt_is_Some.
  destruct (Z.lt_ge_cases (Z.of_nat (length (threads s))) (resolved_num_threads env))
    as [Hlt|Hge]; [|lia].
  specialize (Hfail Hlt). rewrite creations_ok in Hfail; [done|lia].
Qed.

(** X15: the server does not stop by itself.  When every thread can be
    created and the count is positive, then as long as no signal has
    been delivered the shutdown flag is unset, no worker has returned,
    the main routine has joined no thread and has not closed the queue,
    and it has returned only if the allocation of the thread handles
    failed. *)
Theorem server_runs_until_signalled s :
  reachable env s -> handlers s = [] -> 0 < resolved_num_threads env ->
  pgstrom_clserv_exit_pending s = false /\
  (forall k w, threads s !! k = Some w -> w <> W_exited) /\
  joins (main_trace s) = [] /\
  ~ In EvCloseServerQueue (main_trace s) /\
  (pc s = PC_returned -> malloc_ok env (malloc_size env) = false).
Proof.
  intros Hreach Hh Hpos.
  destruct (quiet_until_signalled s Hreach Hh) as (Hflag & Hrun).
  pose proof (main_inv_reachable env configured_ok s Hreach) as Hinv.
  split; [done|]. split; [done|].
  assert (Hnone : forall t, spawn_over env t -> reachable env t ->
                            exited_from 0 (threads t) ->
                            ~ (forall k w, threads t !! k = Some w -> w <> W_exited)).
  { intros t Hso Hr Hex Hno.
    destruct (all_threads_started t Hr Hso Hpos) as (w & Hw).
    apply (Hno 0%nat w Hw). apply (Hex 0%nat w); [lia|done]. }
  split; [|split].
  - destruct (joins (main_trace s)) as [|j js] eqn:Hj; [done|]. exfalso.
    assert (Hin : j ∈ joins (main_trace s)) by (rewrite Hj; left).
    apply list_elem_of_omap in Hin as (e & He & Hf).
    destruct e; try discriminate. injection Hf as ->.
    apply list_elem_of_In in He.
    apply (joined_exited env configured_ok s j Hreach) in He as (_ & Hw).
    by apply Hrun in Hw.
  - intros Hin.
    destruct (closed_returned env configured_ok s Hreach Hin) as (Hpc & Hex & _).
    unfold main_inv in Hinv. rewrite Hpc in Hinv. cbv zeta in Hinv.
    destruct Hinv as [(Hso & _)|(_ & _ & _ & _ & _ & Htr)].
    + by apply (Hnone s Hso Hreach Hex).
    + eapply (In_omap (fun e => match e with
                                | EvCloseServerQueue => Some tt
                                | _ => None
                                end)) in Hin; [|done].
      rewrite Htr in Hin. revert Hin. project. by intros [].
  - intros Hpc. unfold main_inv in Hinv. rewrite Hpc in Hinv. cbv zeta in Hinv.
    destruct Hinv as [(Hso & _ & Hex & _)|(_ & _ & _ & _ & Hm & _)]; [|done].
    exfalso. by apply (Hnone s Hso Hreach Hex).
Qed.

End UntilSignalled.

Lemma sample_creations_ok i :
  0 <= i < resolved_num_threads sample_env -> pthread_create_ok sample_env i = true.
Proof. reflexivity. Defined.

Lemma server_runs_until_signalled_witness :
  pgstrom_clserv_exit_pending sample_running = false /\
  joins (main_trace sample_running) = [] /\
  ~ In EvCloseServerQueue (main_trace sample_running).
Proof.
  assert (Hreach : reachable sample_env sample_running)
    by (exists (take 16 sample_schedule); vm_compute; reflexivity).
  pose proof (server_runs_until_signalled sample_env sample_configured_ok
                sample_creations_ok sample_running Hreach eq_refl
                ltac:(vm_compute; reflexivity)) as (H1 & _ & H2 & H3 & _).
  exact (conj H1 (conj H2 H3)).
Defined.

Section ThreadHandles.
Variable env : environment.
Hypothesis configured_ok :
  guc_accepts pgstrom_init_opencl_server (configured_num_threads env).

Lemma creations_shape s :
  reachable env s ->
  (creations (main_trace s) = [] /\ threads s = []) \/
  (In (EvMalloc (malloc_size env) true) (main_trace s) /\
   let c := Z.of_nat (length (threads s)) in
   (c <= resolved_num_threads env \/ c = 0) /\
   exists tail,
     creations (main_trace s) = map (fun k => (k, true)) (seqZ 0 c) ++ tail /\
     (tail = [] \/ (tail = [(c, false)] /\ c < resolved_num_threads env))).
Proof.
  intros Hreach.
  pose proof (main_inv_reachable env configured_ok s Hreach) as Hinv.
  by_pc Hinv.
  all: try (left; split; [unfold creations; by project|done]).
  all: right; split;
    [unfold at_return, at_close, at_join, at_spawned, at_spawn;
     rewrite ?in_app_iff; cbn [In]; tauto|].
  all: cbv zeta; split;
    [match goal with
     | H : started _ _ |- _ => apply H
     | H : spawn_over _ _ |- _ => apply H
     end|].
  1: { exists []. split; [unfold creations; by project|by left]. }
  all: exists (if Z.of_nat (length (threads s)) <? resolved_num_threads env
               then [(Z.of_nat (length (threads s)), false)] else []).
  all: split; [unfold creations; by project|].
  all: destruct (Z.ltb_spec (Z.of_nat (length (threads s))) (resolved_num_threads env));
    [by right|by left].
Qed.

Lemma malloc_size_exact :
  0 <= resolved_num_threads env ->
  malloc_size env = sizeof_pthread_t * resolved_num_threads env.
Proof.
  intros Hpos. pose proof (resolved_in_int env configured_ok) as Hint.
  unfold in_int, INT_MIN, INT_MAX in Hint.
  unfold malloc_size, wrap_size_t, sizeof_pthread_t.
  rewrite (Z.mod_small (resolved_num_threads env)) by lia.
  apply Z.mod_small. lia.
Qed.

(** X16: the array of thread handles is used inside its bounds.  Every
    [pthread_create] stores its handle in a slot that lies inside the
    array [malloc] returned, which has room for exactly
    [opencl_num_threads] handles; and every [pthread_join] reads a slot
    that a successful [pthread_create] has filled, for a thread that has
    returned. *)
Theorem thread_handles_within_allocation s :
  reachable env s ->
  (forall i ok, In (EvPthreadCreate i ok) (main_trace s) ->
     0 <= i < resolved_num_threads env /\
     exists size,
       In (EvMalloc size true) (main_trace s) /\
       size = sizeof_pthread_t * resolved_num_threads env /\
       0 <= sizeof_pthread_t * i /\
       sizeof_pthread_t * i + sizeof_pthread_t <= size) /\
  (forall j, In (EvPthreadJoin j) (main_trace s) ->
     In (EvPthreadCreate j true) (main_trace s) /\
     threads s !! Z.to_nat j = Some W_exited).
Proof.
  intros Hreach. pose proof (creations_shape s Hreach) as Hshape.
  assert (Hevent : forall k ok,
    In (k, ok) (creations (main_trace s)) -> In (EvPthreadCreate k ok) (main_trace s)).
  { intros k ok Hin. apply list_elem_of_In, list_elem_of_omap in Hin as (e & He & Hf).
    destruct e; try discriminate. injection Hf as -> ->. by apply list_elem_of_In. }
  split.
  - intros i ok Hin.
    eapply (In_omap (fun e => match e with
                              | EvPthreadCreate k b => Some (k, b)
                              | _ => None
                              end)) in Hin; [|done].
    fold (creations (main_trace s)) in Hin.
    destruct Hshape as [(Hnil & _)|(Hmalloc & Hc & tail & Heq & Htail)];
      [by rewrite Hnil in Hin|].
    cbv zeta in *. rewrite Heq in Hin.
    assert (Hi : 0 <= i < resolved_num_threads env).
    { apply in_app_iff in Hin as [Hin|Hin].
      - apply in_map_iff in Hin as (k & [= <- <-] & Hk). apply In_seqZ in Hk. lia.
      - destruct Htail as [->|(-> & Hlt)]; [done|].
        destruct Hin as [[= <- <-]|[]]. lia. }
    split; [done|]. exists (malloc_size env). split; [done|].
    split; [apply malloc_size_exact; lia|].
    rewrite malloc_size_exact by lia. unfold sizeof_pthread_t. lia.
  - intros j Hin.
    destruct (joined_exited env configured_ok s j Hreach Hin) as (Hj & Hw).
    split; [|done]. apply Hevent.
    destruct Hshape as [(_ & Hnil)|(_ & _ & tail & -> & _)];
      [by rewrite Hnil in Hw|].
    apply in_app_iff. left. apply in_map_iff. exists j. split; [done|].
    apply In_seqZ. apply lookup_lt_Some in Hw. lia.
Qed.

End ThreadHandles.

Lemma thread_handles_within_allocation_witness :
  0 <= 1 < resolved_num_threads sample_env /\
  In (EvPthreadCreate 0 true) (main_trace sample_final) /\
  threads sample_final !! Z.to_nat 0 = Some W_exited.
Proof.
  assert (Hreach : reachable sample_env sample_final)
    by (exists sample_schedule; vm_compute; reflexivity).
  pose proof (thread_handles_within_allocation sample_env sample_configured_ok
                sample_final Hreach) as (H1 & H2).
  destruct (H1 1 true ltac:(vm_compute; tauto)) as (Hi & _).
  destruct (H2 0 ltac:(vm_compute; tauto)) as (Hc & Hw).
  exact (conj Hi (conj Hc Hw)).
Defined.

Section Announcement.
Variable env : environment.
Hypothesis configured_ok :
  guc_accepts pgstrom_init_opencl_server (configured_num_threads env).

Lemma omap_is_log_init fmt :
  ~ In fmt [context_failed; cmdq_failed; buffer_failed;
            "PG-Strom: setting up shared memory (zone length=%zu)";
            "PG-Strom: zone %p-%p was mapped (len: %luMB)"] ->
  omap (is_log fmt) (fst (init_opencl_context_and_shmem env)) = [].
Proof.
  intros Hfmt. apply omap_silent, Forall_forall. intros e He.
  destruct e as [| | | | | | | |lvl f| | | | | | | | | | | | |]; try done.
  destruct lvl; [|done]. cbn. destruct (String.eqb_spec f fmt) as [->|]; [|done].
  exfalso. apply Hfmt. by eapply init_log_lines.
Qed.

Lemma threads_up_logged s :
  reachable env s -> In ThreadsUp (main_trace s) ->
  let c := Z.of_nat (length (threads s)) in
  (c <? resolved_num_threads env) = false /\
  (c <= resolved_num_threads env \/ c = 0) /\
  ((exists i, main_trace s = at_join env c i) \/
   main_trace s = at_close env c \/ main_trace s = at_return env c).
Proof.
  intros Hreach Hin c.
  pose proof (main_inv_reachable env configured_ok s Hreach) as Hinv.
  eapply (In_omap (is_log "PG-Strom: %d of server threads are up")) in Hin; [|done].
  assert (Hup : omap (is_log "PG-Strom: %d of server threads are up")
                  (fst (init_opencl_context_and_shmem env)) = [])
    by (apply omap_is_log_init; cbn; intuition discriminate).
  unfold is_log in *. subst c.
  by_pc Hinv; revert Hin; project; rewrite ?Hup;
    cbn [omap list_omap app String.eqb Ascii.eqb Bool.eqb andb];
    try (by intros []).
  all: destruct (_ <? _); [by intros []|intros _].
  all: (split; [done|]);
    (split; [match goal with H : spawn_over _ _ |- _ => apply H end|]); eauto.
Qed.

(** X17: the line "%d of server threads are up" is logged only when
    every thread was created.  In a state whose trace holds it, the
    threads created are 0 .. [opencl_num_threads] - 1, all of them
    successfully; the failure line was not logged and the main routine
    has never written the shutdown flag.  The count logged is the
    number of threads unless it is negative. *)
Theorem threads_up_is_truthful s :
  reachable env s -> In ThreadsUp (main_trace s) ->
  Z.of_nat (length (threads s)) = Z.max 0 (resolved_num_threads env) /\
  creations (main_trace s) =
    map (fun k => (k, true)) (seqZ 0 (resolved_num_threads env)) /\
  ~ In WorkerStartupFailed (main_trace s) /\
  flag_writes (main_trace s) = [].
Proof.
  intros Hreach Hin.
  destruct (threads_up_logged s Hreach Hin) as (Hlt & Hle & Htr). cbv zeta in *.
  pose proof Hlt as Hge. apply Z.ltb_ge in Hge.
  assert (Hfailed : omap (is_log "failed to create server threads")
                      (fst (init_opencl_context_and_shmem env)) = [])
    by (apply omap_is_log_init; cbn; intuition discriminate).
  assert (Hseq : seqZ 0 (Z.of_nat (length (threads s))) =
                 seqZ 0 (resolved_num_threads env)).
  { destruct Hle as [Hle|Hz]; [f_equal; lia|]. rewrite !seqZ_nil by lia. done. }
  split; [lia|]. rewrite <- Hseq.
  assert (Hnot : forall t, omap (is_log "failed to create server threads") t = [] ->
                           ~ In WorkerStartupFailed t).
  { intros t Ht Hin'. eapply (In_omap (is_log "failed to create server threads"))
      in Hin'; [|done]. by rewrite Ht in Hin'. }
  unfold is_log in *.
  destruct Htr as [(i & ->)|[-> | ->]].
  all: split; [unfold creations; project; by rewrite Hlt, app_nil_r|].
  all: split; [apply Hnot|unfold flag_writes]; project; rewrite ?Hfailed, ?Hlt;
    cbn [omap list_omap app String.eqb Ascii.eqb Bool.eqb andb]; done.
Qed.

End Announcement.

Lemma threads_up_is_truthful_witness :
  Z.of_nat (length (threads sample_final)) = Z.max 0 (resolved_num_threads sample_env) /\
  creations (main_trace sample_final) =
    map (fun k => (k, true)) (seqZ 0 (resolved_num_threads sample_env)) /\
  ~ In WorkerStartupFailed (main_trace sample_final) /\
  flag_writes (main_trace sample_final) = [].
Proof.
  apply (threads_up_is_truthful sample_env sample_configured_ok sample_final).
  - exists sample_schedule. vm_compute. reflexivity.
  - vm_compute. tauto.
Defined.

(** ** Progress and shutdown *)

Section Progress.
Variable env : environment.
Hypothesis configured_ok :
  guc_accepts pgstrom_init_opencl_server (configured_num_threads env).

(** X18: the main routine blocks nowhere but in [pthread_join].  In a
    state the process reaches, while the routine has neither returned
    nor aborted, its next step is enabled unless it is inside
    [pthread_join] on a thread that has not returned; that thread then
    exists and its own next step is enabled, whatever the queue hands
    out. *)
Theorem main_blocks_only_in_join s :
  reachable env s -> alive s = true ->
  (sys_step env s ActMain = None <->
   exists i, pc s = PC_joining i /\ threads s !! Z.to_nat i <> Some W_exited) /\
  (forall i, pc s = PC_joining i ->
     exists w, threads s !! Z.to_nat i = Some w /\
       (w <> W_exited ->
        forall deq, is_Some (sys_step env s (ActWorker (Z.to_nat i) deq)))).
Proof.
  intros Hreach Halive. split; [split|].
  - by apply main_step_blocked.
  - intros (i & Hpc & Hw). unfold sys_step. rewrite Halive. cbn.
    unfold pgstrom_opencl_main. rewrite Hpc.
    by destruct (threads s !! Z.to_nat i) as [[]|].
  - intros i Hpc.
    pose proof (main_inv_reachable env configured_ok s Hreach) as Hinv.
    unfold main_inv in Hinv. rewrite Hpc in Hinv. cbv zeta in Hinv.
    destruct Hinv as (Hi & _).
    destruct (lookup_lt_is_Some_2 (threads s) (Z.to_nat i) ltac:(lia)) as (w & Hw).
    exists w. split; [done|]. intros Hne deq.
    destruct (pgstrom_opencl_event_loop (pgstrom_clserv_exit_pending s) deq w)
      as [[w' ev]|] eqn:Hloop; [|by destruct w].
    destruct (worker_step_enabled env s (Z.to_nat i) deq w w' ev Halive Hw Hloop)
      as (s' & -> & _). by eexists.
Qed.

End Progress.

Lemma main_blocks_only_in_join_witness :
  sys_step sample_env sample_running ActMain = None <->
  exists i, pc sample_running = PC_joining i /\
            threads sample_running !! Z.to_nat i <> Some W_exited.
Proof.
  assert (Hreach : reachable sample_env sample_running)
    by (exists (take 16 sample_schedule); vm_compute; reflexivity).
  exact (proj1 (main_blocks_only_in_join sample_env sample_configured_ok
                  sample_running Hreach eq_refl)).
Defined.

Section ShutdownPossible.
Variable env : environment.
Hypothesis configured_ok :
  guc_accepts pgstrom_init_opencl_server (configured_num_threads env).

(** X19: the server can always be shut down.  From every state the
    process reaches there is a continuation (the main routine unblocking
    the signals if it has not yet, a SIGTERM and its handler if the flag
    is not set, then steps of the workers and of the main routine) after
    which the main routine has returned or aborted, with every thread
    returned: no state is a dead end.  The queue is taken to let a
    waiting worker go, which is what the cancellation of the server loop
    asks of it. *)
Theorem shutdown_always_possible s :
  reachable env s ->
  exists sched s',
    sys_run env s sched = Some s' /\ alive s' = false /\ all_exited (threads s').
Proof.
  intros Hreach.
  assert (Hflagged : exists sched0 s0,
    sys_run env s sched0 = Some s0 /\
    (alive s0 = false \/ pgstrom_clserv_exit_pending s0 = true)).
  { destruct (alive s) eqn:Halive; [|exists [], s; auto].
    destruct (signals_unblocked s) eqn:Hsig.
    - destruct (signal_sets_flag env s SIGTERM Halive Hsig) as (s0 & Hrun & Hflag & _).
      eexists _, s0. split; [exact Hrun|by right].
    - destruct (sys_step env s ActMain) as [s1|] eqn:Hmain.
      + assert (Hpc1 : pc s1 = PC_init).
        { apply main_step_effect in Hmain as (mv & Hmv & -> & _).
          unfold signals_unblocked in Hsig. unfold pgstrom_opencl_main in Hmv.
          destruct (pc s); try discriminate. by injection Hmv as <-. }
        destruct (signal_sets_flag env s1 SIGTERM) as (s0 & Hrun & Hflag & _);
          [unfold alive; by rewrite Hpc1|unfold signals_unblocked; by rewrite Hpc1|].
        eexists (ActMain :: _), s0. cbn [sys_run]. rewrite Hmain.
        split; [exact Hrun|by right].
      + destruct (main_step_blocked env s Halive Hmain) as (i & Hpc & _).
        unfold signals_unblocked in Hsig. by rewrite Hpc in Hsig. }
  destruct Hflagged as (sched0 & s0 & Hrun0 & Hcase).
  pose proof (reachable_run env s sched0 s0 Hreach Hrun0) as Hreach0.
  assert (Hend : exists sched1 s', sys_run env s0 sched1 = Some s' /\ alive s' = false).
  { destruct Hcase as [Hdead|Hflag]; [by exists [], s0|].
    set (N := Z.max 0 (resolved_num_threads env)).
    destruct (shutdown_from_flag env configured_ok
                (Z.to_nat (main_steps_left N (pc s0))) s0 Hreach0 Hflag
                ltac:(fold N; lia)) as (sched1 & s' & Hrun1 & Hdead & _).
    by exists sched1, s'. }
  destruct Hend as (sched1 & s' & Hrun1 & Hdead).
  exists (sched0 ++ sched1), s'. rewrite sys_run_app, Hrun0.
  split; [done|]. split; [done|].
  pose proof (reachable_run env s0 sched1 s' Hreach0 Hrun1) as Hreach'.
  pose proof (main_inv_reachable env configured_ok s' Hreach') as Hinv.
  unfold alive in Hdead. unfold main_inv in Hinv. cbv zeta in Hinv.
  destruct (pc s'); try discriminate.
  - destruct Hinv as [(_ & _ & Hex & _)|(Hnil & _)].
    + intros k w Hk. apply (Hex k w); [lia|done].
    + rewrite Hnil. by intros [|k] w.
  - destruct Hinv as (Hnil & _). rewrite Hnil. by intros [|k] w.
Qed.

End ShutdownPossible.

Lemma shutdown_always_possible_witness :
  exists sched s',
    sys_run sample_env sample_running sched = Some s' /\
    alive s' = false /\ all_exited (threads s').
Proof.
  apply (shutdown_always_possible sample_env sample_configured_ok sample_running).
  exists (take 16 sample_schedule). vm_compute. reflexivity.
Defined.

(** ** The thread count and the way up *)

Section ThreadCount.
Variable env : environment.
Hypothesis configured_ok :
  guc_accepts pgstrom_init_opencl_server (configured_num_threads env).

(** X20: a failed [Assert] on the thread count stops the start-up
    before anything is allocated.  In a state whose trace holds the
    failed assertion, assertion checking is compiled in and the count is
    not positive; the routine has aborted with the assertion as its last
    event; no memory was asked for, no thread exists, and the process
    takes no further step.  With assertion checking compiled in, a
    count that is not positive never reaches [malloc]. *)
Theorem failed_assert_stops_startup s :
  reachable env s ->
  (In EvAssertFailed (main_trace s) ->
   assert_checking env = true /\ resolved_num_threads env <= 0 /\
   pc s = PC_aborted /\ threads s = [] /\
   list.last (main_trace s) = Some EvAssertFailed /\
   forall a, sys_step env s a = None) /\
  (assert_checking env = true -> resolved_num_threads env <= 0 ->
   forall size ok, ~ In (EvMalloc size ok) (main_trace s)).
Proof.
  intros Hreach.
  pose proof (main_inv_reachable env configured_ok s Hreach) as Hinv.
  split.
  - intros Hin.
    eapply (In_omap (fun e => match e with
                              | EvAssertFailed => Some tt
                              | _ => None
                              end)) in Hin; [|done].
    assert (Hwhere : assert_checking env = true /\ resolved_num_threads env <= 0 /\
                     pc s = PC_aborted /\ threads s = [] /\
                     main_trace s = at_assert_failure env)
      by (by_pc Hinv; revert Hin; project; try (by intros []); done).
    destruct Hwhere as (Hassert & Hle & Hpc & Hnil & Htr).
    split; [done|]. split; [done|]. split; [done|]. split; [done|].
    split; [rewrite Htr; unfold at_assert_failure; by rewrite last_snoc|].
    intros a. unfold sys_step, alive. by rewrite Hpc.
  - intros Hassert Hle size ok Hin.
    eapply (In_omap (fun e => match e with
                              | EvMalloc sz b => Some (sz, b)
                              | _ => None
                              end)) in Hin; [|done].
    by_pc Hinv; revert Hin; project; try (by intros []);
      try match goal with
          | H : started _ _ |- _ => destruct H as (_ & _ & Hpos & _)
          | H : spawn_over _ _ |- _ => destruct H as ((_ & _ & Hpos & _) & _)
          | H : assert_checking env = true -> _ |- _ => pose proof H as Hpos
          end; specialize (Hpos Hassert); lia.
Qed.

(** X21: zero means automatic selection, and only zero does.  The
    routine asks [sysconf] for the number of processors only when no
    thread count is configured; once it has asked [malloc] for the
    thread handles, [opencl_num_threads] is the configured count if that
    is not zero and otherwise what [sysconf] returned, as an [int]
    ([sysconf] was then called), and the size asked for is
    [sizeof(pthread_t)] times that count, computed in [size_t]. *)
Theorem thread_count_auto_selection s :
  reachable env s ->
  (forall r, In (EvSysconf r) (main_trace s) ->
     configured_num_threads env = 0 /\ r = sysconf_nprocessors_onln env) /\
  (forall size ok, In (EvMalloc size ok) (main_trace s) ->
     opencl_num_threads s =
       (if configured_num_threads env =? 0
        then wrap_int (sysconf_nprocessors_onln env)
        else configured_num_threads env) /\
     size = wrap_size_t (sizeof_pthread_t * wrap_size_t (opencl_num_threads s)) /\
     (configured_num_threads env = 0 ->
      In (EvSysconf (sysconf_nprocessors_onln env)) (main_trace s))).
Proof.
  intros Hreach.
  pose proof (main_inv_reachable env configured_ok s Hreach) as Hinv.
  split.
  - intros r Hin.
    eapply (In_omap (fun e => match e with EvSysconf x => Some x | _ => None end))
      in Hin; [|done].
    assert (Hr : In r (if configured_num_threads env =? 0
                       then [sysconf_nprocessors_onln env] else []))
      by (by_pc Hinv; revert Hin; project; try (by intros []); done).
    destruct (Z.eqb_spec (configured_num_threads env) 0); [|done].
    by destruct Hr as [<-|[]].
  - intros size ok Hin.
    eapply (In_omap (fun e => match e with
                              | EvMalloc sz b => Some sz
                              | _ => None
                              end)) in Hin; [|done].
    assert (Hwhere : opencl_num_threads s = resolved_num_threads env /\
                     size = malloc_size env /\
                     omap (fun e => match e with EvSysconf x => Some x | _ => None end)
                       (main_trace s) =
                     if configured_num_threads env =? 0
                     then [sysconf_nprocessors_onln env] else []).
    { by_pc Hinv; revert Hin; project; try (by intros []).
      all: intros [<-|[]].
      all: split; [first [done
                         | match goal with
                           | H : started _ _ |- _ => apply H
                           | H : spawn_over _ _ |- _ => apply H
                           end]|].
      all: split; [done|]; by destruct (_ =? 0). }
    destruct Hwhere as (Hn & -> & Hsys). split; [by rewrite Hn|].
    split; [by rewrite Hn|].
    intros Hzero. rewrite Hzero in Hsys. cbn [Z.eqb] in Hsys.
    assert (Hin' : sysconf_nprocessors_onln env ∈
                   omap (fun e => match e with EvSysconf x => Some x | _ => None end)
                     (main_trace s)) by (rewrite Hsys; left).
    apply list_elem_of_omap in Hin' as (e & He & Hf).
    destruct e; try discriminate. injection Hf as ->. by apply list_elem_of_In.
Qed.

End ThreadCount.

Lemma sample_assert_configured_ok :
  guc_accepts pgstrom_init_opencl_server (configured_num_threads sample_env_assert).
Proof. by vm_compute. Defined.

Lemma failed_assert_stops_startup_witness :
  pc sample_final_assert = PC_aborted /\
  threads sample_final_assert = [] /\
  list.last (main_trace sample_final_assert) = Some EvAssertFailed.
Proof.
  assert (Hreach : reachable sample_env_assert sample_final_assert)
    by (exists [ActMain; ActMain; ActMain]; vm_compute; reflexivity).
  pose proof (failed_assert_stops_startup sample_env_assert
                sample_assert_configured_ok sample_final_assert Hreach) as (H & _).
  destruct (H ltac:(vm_compute; tauto)) as (_ & _ & H1 & H2 & H3 & _).
  exact (conj H1 (conj H2 H3)).
Defined.

Lemma sample_no_processors_configured_ok :
  guc_accepts pgstrom_init_opencl_server
    (configured_num_threads sample_env_no_processors).
Proof. by vm_compute. Defined.

Lemma thread_count_auto_selection_witness :
  configured_num_threads sample_env_no_processors = 0 /\
  -1 = sysconf_nprocessors_onln sample_env_no_processors.
Proof.
  assert (Hreach : reachable sample_env_no_processors sample_final_no_processors)
    by (exists [ActMain; ActMain; ActMain; ActMain]; vm_compute; reflexivity).
  pose proof (thread_count_auto_selection sample_env_no_processors
                sample_no_processors_configured_ok
                sample_final_no_processors Hreach) as (H & _).
  exact (H (-1) ltac:(vm_compute; tauto)).
Defined.

Section ComingUp.
Variable env : environment.
Hypothesis configured_ok :
  guc_accepts pgstrom_init_opencl_server (configured_num_threads env).

(** Left to itself the main routine runs until it returns, aborts or
    waits in [pthread_join]. *)
Lemma main_runs_until_blocked : forall (m : nat) s,
  reachable env s ->
  main_steps_left (Z.max 0 (resolved_num_threads env)) (pc s) <= Z.of_nat m ->
  exists j s' evs,
    sys_run env s (repeat ActMain j) = Some s' /\
    handlers s' = handlers s /\
    trace s' = trace s ++ map (pair Main) evs /\
    (alive s' = false \/ sys_step env s' ActMain = None).
Proof.
  induction m as [|m IH]; intros s Hreach Hm.
  all: destruct (sys_step env s ActMain) as [s1|] eqn:Hmain;
    [|exists 0%nat, s, []; rewrite app_nil_r; by auto].
  all: pose proof (main_step_decreases env configured_ok s s1 Hreach Hmain) as Hless;
    cbv zeta in Hless.
  - lia.
  - destruct (IH s1) as (j & s' & evs & Hrun & Hh & Htr & Hend);
      [by eapply reachable_step|lia|].
    apply main_step_effect in Hmain as Heff.
    destruct Heff as (mv & _ & _ & _ & _ & Hh1 & Htr1 & _).
    exists (S j), s', (mv_events mv ++ evs). cbn [repeat sys_run]. rewrite Hmain.
    split; [done|]. split; [congruence|]. split; [|done].
    by rewrite Htr, Htr1, map_app, app_assoc.
Qed.

(** X22: when nothing fails the server comes up.  If the start-up code
    succeeds, the thread handles can be allocated, every thread can be
    created and the count is positive, the main routine on its own
    reaches [pthread_join] on the last thread it created: all
    [opencl_num_threads] threads exist and stand at the test of their
    loop, the last line logged says that they are up, and the shutdown
    flag is unset. *)
Theorem server_comes_up :
  init_ok env -> malloc_ok env (malloc_size env) = true ->
  (forall i, 0 <= i < resolved_num_threads env -> pthread_create_ok env i = true) ->
  0 < resolved_num_threads env ->
  exists j s,
    sys_run env (initial env) (repeat ActMain j) = Some s /\
    pc s = PC_joining (resolved_num_threads env - 1) /\
    threads s = repeat W_test (Z.to_nat (resolved_num_threads env)) /\
    list.last (main_trace s) = Some ThreadsUp /\
    pgstrom_clserv_exit_pending s = false.
Proof.
  intros Hinit Hmalloc Hcreate Hpos.
  set (N := Z.max 0 (resolved_num_threads env)).
  destruct (main_runs_until_blocked (Z.to_nat (main_steps_left N PC_start))
              (initial env) (reachable_initial env))
    as (j & s & evs & Hrun & Hh & Htr & Hend); [cbn; lia|].
  exists j, s. split; [done|].
  pose proof (reachable_run env _ _ _ (reachable_initial env) Hrun) as Hreach.
  pose proof (main_inv_reachable env configured_ok s Hreach) as Hinv.
  destruct (server_runs_until_signalled env configured_ok Hcreate s Hreach Hh Hpos)
    as (Hflag & Hrunning & Hjoins & _ & Hret).
  assert (Halive : alive s = true).
  { unfold alive. unfold main_inv in Hinv. cbv zeta in Hinv.
    destruct (pc s) eqn:Hpc; try done.
    - specialize (Hret eq_refl). congruence.
    - destruct Hinv as (_ & [(Hno & _)|(_ & _ & Hle & _)]); [done|lia]. }
  destruct Hend as [Hdead|Hblocked]; [congruence|].
  destruct (main_step_blocked env s Halive Hblocked) as (i & Hpc & _).
  unfold main_inv in Hinv. rewrite Hpc in Hinv. cbv zeta in Hinv.
  destruct Hinv as (Hi & ((_ & _ & _ & _ & _ & Hle) & Hfail) & _ & _ & Htrace).
  cbv zeta in *.
  set (c := Z.of_nat (length (threads s))) in *.
  assert (Hc : c = resolved_num_threads env).
  { destruct (Z.lt_ge_cases c (resolved_num_threads env)) as [Hlt|Hge]; [|lia].
    specialize (Hfail Hlt). rewrite Hcreate in Hfail; [done|lia]. }
  assert (Hlast : i + 1 = c).
  { rewrite Htrace in Hjoins. revert Hjoins. unfold joins. project.
    destruct (Z.lt_ge_cases (i + 1) c) as [Hlt|Hge]; [|lia].
    rewrite (seqZ_cons (i + 1)) by lia. rewrite reverse_cons.
    intros Hnil. by apply app_nil in Hnil as (_ & ?). }
  split; [rewrite Hpc; f_equal; lia|]. split; [|split; [|done]].
  - assert (Hall : Forall (fun w => w = W_test) (threads s)).
    { apply Forall_forall. intros w Hw.
      apply list_elem_of_In, list_elem_of_lookup in Hw as (k & Hk).
      pose proof (worker_inv_reachable env s Hreach k) as Hwk. rewrite Hk in Hwk.
      destruct Hwk as (its & _ & Heq).
      assert (Hsilent : worker_trace k s = []).
      { unfold worker_trace. rewrite Htr. cbn [initial trace history reverse].
        change (trace (initial env)) with (@nil (actor * event)).
        by rewrite app_nil_l, events_of_pair. }
      rewrite Hsilent in Heq. symmetry in Heq.
      apply app_nil in Heq as (_ & Hp). by destruct w. }
    replace (Z.to_nat (resolved_num_threads env)) with (length (threads s)) by lia.
    clear -Hall. induction Hall as [|w ts -> _ IH]; [done|]. cbn. by rewrite <- IH.
  - rewrite Htrace. unfold at_join, announce_events.
    replace (i + 1) with c by lia. rewrite join_events_none, app_nil_r.
    destruct (Z.ltb_spec c (resolved_num_threads env)); [lia|].
    by rewrite last_snoc.
Qed.

End ComingUp.

Lemma server_comes_up_witness :
  exists j s,
    sys_run sample_env (initial sample_env) (repeat ActMain j) = Some s /\
    pc s = PC_joining (resolved_num_threads sample_env - 1) /\
    threads s = repeat W_test (Z.to_nat (resolved_num_threads sample_env)) /\
    list.last (main_trace s) = Some ThreadsUp /\
    pgstrom_clserv_exit_pending s = false.
Proof.
  apply (server_comes_up sample_env sample_configured_ok).
  - reflexivity.
  - reflexivity.
  - intros i _. reflexivity.
  - vm_compute. reflexivity.
Defined.

(** ** The flag and the cancellation of the server loop *)

Section FlagBeforeCancel.
Variable env : environment.
Hypothesis configured_ok :
  guc_accepts pgstrom_init_opencl_server (configured_num_threads env).

(** A handler that is past its first statement has written the flag. *)
Lemma handler_wrote_flag s :
  reachable env s ->
  forall h sig hp, handlers s !! h = Some (sig, hp) -> hp <> H_flag ->
    In (Handler h, EvWriteExitPending true) (trace s).
Proof.
  revert s. apply (reachable_induction env
    (fun s => forall h sig hp, handlers s !! h = Some (sig, hp) -> hp <> H_flag ->
                In (Handler h, EvWriteExitPending true) (trace s))).
  { by intros [|h] sig hp. }
  intros s a s' _ IH Hstep h sig hp Hh Hhp. destruct a as [|k deq|sig0|h0].
  - apply main_step_effect in Hstep as (mv & _ & _ & _ & _ & Hhs & Htr & _).
    rewrite Htr. apply in_app_iff. left. rewrite Hhs in Hh. by eapply IH.
  - apply worker_step_effect in Hstep
      as (w & w' & ev & _ & _ & _ & _ & _ & Hhs & Htr & _).
    rewrite Htr. apply in_app_iff. left. rewrite Hhs in Hh. by eapply IH.
  - apply signal_step_effect in Hstep as (_ & _ & _ & Hhs & Htr & _).
    rewrite Htr. rewrite Hhs in Hh.
    apply lookup_app_Some in Hh as [Hh|(_ & Hh)]; [by eapply IH|].
    by apply list_lookup_singleton_Some in Hh as (_ & [= _ <-]).
  - apply handler_step_effect in Hstep
      as (sig1 & hp1 & hp1' & ev & Hh1 & Hcode & _ & _ & _ & Hhs & Htr & _).
    rewrite Htr. apply in_app_iff. rewrite Hhs in Hh.
    apply list_lookup_insert_Some in Hh as [(-> & [= <- <-] & _)|(_ & Hh)];
      [|left; by eapply IH].
    destruct hp1; [right|left; by eapply IH|left; by eapply IH|by destruct sig1].
    destruct sig1; cbn in Hcode; injection Hcode as _ <-; by left.
Qed.

Lemma main_cancels_on_failure s mv :
  pgstrom_opencl_main env s = Some mv -> In EvCancelServerLoop (mv_events mv) ->
  (exists i, pc s = PC_fail_cancel i) /\ mv_events mv = [EvCancelServerLoop].
Proof.
  unfold pgstrom_opencl_main, move. intros Hmv Hin.
  assert (Hinit : ~ In EvCancelServerLoop (fst (init_opencl_context_and_shmem env))).
  { intros Hc. pose proof (Forall_init_events env) as Hall.
    rewrite Forall_forall in Hall. by apply Hall in Hc. }
  destruct (pc s); try done.
  8: { injection Hmv as <-. split; [by eexists|done]. }
  all: exfalso; revert Hin.
  - injection Hmv as <-. cbn. intuition discriminate.
  - destruct (init_opencl_context_and_shmem env) as [evs [[]|fmt]];
      injection Hmv as <-; cbn [mv_events fst] in *;
      rewrite ?in_app_iff; cbn; intuition discriminate.
  - destruct (opencl_num_threads s =? 0), (assert_checking env && _);
      injection Hmv as <-; cbn; intuition discriminate.
  - destruct (malloc_ok env _); injection Hmv as <-; cbn; intuition discriminate.
  - destruct (i <? _); [destruct (pthread_create_ok env i)|];
      injection Hmv as <-; cbn; intuition discriminate.
  - destruct (i <? _); injection Hmv as <-; cbn; intuition discriminate.
  - injection Hmv as <-. cbn. intuition discriminate.
  - destruct (wrap_int (i - 1) >=? 0); injection Hmv as <-; cbn; intuition.
  - destruct (threads s !! Z.to_nat i) as [[]|]; try done.
    injection Hmv as <-. cbn. intuition discriminate.
  - injection Hmv as <-. cbn. intuition discriminate.
  - injection Hmv as <-. cbn. intuition discriminate.
Qed.

(** X23: the server loop is never cancelled before the flag is set.
    Whoever calls [pgstrom_cancel_server_loop], a signal handler or the
    main routine after a failed thread creation, has written [true] to
    the shutdown flag before: in every trace each cancellation is
    preceded by a write of the flag by the same actor, and the flag is
    set from then on. *)
Theorem flag_set_before_cancel s :
  reachable env s ->
  forall pre a post,
    trace s = pre ++ (a, EvCancelServerLoop) :: post ->
    In (a, EvWriteExitPending true) pre /\
    pgstrom_clserv_exit_pending s = true.
Proof.
  intros Hreach.
  assert (Horder : forall pre a post,
    trace s = pre ++ (a, EvCancelServerLoop) :: post ->
    In (a, EvWriteExitPending true) pre).
  { revert s Hreach. apply (reachable_induction env
      (fun s => forall pre a post,
         trace s = pre ++ (a, EvCancelServerLoop) :: post ->
         In (a, EvWriteExitPending true) pre)).
    { intros pre a post Heq. by destruct pre. }
    intros s a0 s' Hreach IH Hstep pre a post Heq.
    assert (Hnew : forall b evs,
      trace s' = trace s ++ map (pair b) evs ->
      (In EvCancelServerLoop evs -> evs = [EvCancelServerLoop] /\
                                    In (b, EvWriteExitPending true) (trace s)) ->
      In (a, EvWriteExitPending true) pre).
    { intros b evs Htr Hevs. rewrite Htr in Heq.
      apply app_split_at in Heq as [(post0 & Hs & _)|(pre' & -> & Hn)];
        [by eapply IH|].
      assert (Hin : In (a, EvCancelServerLoop) (map (pair b) evs))
        by (rewrite Hn; apply in_elt).
      apply in_map_iff in Hin as (e & [= -> ->] & Hin).
      destruct (Hevs Hin) as (-> & Hw). apply in_app_iff. by left. }
    destruct a0 as [|k deq|sig|h].
    - apply main_step_effect in Hstep as Heff.
      destruct Heff as (mv & Hmv & _ & _ & _ & _ & Htr & _).
      apply (Hnew Main (mv_events mv) Htr). intros Hin.
      destruct (main_cancels_on_failure s mv Hmv Hin) as ((i & Hpc) & Hevs).
      split; [done|].
      pose proof (main_inv_reachable env configured_ok s Hreach) as Hinv.
      unfold main_inv in Hinv. rewrite Hpc in Hinv. cbv zeta in Hinv.
      destruct Hinv as (_ & _ & _ & _ & Htrace).
      apply In_main_trace. rewrite Htrace. apply in_app_iff. right. cbn. auto.
    - apply worker_step_effect in Hstep
        as (w & w' & ev & _ & Hloop & _ & _ & _ & _ & Htr & _).
      apply (Hnew (Worker k) [ev] Htr). intros [->|[]]. exfalso.
      destruct w; cbn in Hloop; try discriminate; by injection Hloop.
    - apply signal_step_effect in Hstep as (_ & _ & _ & _ & Htr & _).
      apply (Hnew Main [] (eq_trans Htr (eq_sym (app_nil_r _)))). by intros [].
    - apply handler_step_effect in Hstep as Heff.
      destruct Heff as (sig & hp & hp' & ev & Hh & Hcode & _ & _ & _ & _ & Htr & _).
      apply (Hnew (Handler h) [ev] Htr). intros [->|[]]. split; [done|].
      apply (handler_wrote_flag s Hreach h sig hp Hh).
      destruct sig, hp; cbn in Hcode; try discriminate; done. }
  intros pre a post Heq. split; [by eapply Horder|].
  apply (flag_written env s Hreach).
  specialize (Horder pre a post Heq).
  assert (Hin : In (a, EvWriteExitPending true) (trace s))
    by (rewrite Heq; apply in_app_iff; by left).
  apply (in_map snd) in Hin. cbn in Hin.
  eapply (In_omap (fun e => match e with
                            | EvWriteExitPending v => Some v
                            | _ => None
                            end)) in Hin; [|done].
  unfold flag_writes. intros E. by rewrite E in Hin.
Qed.

End FlagBeforeCancel.

Lemma flag_set_before_cancel_witness :
  In (Handler 0, EvWriteExitPending true) (take 25 (trace sample_final)) /\
  pgstrom_clserv_exit_pending sample_final = true.
Proof.
  assert (Hreach : reachable sample_env sample_final)
    by (exists sample_schedule; vm_compute; reflexivity).
  apply (flag_set_before_cancel sample_env sample_configured_ok sample_final
           Hreach (take 25 (trace sample_final)) (Handler 0)
           (drop 26 (trace sample_final))).
  vm_compute. reflexivity.
Defined.

(** ** Registration with the postmaster (lines 349-399) *)

(** MAXALIGN rounds up to the next multiple of 8. *)
Lemma MAXALIGN_rounds_up len :
  0 <= len <= 2 ^ 64 - 8 ->
  Postmaster.MAXALIGN len = 8 * ((len + 7) / 8) /\
  len <= Postmaster.MAXALIGN len < len + 8.
Proof.
  intros Hlen.
  assert (Heq : Postmaster.MAXALIGN len = 8 * ((len + 7) / 8)).
  { unfold Postmaster.MAXALIGN, Postmaster.TYPEALIGN, Postmaster.MAXIMUM_ALIGNOF.
    unfold wrap_size_t. rewrite (Z.mod_small len) by lia.
    rewrite (Z.mod_small (len + (8 - 1))) by lia.
    rewrite (Z.mod_small (8 - 1)) by lia.
    rewrite <- (Z.land_ones (Z.lnot (8 - 1)) 64) by lia.
    rewrite Z.land_assoc, Z.land_ones by lia.
    rewrite <- Z.ldiff_land. change (8 - 1) with (Z.ones 3).
    rewrite Z.ldiff_ones_r by lia.
    rewrite Z.shiftr_div_pow2, Z.shiftl_mul_pow2 by lia.
    change (2 ^ 3) with 8. change (Z.ones 3) with 7.
    pose proof (Z.mul_div_le (len + 7) 8 ltac:(lia)).
    pose proof (Z.div_pos (len + 7) 8 ltac:(lia) ltac:(lia)).
    rewrite Z.mod_small by lia. lia. }
  split; [done|]. rewrite Heq.
  pose proof (Z.mul_div_le (len + 7) 8 ltac:(lia)).
  pose proof (Z.mul_succ_div_gt (len + 7) 8 ltac:(lia)). lia.
Qed.

(** X24: the start-up hook is chained, and it initialises what was
    reserved.  After [pgstrom_init_opencl_server], the shared memory
    hook is this file's, and when the postmaster calls it it first calls
    the hook that was installed before, if there was one, exactly once;
    it then asks [ShmemInitStruct] for exactly the number of bytes
    [RequestAddinShmemSpace] had reserved, which is the size of the
    structure rounded up to a multiple of 8, so that the [memset] of the
    structure stays inside them.  If the structure exists already, an
    [Assert] stops the hook in a build with assertion checking; without
    it the structure is cleared and its lock initialised again. *)
Theorem startup_hook_chained st assert_checking address found :
  let after_init := Postmaster.pgstrom_init_opencl_server st in
  let after_hook :=
    Postmaster.call_shmem_startup_hook assert_checking (address, found)
      (fst after_init) in
  let reserved := Postmaster.MAXALIGN Postmaster.sizeof_shm_values in
  Postmaster.shmem_startup_hook (fst after_init) =
    Some Postmaster.Hook_pgstrom_startup_opencl_server /\
  list.last (snd after_init) = Some (Postmaster.RequestAddinShmemSpace reserved) /\
  snd (fst after_hook) =
    match Postmaster.shmem_startup_hook st with
    | Some previous => [Postmaster.CallHook previous]
    | None => []
    end ++
    Postmaster.ShmemInitStruct "opencl_serv_shm_values" reserved found ::
    (if assert_checking && found
     then [Postmaster.AssertFailed]
     else [Postmaster.Memset address 0 Postmaster.sizeof_shm_values;
           Postmaster.SpinLockInit address]) /\
  snd after_hook = negb (assert_checking && found) /\
  Postmaster.opencl_serv_shm_values (fst (fst after_hook)) = Some address /\
  Postmaster.sizeof_shm_values <= reserved < Postmaster.sizeof_shm_values + 8 /\
  reserved mod 8 = 0.
Proof.
  intros after_init after_hook reserved.
  split; [done|]. split; [done|]. subst after_hook after_init.
  unfold Postmaster.call_shmem_startup_hook, Postmaster.pgstrom_init_opencl_server,
    Postmaster.pgstrom_startup_opencl_server.
  cbn [fst snd Postmaster.shmem_startup_hook Postmaster.shmem_startup_hook_next].
  split; [|split; [|split]].
  - by destruct (assert_checking && found), (Postmaster.shmem_startup_hook st).
  - by destruct (assert_checking && found).
  - by destruct (assert_checking && found).
  - destruct (MAXALIGN_rounds_up Postmaster.sizeof_shm_values) as (Heq & Hle);
      [by vm_compute|].
    split; [exact Hle|]. subst reserved. rewrite Heq.
    by rewrite Z.mul_comm, Z.mod_mul.
Qed.
